(** * go-faster/fs: the S3-compatible storage server (s3.go)

    A shallow embedding of [S3Server] and of the parts of the Go standard
    library it stands on, followed by the properties of the storage
    semantics.

    Conventions of the embedding.

    - Go strings are byte strings: [string].  Object payloads are
      [list byte].
    - The platform is Unix: [filepath.Separator] is ['/'], there is no volume
      name, [filepath.ToSlash] is the identity.
    - The file system is a tree of regular files and directories.  There are
      no symbolic links, no permissions and no time stamps (the
      [LastModified], [CreationDate] and [ETag] fields, which no operation
      below computes with, are left out of the records).
    - Every method of [S3Server] holds [s.mu] for its whole body, so a method
      is one atomic step on the file system: state passing
      [world -> world * ...].
    - [int64] sizes are [Z].

    The file has the definitions first: the packages [strings],
    [path/filepath], [io], [os] and [net/http] as far as s3.go uses them,
    s3.go itself, and the vocabulary of the statements.  The lemmas follow:
    paths, the tree, the calls, the walk, the invariant [well_formed_world]
    that every method keeps, the dispatcher; and at the end the properties
    C1 to C10. *)

From Stdlib Require Import List String Ascii Bool ZArith Lia Arith.
From Stdlib.Strings Require Import Byte.
From Stdlib Require Import DecimalString.
Import ListNotations.
Local Open Scope string_scope.
Local Open Scope list_scope.

Set Implicit Arguments.

(* ================================================================== *)
(** * Package strings *)

Module strings.

(** [strings.HasPrefix(s, prefix)]. *)
Definition HasPrefix (s prefix : string) : bool := String.prefix prefix s.

(** [strings.TrimPrefix(s, prefix)]. *)
Definition TrimPrefix (s prefix : string) : string :=
  if String.prefix prefix s
  then String.substring (String.length prefix)
                        (String.length s - String.length prefix) s
  else s.

(** [strings.Split(s, "/")]: the fields between the slashes; never empty. *)
Fixpoint Split (s : string) : list string :=
  match s with
  | EmptyString => [EmptyString]
  | String c s' =>
      if Ascii.eqb c "/" then EmptyString :: Split s'
      else match Split s' with
           | h :: t => String c h :: t
           | [] => [String c EmptyString]
           end
  end.

(** The text before the first slash, and the text after it when there is
    one. *)
Fixpoint cut (s : string) : string * option string :=
  match s with
  | EmptyString => (EmptyString, None)
  | String c s' =>
      if Ascii.eqb c "/" then (EmptyString, Some s')
      else let (h, t) := cut s' in (String c h, t)
  end.

(** [strings.SplitN(s, "/", n)]: [n = 0] gives no field, [n = 1] the whole
    string, a larger [n] at most [n] fields of which the last is the
    unsplit rest. *)
Fixpoint SplitN (s : string) (n : nat) : list string :=
  match n with
  | O => []
  | S O => [s]
  | S n' =>
      match cut s with
      | (h, None) => [h]
      | (h, Some t) => h :: SplitN t n'
      end
  end.

(** [strings.Join(elems, "/")]. *)
Definition Join (elems : list string) : string := String.concat "/" elems.

End strings.

(* ================================================================== *)
(** * Package path/filepath (Unix) *)

Module filepath.

Definition isRooted (s : string) : bool :=
  match s with
  | String c _ => Ascii.eqb c "/"
  | EmptyString => false
  end.

(** The lexical processing of [Clean] on the elements of a path: the
    output so far is [out], most recent element first.  Empty and ["."]
    elements are dropped; [".."] removes the element before it, is dropped
    at the root of a rooted path and is kept at the start of a relative
    one. *)
Fixpoint clean_elems (rooted : bool) (out : list string) (elems : list string)
  : list string :=
  match elems with
  | [] => rev out
  | e :: rest =>
      if (e =? "") || (e =? ".") then clean_elems rooted out rest
      else if e =? ".." then
        match out with
        | top :: out' =>
            if top =? ".." then clean_elems rooted (e :: out) rest
            else clean_elems rooted out' rest
        | [] =>
            if rooted then clean_elems rooted [] rest
            else clean_elems rooted [e] rest
        end
      else clean_elems rooted (e :: out) rest
  end.

(** The elements of [Clean(s)]. *)
Definition elems (s : string) : list string :=
  clean_elems (isRooted s) [] (strings.Split s).

(** [filepath.Clean]. *)
Definition Clean (s : string) : string :=
  if isRooted s then "/" ++ strings.Join (elems s)
  else match elems s with
       | [] => "."
       | es => strings.Join es
       end.

(** [filepath.Join]: leading empty elements are ignored, the rest is joined
    with the separator and cleaned; all empty gives the empty string. *)
Fixpoint Join (elem : list string) : string :=
  match elem with
  | [] => ""
  | e :: rest =>
      if e =? "" then Join rest else Clean (strings.Join elem)
  end.

(** The text of [s] up to and including its last separator. *)
Fixpoint upto_last_sep (s : string) : string :=
  match s with
  | EmptyString => EmptyString
  | String c s' =>
      let r := upto_last_sep s' in
      if Ascii.eqb c "/" then String c r
      else if r =? "" then "" else String c r
  end.

(** [filepath.Dir]. *)
Definition Dir (path : string) : string := Clean (upto_last_sep path).

(** [filepath.Base]: the last element of the path, trailing separators
    aside. *)
Definition Base (path : string) : string :=
  match filter (fun e => negb (e =? "")) (strings.Split path) with
  | [] => if path =? "" then "." else "/"
  | e :: es => last es e
  end.

(** [filepath.ToSlash]: the separator is already the slash. *)
Definition ToSlash (path : string) : string := path.

(** The two element lists without their longest common prefix. *)
Fixpoint strip_common (b t : list string) : list string * list string :=
  match b, t with
  | x :: b', y :: t' => if x =? y then strip_common b' t' else (b, t)
  | _, _ => (b, t)
  end.

(** [filepath.Rel(basepath, targpath)]: [None] is the error "Rel: can't
make targpath relative to basepath".  Both paths are cleaned; equal, the
answer is ["."]; one rooted and the other not is an error.  Then the
elements are compared from the left, where a base of ["."] has no element
and a target of ["."] has that one: at the first difference a base element
[".."] is an error, and otherwise the answer goes up once for every base
element left and down the target elements left. *)
Definition Rel (basepath targpath : string) : option string :=
  let base := Clean basepath in
  let targ := Clean targpath in
  if targ =? base then Some "."
  else if negb (Bool.eqb (isRooted base) (isRooted targ)) then None
  else
    match strip_common (elems basepath)
                       (if targ =? "." then ["."] else elems targpath) with
    | (b0 :: bs, t0 :: ts) =>
        if b0 =? ".." then None
        else Some (strings.Join (map (fun _ => "..") (b0 :: bs) ++ t0 :: ts))
    | (b0 :: bs, []) => Some (strings.Join (map (fun _ => "..") (b0 :: bs)))
    | ([], ts) => Some (strings.Join ts)
    end.

End filepath.

(* ================================================================== *)
(** * Errors *)

Inductive Errno : Type :=
| ENOENT      (* no such file or directory *)
| ENOTDIR     (* not a directory *)
| EISDIR      (* is a directory *)
| EEXIST      (* file exists *)
| ENOTEMPTY   (* directory not empty *)
| EBUSY.      (* device or resource busy *)

Definition Errno_text (e : Errno) : string :=
  match e with
  | ENOENT => "no such file or directory"
  | ENOTDIR => "not a directory"
  | EISDIR => "is a directory"
  | EEXIST => "file exists"
  | ENOTEMPTY => "directory not empty"
  | EBUSY => "device or resource busy"
  end.

(** Go's [error] values as the program builds them: an [*fs.PathError] of
    the os layer, a plain [errors.New] text, and the wrapping
    [fmt.Errorf("context: %w", err)]. *)
Inductive error : Type :=
| PathError (Op Path : string) (Err : Errno)
| ErrorText (msg : string)
| Wrap (context : string) (cause : error).

(** [err.Error()]. *)
Fixpoint Error (e : error) : string :=
  match e with
  | PathError op path err => op ++ " " ++ path ++ ": " ++ Errno_text err
  | ErrorText msg => msg
  | Wrap context cause => context ++ ": " ++ Error cause
  end.

(** A call that returns [(value, error)]. *)
Inductive result (A : Type) : Type :=
| Ok (a : A)
| Failed (e : error).
Arguments Ok {A} a.
Arguments Failed {A} e.

(* ================================================================== *)
(** * Package io *)

(** An [io.Reader] read to its end: the bytes it delivers, then [io.EOF]
    ([None]) or a read error. *)
Record Reader : Type := mkReader {
  delivered : list byte;
  read_error : option error
}.

(** A reader over a byte slice, as [bytes.NewReader]. *)
Definition NewReader (b : list byte) : Reader := mkReader b None.

(* ================================================================== *)
(** * Package os: the file system *)

(** The calls take the path as the program hands it over, find the place it
    names and read or change the tree there.  The place is found from the
    text of the path alone: the storage root as it was given apart, every
    path the server passes has been through [filepath.Join], so that it has
    no [".."] after a name, and on such a path the walk of the kernel depends
    on nothing else.  A call that fails
    leaves the tree as it was.  Failures of the device (no space, no
    permission) are not part of the model. *)

Module os.

(** A file system entry: a regular file with its content, or a directory
    with its entries, kept in ascending order of name as [os.ReadDir] and
    [filepath.Walk] deliver them. *)
#[local] Unset Elimination Schemes.
Inductive node : Type :=
| File (data : list byte)
| Dir (entries : list (string * node)).
#[local] Set Elimination Schemes.

(** The state of the world outside the program: the file system tree from
    ["/"] and the working directory of the process, as the names from the
    root. *)
Record world : Type := mkWorld {
  cwd : list string;
  tree : node
}.

Record FileInfo : Type := mkFileInfo {
  Name : string;
  Size : Z;
  IsDir : bool
}.

(** [Size()] of a directory is system-dependent; 4096 is what common Linux
    file systems report. *)
Definition dir_size : Z := 4096.

Definition info_of (name : string) (n : node) : FileInfo :=
  match n with
  | File data => mkFileInfo name (Z.of_nat (List.length data)) false
  | Dir _ => mkFileInfo name dir_size true
  end.

(** ** Directories as ordered association lists *)

Fixpoint find_entry (name : string) (es : list (string * node)) : option node :=
  match es with
  | [] => None
  | (k, v) :: rest => if k =? name then Some v else find_entry name rest
  end.

Fixpoint replace_entry (name : string) (v : node) (es : list (string * node))
  : list (string * node) :=
  match es with
  | [] => []
  | (k, v0) :: rest =>
      if k =? name then (k, v) :: rest
      else (k, v0) :: replace_entry name v rest
  end.

Fixpoint insert_entry (name : string) (v : node) (es : list (string * node))
  : list (string * node) :=
  match es with
  | [] => [(name, v)]
  | (k, v0) :: rest =>
      if String.ltb name k then (name, v) :: es
      else (k, v0) :: insert_entry name v rest
  end.

(** Bind [name] to [v]: in place when the name is there, at its place in
    the order when it is new. *)
Definition set_entry (name : string) (v : node) (es : list (string * node))
  : list (string * node) :=
  match find_entry name es with
  | Some _ => replace_entry name v es
  | None => insert_entry name v es
  end.

Fixpoint remove_entry (name : string) (es : list (string * node))
  : list (string * node) :=
  match es with
  | [] => []
  | (k, v0) :: rest =>
      if k =? name then rest else (k, v0) :: remove_entry name rest
  end.

(** ** Path resolution *)

(** The walk of the kernel along the components of a path, from the
    directory [cur] (its names from the root, innermost first): an empty
    component and ["."] stay, [".."] goes to the parent (the root is its
    own parent), a name goes down. *)
Fixpoint namei (cur : list string) (comps : list string) : list string :=
  match comps with
  | [] => rev cur
  | c :: rest =>
      if (c =? "") || (c =? ".") then namei cur rest
      else if c =? ".." then namei (tl cur) rest
      else namei (c :: cur) rest
  end.

(** The place a path names: the names from the root.  The empty path names
    nothing (ENOENT). *)
Definition locate (w : world) (path : string) : option (list string) :=
  if path =? "" then None
  else Some (namei (if filepath.isRooted path then [] else rev (cwd w))
                   (strings.Split path)).

(** The entry at a place, or the reason there is none. *)
Fixpoint entry_at (p : list string) (n : node) : Errno + node :=
  match p with
  | [] => inr n
  | name :: rest =>
      match n with
      | File _ => inl ENOTDIR
      | Dir es =>
          match find_entry name es with
          | None => inl ENOENT
          | Some c => entry_at rest c
          end
      end
  end.

(** Change the binding of the last name of [p] inside its parent
    directory: [change] sees the entry now bound (if any) and answers with
    the new entry, with [None] to unbind the name, or with an error.  The
    root has no parent: [at_root]. *)
Fixpoint alter (at_root : Errno) (change : option node -> Errno + option node)
         (p : list string) (n : node) : Errno + node :=
  match p with
  | [] => inl at_root
  | name :: rest =>
      match n with
      | File _ => inl ENOTDIR
      | Dir es =>
          match rest with
          | [] =>
              match change (find_entry name es) with
              | inl e => inl e
              | inr (Some v) => inr (Dir (set_entry name v es))
              | inr None => inr (Dir (remove_entry name es))
              end
          | _ :: _ =>
              match find_entry name es with
              | None => inl ENOENT
              | Some c =>
                  match alter at_root change rest c with
                  | inl e => inl e
                  | inr c' => inr (Dir (set_entry name c' es))
                  end
              end
          end
      end
  end.

(** A fresh chain of directories [a/b/c]. *)
Fixpoint chain (p : list string) : node :=
  match p with
  | [] => Dir []
  | name :: rest => Dir [(name, chain rest)]
  end.

(** The tree after [MkdirAll] of the place [p]: the directories that exist
    are kept, the missing ones are made; a regular file on the way is
    ENOTDIR and nothing is made. *)
Fixpoint mkdir_all (p : list string) (n : node) : Errno + node :=
  match n with
  | File _ => inl ENOTDIR
  | Dir es =>
      match p with
      | [] => inr n
      | name :: rest =>
          match find_entry name es with
          | Some c =>
              match mkdir_all rest c with
              | inl e => inl e
              | inr c' => inr (Dir (set_entry name c' es))
              end
          | None => inr (Dir (set_entry name (chain rest) es))
          end
      end
  end.

(** ** The calls *)

(** [os.Stat] and [os.Lstat] (there are no links). *)
Definition Stat (path : string) (w : world) : result FileInfo :=
  match locate w path with
  | None => Failed (PathError "stat" path ENOENT)
  | Some p =>
      match entry_at p (tree w) with
      | inl e => Failed (PathError "stat" path e)
      | inr n => Ok (info_of (filepath.Base path) n)
      end
  end.

(** [os.MkdirAll(path, perm)]. *)
Definition MkdirAll (path : string) (w : world) : world * option error :=
  match locate w path with
  | None => (w, Some (PathError "mkdir" path ENOENT))
  | Some p =>
      match mkdir_all p (tree w) with
      | inl e => (w, Some (PathError "mkdir" path e))
      | inr t => (mkWorld (cwd w) t, None)
      end
  end.

(** An open file: the place it was opened at. *)
Record file : Type := mkFile { file_path : string; file_place : list string }.

(** What the calls do to the binding of a name. *)
Definition truncate (old : option node) : Errno + option node :=
  match old with
  | Some (Dir _) => inl EISDIR
  | _ => inr (Some (File []))
  end.

Definition append (data : list byte) (old : option node) : Errno + option node :=
  match old with
  | Some (File d) => inr (Some (File (d ++ data)))
  | _ => inl EISDIR
  end.

Definition unlink (old : option node) : Errno + option node :=
  match old with
  | None => inl ENOENT
  | Some (File _) => inr None
  | Some (Dir []) => inr None
  | Some (Dir (_ :: _)) => inl ENOTEMPTY
  end.

(** [os.Create(path)]: open for writing, created when missing, truncated
    when there; a directory is EISDIR. *)
Definition Create (path : string) (w : world) : world * result file :=
  match locate w path with
  | None => (w, Failed (PathError "open" path ENOENT))
  | Some p =>
      match alter EISDIR truncate p (tree w) with
      | inl e => (w, Failed (PathError "open" path e))
      | inr t => (mkWorld (cwd w) t, Ok (mkFile path p))
      end
  end.

(** [io.Copy(f, reader)] into an open file: everything the reader delivers
    is written; the error of the reader, if any, is the error of the
    copy. *)
Definition Copy_to (f : file) (reader : Reader) (w : world)
  : world * option error :=
  match alter EISDIR (append (delivered reader)) (file_place f) (tree w) with
  | inl e => (w, Some (PathError "write" (file_path f) e))
  | inr t => (mkWorld (cwd w) t, read_error reader)
  end.

(** [os.Open(path)]: a directory opens as well as a file does; reading it
    is what fails (EISDIR). *)
Definition Open (path : string) (w : world) : result Reader :=
  match locate w path with
  | None => Failed (PathError "open" path ENOENT)
  | Some p =>
      match entry_at p (tree w) with
      | inl e => Failed (PathError "open" path e)
      | inr (File data) => Ok (mkReader data None)
      | inr (Dir _) => Ok (mkReader [] (Some (PathError "read" path EISDIR)))
      end
  end.

(** [os.Remove(path)]: unlink a file or remove an empty directory. *)
Definition Remove (path : string) (w : world) : world * option error :=
  match locate w path with
  | None => (w, Some (PathError "remove" path ENOENT))
  | Some p =>
      match alter EBUSY unlink p (tree w) with
      | inl e => (w, Some (PathError "remove" path e))
      | inr t => (mkWorld (cwd w) t, None)
      end
  end.

(** [os.ReadDir(path)]: the entries of a directory, in order of name. *)
Definition ReadDir (path : string) (w : world) : result (list FileInfo) :=
  match locate w path with
  | None => Failed (PathError "open" path ENOENT)
  | Some p =>
      match entry_at p (tree w) with
      | inl e => Failed (PathError "open" path e)
      | inr (File _) => Failed (PathError "readdirent" path ENOTDIR)
      | inr (Dir es) => Ok (map (fun kv => info_of (fst kv) (snd kv)) es)
      end
  end.

End os.

(** [filepath.WalkFunc], with the variables its closure writes to as the
    state [A]. *)
Definition WalkFunc (A : Type) : Type :=
  string -> option os.FileInfo -> option error -> A -> A * option error.

(** The recursion of [filepath.Walk] on an entry that [Lstat] found at
    [path]: the function is called on the entry; for a directory the names
    are read in order and the walk goes on, for each name, with the path
    [Join(path, name)] and the entry that [Lstat] finds there, which is the
    entry of that name.  The first error stops the walk.  (The function of
    this program never answers [SkipDir] or [SkipAll].) *)
Fixpoint walk (A : Type) (path : string) (n : os.node) (walkFn : WalkFunc A)
         (acc : A) : A * option error :=
  match n with
  | os.File _ => walkFn path (Some (os.info_of (filepath.Base path) n)) None acc
  | os.Dir es =>
      match walkFn path (Some (os.info_of (filepath.Base path) n)) None acc with
      | (acc1, Some e) => (acc1, Some e)
      | (acc1, None) =>
          (fix each (es : list (string * os.node)) (acc : A) : A * option error :=
             match es with
             | [] => (acc, None)
             | (name, child) :: rest =>
                 match walk (filepath.Join [path; name]) child walkFn acc with
                 | (acc', Some e) => (acc', Some e)
                 | (acc', None) => each rest acc'
                 end
             end) es acc1
      end
  end.

(** [filepath.Walk(root, fn)]. *)
Definition Walk (A : Type) (root : string) (walkFn : WalkFunc A) (acc : A)
           (w : os.world) : A * option error :=
  match os.locate w root with
  | None => walkFn root None (Some (PathError "lstat" root ENOENT)) acc
  | Some p =>
      match os.entry_at p (os.tree w) with
      | inl e => walkFn root None (Some (PathError "lstat" root e)) acc
      | inr n => walk root n walkFn acc
      end
  end.

(* ================================================================== *)
(** * Package net/http, as far as the handler uses it *)

Definition MethodGet : string := "GET".
Definition MethodPut : string := "PUT".
Definition MethodDelete : string := "DELETE".

Definition StatusOK : Z := 200.
Definition StatusNoContent : Z := 204.
Definition StatusBadRequest : Z := 400.
Definition StatusNotFound : Z := 404.
Definition StatusMethodNotAllowed : Z := 405.
Definition StatusInternalServerError : Z := 500.

(** [*http.Request]: the fields the handler reads.  [Query_prefix] is
    [r.URL.Query().Get("prefix")], empty when the parameter is absent;
    [ContentLength] is -1 when the length of the body is not declared. *)
Record Request : Type := mkRequest {
  Method : string;
  URL_Path : string;
  Query_prefix : string;
  Body : Reader;
  ContentLength : Z
}.

(** * The records of s3.go *)

Record S3Server : Type := mkS3Server { root : string }.

Record Object : Type := mkObject { Key : string; Size : Z }.

Record Bucket : Type := mkBucket { Name : string }.

Record BucketInfo : Type := mkBucketInfo { BucketInfo_Name : string }.

Record BucketsWrapper : Type := mkBucketsWrapper { Buckets : list BucketInfo }.

Record ListAllMyBucketsResult : Type :=
  mkListAllMyBucketsResult { Result_Buckets : BucketsWrapper }.

Record ObjectInfo : Type := mkObjectInfo { ObjectInfo_Key : string; ObjectInfo_Size : Z }.

Record ListBucketResult : Type :=
  mkListBucketResult { Result_Name : string; Contents : list ObjectInfo }.

(** What the handler writes to the body: nothing, a line of text, the bytes
    of an object, or [xml.Header] followed by the encoding of one of the two
    result records (in the namespace
    [http://s3.amazonaws.com/doc/2006-03-01/]). *)
Inductive body : Type :=
| NoBody
| Text (s : string)
| Bytes (b : list byte)
| BucketsXML (r : ListAllMyBucketsResult)
| ObjectsXML (r : ListBucketResult).

(** What the [http.ResponseWriter] has received when the handler returns. *)
Record Response : Type := mkResponse {
  StatusCode : Z;
  Header : list (string * string);
  Payload : body
}.

Definition newline : string := String (Ascii.ascii_of_nat 10) EmptyString.

(** [http.Error(w, error, code)]. *)
Definition http_Error (error : string) (code : Z) : Response :=
  mkResponse code
             [("Content-Type", "text/plain; charset=utf-8");
              ("X-Content-Type-Options", "nosniff")]
             (Text (error ++ newline)).

(** [fmt.Sprintf("%d", n)]. *)
Definition Sprintf_d (n : Z) : string := NilEmpty.string_of_int (Z.to_int n).

(* ================================================================== *)
(** * s3.go *)


(** [ListBuckets]. *)
Definition ListBuckets (s : S3Server) (w : os.world) : result (list Bucket) :=
  match os.ReadDir (root s) w with
  | Failed err => Failed (Wrap "failed to read buckets" err)
  | Ok entries =>
      Ok (fold_left
            (fun buckets entry =>
               if os.IsDir entry
               then buckets ++ [mkBucket (os.Name entry)]
               else buckets)
            entries [])
  end.

(** [CreateBucket]. *)
Definition CreateBucket (s : S3Server) (bucket : string) (w : os.world)
  : os.world * option error :=
  let bucketPath := filepath.Join [root s; bucket] in
  match os.MkdirAll bucketPath w with
  | (w', Some err) => (w', Some (Wrap "failed to create bucket" err))
  | (w', None) => (w', None)
  end.

(** [DeleteBucket]. *)
Definition DeleteBucket (s : S3Server) (bucket : string) (w : os.world)
  : os.world * option error :=
  let bucketPath := filepath.Join [root s; bucket] in
  match os.Remove bucketPath w with
  | (w', Some err) => (w', Some (Wrap "failed to delete bucket" err))
  | (w', None) => (w', None)
  end.

(** [PutObject].  The [size] argument is not used by the body. *)
Definition PutObject (s : S3Server) (bucket key : string) (reader : Reader)
           (size : Z) (w : os.world) : os.world * option error :=
  let objectPath := filepath.Join [root s; bucket; key] in
  match os.MkdirAll (filepath.Dir objectPath) w with
  | (w1, Some err) => (w1, Some (Wrap "failed to create object directory" err))
  | (w1, None) =>
      match os.Create objectPath w1 with
      | (w2, Failed err) => (w2, Some (Wrap "failed to create object file" err))
      | (w2, Ok f) =>
          match os.Copy_to f reader w2 with
          | (w3, Some err) => (w3, Some (Wrap "failed to write object" err))
          | (w3, None) => (w3, None)
          end
      end
  end.

(** [GetObject]: the open file and the size that [Stat] reported. *)
Definition GetObject (s : S3Server) (bucket key : string) (w : os.world)
  : result (Reader * Z) :=
  let objectPath := filepath.Join [root s; bucket; key] in
  match os.Stat objectPath w with
  | Failed err => Failed (Wrap "failed to stat object" err)
  | Ok info =>
      match os.Open objectPath w with
      | Failed err => Failed (Wrap "failed to open object" err)
      | Ok f => Ok (f, os.Size info)
      end
  end.

(** [DeleteObject]. *)
Definition DeleteObject (s : S3Server) (bucket key : string) (w : os.world)
  : os.world * option error :=
  let objectPath := filepath.Join [root s; bucket; key] in
  match os.Remove objectPath w with
  | (w', Some err) => (w', Some (Wrap "failed to delete object" err))
  | (w', None) => (w', None)
  end.

(** The function literal that [ListObjects] hands to [filepath.Walk]; the
    variable [objects] it appends to is the state.  ([info] is nil only
    together with an error.) *)
Definition listWalkFn (bucketPath prefix : string) : WalkFunc (list Object) :=
  fun path info err objects =>
    match err with
    | Some e => (objects, Some e)
    | None =>
        match info with
        | None => (objects, None)
        | Some info =>
            if os.IsDir info then (objects, None)
            else
              match filepath.Rel bucketPath path with
              | None =>
                  (objects,
                   Some (ErrorText ("Rel: can't make " ++ path
                                    ++ " relative to " ++ bucketPath)))
              | Some relPath =>
                  let key := filepath.ToSlash relPath in
                  if (prefix =? "") || strings.HasPrefix key prefix
                  then (objects ++ [mkObject key (os.Size info)], None)
                  else (objects, None)
              end
        end
    end.

(** [ListObjects]. *)
Definition ListObjects (s : S3Server) (bucket prefix : string) (w : os.world)
  : result (list Object) :=
  let bucketPath := filepath.Join [root s; bucket] in
  match Walk bucketPath (listWalkFn bucketPath prefix) [] w with
  | (_, Some err) => Failed (Wrap "failed to list objects" err)
  | (objects, None) => Ok objects
  end.

(** [BucketInfo(bucket)] and [ObjectInfo(obj)]: the conversions between
    records of the same fields. *)
Definition BucketInfo_of (b : Bucket) : BucketInfo := mkBucketInfo (Name b).
Definition ObjectInfo_of (o : Object) : ObjectInfo :=
  mkObjectInfo (Key o) (Size o).

(** [ServeHTTP]: the world after the request and what was written to [w].
    Writes to the response writer succeed; what the handler prints on
    standard error is not part of the response. *)
Definition ServeHTTP (s : S3Server) (r : Request) (w : os.world)
  : os.world * Response :=
  let path := strings.TrimPrefix (URL_Path r) "/" in
  let parts := strings.SplitN path 2 in
  if (path =? "") && (Method r =? MethodGet) then
    match ListBuckets s w with
    | Failed err => (w, http_Error (Error err) StatusInternalServerError)
    | Ok buckets =>
        let bucketInfos := map BucketInfo_of buckets in
        let response := mkListAllMyBucketsResult (mkBucketsWrapper bucketInfos) in
        (w, mkResponse StatusOK [("Content-Type", "application/xml")]
                       (BucketsXML response))
    end
  else if Nat.eqb (List.length parts) 0 then
    (w, http_Error "Invalid request" StatusBadRequest)
  else
    let bucket := nth 0 parts "" in
    let key := if Nat.ltb 1 (List.length parts) then nth 1 parts "" else "" in
    if Method r =? MethodPut then
      if key =? "" then
        match CreateBucket s bucket w with
        | (w', Some err) => (w', http_Error (Error err) StatusInternalServerError)
        | (w', None) => (w', mkResponse StatusOK [] NoBody)
        end
      else
        match PutObject s bucket key (Body r) (ContentLength r) w with
        | (w', Some err) => (w', http_Error (Error err) StatusInternalServerError)
        | (w', None) => (w', mkResponse StatusOK [] NoBody)
        end
    else if Method r =? MethodGet then
      if key =? "" then
        let prefix := Query_prefix r in
        match ListObjects s bucket prefix w with
        | Failed err => (w, http_Error (Error err) StatusInternalServerError)
        | Ok objects =>
            let objectInfos := map ObjectInfo_of objects in
            let response := mkListBucketResult bucket objectInfos in
            (w, mkResponse StatusOK [("Content-Type", "application/xml")]
                           (ObjectsXML response))
        end
      else
        match GetObject s bucket key w with
        | Failed err => (w, http_Error (Error err) StatusNotFound)
        | Ok (rc, size) =>
            (w, mkResponse StatusOK [("Content-Length", Sprintf_d size)]
                           (Bytes (delivered rc)))
        end
    else if Method r =? MethodDelete then
      if key =? "" then
        match DeleteBucket s bucket w with
        | (w', Some err) => (w', http_Error (Error err) StatusInternalServerError)
        | (w', None) => (w', mkResponse StatusNoContent [] NoBody)
        end
      else
        match DeleteObject s bucket key w with
        | (w', Some err) => (w', http_Error (Error err) StatusInternalServerError)
        | (w', None) => (w', mkResponse StatusNoContent [] NoBody)
        end
    else
      (w, http_Error "Method not allowed" StatusMethodNotAllowed).

(* ================================================================== *)
(** * Vocabulary of the statements *)

(** [s] has no separator in it. *)
Fixpoint no_sep (s : string) : bool :=
  match s with
  | EmptyString => true
  | String c s' => negb (Ascii.eqb c "/") && no_sep s'
  end.

(** A name a directory entry can have: not empty, not ["."] or [".."], and
    without separator. *)
Definition valid_name (n : string) : bool :=
  negb (n =? "") && negb (n =? ".") && negb (n =? "..") && no_sep n.

(** A key in canonical form: names separated by single slashes, as
    [ListObjects] reports keys. *)
Definition canonical (key : string) : bool :=
  forallb valid_name (strings.Split key).

(** One step of a machine that reads path elements onto a stack: empty and
    ["."] elements are skipped, a name is pushed, [".."] applies [up]. *)
Definition mstep (up : list string -> list string) (st : list string)
           (e : string) : list string :=
  if (e =? "") || (e =? ".") then st
  else if e =? ".." then up st
  else e :: st.

Definition feed (up : list string -> list string) (st : list string)
           (es : list string) : list string :=
  fold_left (mstep up) es st.

(** What [filepath.Clean] does with [".."]. *)
Definition clean_up (rooted : bool) (out : list string) : list string :=
  match out with
  | top :: out' => if top =? ".." then ".." :: out else out'
  | [] => if rooted then [] else [".."]
  end.

Fixpoint distinct (l : list string) : bool :=
  match l with
  | [] => true
  | x :: r => negb (existsb (String.eqb x) r) && distinct r
  end.

(** A file system tree as the calls of the os layer build it: in every
    directory the names are valid and bound once. *)
Fixpoint well_formed (n : os.node) : bool :=
  match n with
  | os.File _ => true
  | os.Dir es =>
      distinct (map fst es)
      && (fix all (es : list (string * os.node)) : bool :=
            match es with
            | [] => true
            | (k, c) :: r => valid_name k && well_formed c && all r
            end) es
  end.

Definition well_formed_world (w : os.world) : bool :=
  forallb valid_name (os.cwd w) && well_formed (os.tree w).

(** The regular files below an entry, each with the names that lead to it
    from [rel] on and its size, in the order of a walk. *)
Fixpoint files_under (rel : list string) (n : os.node) : list (list string * Z) :=
  match n with
  | os.File data => [(rel, Z.of_nat (List.length data))]
  | os.Dir es =>
      (fix each (es : list (string * os.node)) : list (list string * Z) :=
         match es with
         | [] => []
         | (name, child) :: rest => files_under (rel ++ [name]) child ++ each rest
         end) es
  end.

(** The entries of a directory, as the nested recursion of [files_under]
    and [walk] goes through them. *)
Definition files_under_entries (rel : list string) (es : list (string * os.node))
  : list (list string * Z) :=
  flat_map (fun kv => files_under (rel ++ [fst kv]) (snd kv)) es.

(** The object [ListObjects] reports for a file. *)
Definition object_of (f : list string * Z) : Object :=
  mkObject (strings.Join (fst f)) (snd f).

(** The filter of [ListObjects]. *)
Definition matches (prefix : string) (o : Object) : bool :=
  (prefix =? "") || strings.HasPrefix (Key o) prefix.

(** What a cleaning machine keeps on its stack is never empty or ["."]. *)
Definition kept (e : string) : Prop := e <> "" /\ e <> ".".

(** A change that makes a regular file where none or a regular file was. *)
Definition makes_file (change : option os.node -> Errno + option os.node) : Prop :=
  forall o, match change o with
            | inl _ => True
            | inr None => False
            | inr (Some v) =>
                (exists d, v = os.File d)
                /\ (o = None \/ exists d0, o = Some (os.File d0))
            end.

(** The entries of the directory of a bucket, when the bucket path names a
    directory. *)
Definition bucket_entries (s : S3Server) (bucket : string) (w : os.world)
  : option (list (string * os.node)) :=
  match os.locate w (filepath.Join [root s; bucket]) with
  | Some p =>
      match os.entry_at p (os.tree w) with
      | inr (os.Dir es) => Some es
      | _ => None
      end
  | None => None
  end.

(** The keys of the regular files below the directory of a bucket: the names
    from the bucket directory down, joined by slashes. *)
Definition keys_under (es : list (string * os.node)) : list string :=
  map (fun f => strings.Join (fst f)) (files_under [] (os.Dir es)).

(** One [PutObject] after the other, up to the first that fails. *)
Fixpoint PutObjects (s : S3Server) (bucket : string)
         (items : list (string * list byte)) (w : os.world)
  : os.world * option error :=
  match items with
  | [] => (w, None)
  | (key, data) :: rest =>
      match PutObject s bucket key (NewReader data)
                      (Z.of_nat (List.length data)) w with
      | (w', Some err) => (w', Some err)
      | (w', None) => PutObjects s bucket rest w'
      end
  end.

(** The names of a key can be written below a directory: on the way there
    are only directories, as far as there is anything, and at the end there
    is nothing or a regular file. *)
Fixpoint writable (ks : list string) (n : os.node) : bool :=
  match n with
  | os.File _ => false
  | os.Dir es =>
      match ks with
      | [] => false
      | name :: rest =>
          match os.find_entry name es with
          | None => true
          | Some c =>
              match rest with
              | [] => match c with os.File _ => true | os.Dir _ => false end
              | _ :: _ => writable rest c
              end
          end
      end
  end.

(** The local variables [path], [bucket] and [key] of [ServeHTTP]. *)
Definition request_path (r : Request) : string :=
  strings.TrimPrefix (URL_Path r) "/".

Definition request_bucket (r : Request) : string :=
  nth 0 (strings.SplitN (request_path r) 2) "".

Definition request_key (r : Request) : string :=
  let parts := strings.SplitN (request_path r) 2 in
  if Nat.ltb 1 (List.length parts) then nth 1 parts "" else "".

(** [p] is [q] or above it. *)
Fixpoint is_above (p q : list string) : bool :=
  match p, q with
  | [], _ => true
  | x :: p', y :: q' => (x =? y) && is_above p' q'
  | _ :: _, [] => false
  end.

(** ** Sample worlds *)

(** A server on [/data], in a world where [NewS3Server] has made the
    directory. *)
Definition sample_server : S3Server := mkS3Server "/data".

Definition fresh_world : os.world :=
  os.mkWorld ["home"] (os.Dir [("data", os.Dir []); ("home", os.Dir [])]).

Definition hello : list byte := [x48; x65; x6c; x6c; x6f].

(** The world after [PUT /b]. *)
Definition bucket_world : os.world :=
  Eval vm_compute in fst (CreateBucket sample_server "b" fresh_world).

(** The world after [PUT /b/dir/nested.txt] as well. *)
Definition object_world : os.world :=
  Eval vm_compute in
    fst (PutObject sample_server "b" "dir/nested.txt" (NewReader hello) 5 bucket_world).

(* ================================================================== *)
(** * Strings and paths *)

Unset Implicit Arguments.

(** The path functions on the cases of the tables of the Go tests. *)
Example Clean_1 : filepath.Clean "abc//def//ghi" = "abc/def/ghi".
Proof. reflexivity. Qed.
Example Clean_2 : filepath.Clean "abc/./../def" = "def".
Proof. reflexivity. Qed.
Example Clean_3 : filepath.Clean "abc/def/../../.." = "..".
Proof. reflexivity. Qed.
Example Clean_4 : filepath.Clean "/../abc" = "/abc".
Proof. reflexivity. Qed.
Example Clean_5 : filepath.Clean "" = ".".
Proof. reflexivity. Qed.
Example Clean_6 : filepath.Clean "../../abc/" = "../../abc".
Proof. reflexivity. Qed.
Example Clean_7 : filepath.Clean "/" = "/".
Proof. reflexivity. Qed.
Example Clean_8 : filepath.Clean "abc/../../././../def" = "../../def".
Proof. reflexivity. Qed.
Example Join_1 : filepath.Join ["a"; ""; "b"] = "a/b".
Proof. reflexivity. Qed.
Example Join_2 : filepath.Join [""; ""] = "".
Proof. reflexivity. Qed.
Example Join_3 : filepath.Join ["/data"; "b"; "../c/x"] = "/data/c/x".
Proof. reflexivity. Qed.
Example Dir_1 : filepath.Dir "/foo/bar/baz.js" = "/foo/bar".
Proof. reflexivity. Qed.
Example Dir_2 : filepath.Dir "dev.txt" = ".".
Proof. reflexivity. Qed.
Example Dir_3 : filepath.Dir "/a" = "/".
Proof. reflexivity. Qed.
Example Rel_1 : filepath.Rel "/a" "/a/b/c" = Some "b/c".
Proof. reflexivity. Qed.
Example Rel_2 : filepath.Rel "a/b/c" "a/c/d" = Some "../../c/d".
Proof. reflexivity. Qed.
Example Rel_3 : filepath.Rel "/a" "a" = None.
Proof. reflexivity. Qed.
Example Rel_4 : filepath.Rel ".." "a" = None.
Proof. reflexivity. Qed.
Example Rel_5 : filepath.Rel "a/b" "a/b/." = Some ".".
Proof. reflexivity. Qed.
Example Rel_6 : filepath.Rel "." "a/b" = Some "a/b".
Proof. reflexivity. Qed.
Example Rel_7 : filepath.Rel ".." "." = None.
Proof. reflexivity. Qed.
Example Rel_8 : filepath.Rel "a/b/c/d" "a/b" = Some "../..".
Proof. reflexivity. Qed.
Example SplitN_first_slash : strings.SplitN "b/k/x" 2 = ["b"; "k/x"].
Proof. reflexivity. Qed.
Example SplitN_empty : strings.SplitN "" 2 = [""].
Proof. reflexivity. Qed.
Example TrimPrefix_1 : strings.TrimPrefix "//a" "/" = "/a".
Proof. reflexivity. Qed.

Lemma ascii_eqb_refl (c : ascii) : Ascii.eqb c c = true.
Proof. apply Ascii.eqb_eq; reflexivity. Qed.

Lemma Split_not_nil (s : string) : strings.Split s <> [].
Proof.
  destruct s as [|c s]; simpl; [discriminate|].
  destruct (Ascii.eqb c "/"); [discriminate|].
  destruct (strings.Split s); discriminate.
Qed.

Lemma append_nil_r (s : string) : (s ++ "")%string = s.
Proof. induction s; simpl; congruence. Qed.

Lemma append_assoc (a b c : string) : ((a ++ b) ++ c = a ++ b ++ c)%string.
Proof. induction a; simpl; congruence. Qed.

(** Splitting a text with a separator in the middle. *)
Lemma Split_app (a b : string) :
  strings.Split (a ++ "/" ++ b)%string = strings.Split a ++ strings.Split b.
Proof.
  change ("/" ++ b)%string with (String "/" b).
  induction a as [|c a IH]; simpl.
  - reflexivity.
  - destruct (Ascii.eqb c "/"); [now rewrite IH|].
    rewrite IH. destruct (strings.Split a) eqn:E; [|reflexivity].
    now apply Split_not_nil in E.
Qed.

Lemma Split_no_sep (s : string) : no_sep s = true -> strings.Split s = [s].
Proof.
  induction s as [|c s IH]; simpl; [reflexivity|].
  intros H. apply andb_true_iff in H as [Hc Hs].
  apply negb_true_iff in Hc. rewrite Hc, (IH Hs). reflexivity.
Qed.

Lemma Split_parts_no_sep (s : string) :
  Forall (fun e => no_sep e = true) (strings.Split s).
Proof.
  induction s as [|c s IH]; simpl.
  - repeat constructor.
  - destruct (Ascii.eqb c "/") eqn:Ec.
    + constructor; [reflexivity|assumption].
    + destruct (strings.Split s) as [|h t]; inversion IH; subst;
        constructor; simpl; try rewrite Ec; simpl; auto.
Qed.

Lemma Join_cons (e : string) (es : list string) :
  es <> [] -> strings.Join (e :: es) = (e ++ "/" ++ strings.Join es)%string.
Proof. destruct es; [congruence|reflexivity]. Qed.

Lemma Join_snoc (es : list string) (e : string) :
  es <> [] -> strings.Join (es ++ [e]) = (strings.Join es ++ "/" ++ e)%string.
Proof.
  induction es as [|x es IH]; [congruence|]. intros _.
  destruct es as [|y es].
  - reflexivity.
  - change ((x :: y :: es) ++ [e]) with (x :: ((y :: es) ++ [e])).
    rewrite Join_cons by (destruct es; discriminate).
    rewrite IH by discriminate.
    rewrite (@Join_cons x (y :: es)) by discriminate.
    now rewrite !append_assoc.
Qed.

(** Joining and splitting again gives the elements back. *)
Lemma Split_Join (es : list string) :
  es <> [] -> Forall (fun e => no_sep e = true) es ->
  strings.Split (strings.Join es) = es.
Proof.
  induction es as [|x es IH]; [congruence|]. intros _ H.
  inversion H as [|? ? Hx Hes]; subst.
  destruct es as [|y es].
  - simpl. now apply Split_no_sep.
  - rewrite Join_cons by discriminate. rewrite Split_app.
    rewrite IH by (discriminate || assumption).
    now rewrite (Split_no_sep _ Hx).
Qed.

Lemma valid_name_spec (n : string) :
  valid_name n = true <->
  n <> "" /\ n <> "." /\ n <> ".." /\ no_sep n = true.
Proof.
  unfold valid_name. rewrite !andb_true_iff, !negb_true_iff, !String.eqb_neq.
  tauto.
Qed.

Lemma mstep_name up st n : valid_name n = true -> mstep up st n = n :: st.
Proof.
  intros H. apply valid_name_spec in H as (H1 & H2 & H3 & _).
  unfold mstep. apply String.eqb_neq in H1, H2, H3. now rewrite H1, H2, H3.
Qed.

Lemma mstep_skip up st e : (e =? "") || (e =? ".") = true -> mstep up st e = st.
Proof. intros H. unfold mstep. now rewrite H. Qed.

Lemma mstep_dotdot up st : mstep up st ".." = up st.
Proof. reflexivity. Qed.

Lemma mstep_push up st e :
  (e =? "") || (e =? ".") = false -> (e =? "..") = false -> mstep up st e = e :: st.
Proof. intros H1 H2. unfold mstep. now rewrite H1, H2. Qed.

Lemma feed_cons up st e es : feed up st (e :: es) = feed up (mstep up st e) es.
Proof. reflexivity. Qed.

Lemma feed_app up st xs ys : feed up st (xs ++ ys) = feed up (feed up st xs) ys.
Proof. apply fold_left_app. Qed.

Lemma feed_names up st ns :
  forallb valid_name ns = true -> feed up st ns = rev ns ++ st.
Proof.
  revert st. induction ns as [|n ns IH]; intros st H; [reflexivity|].
  simpl in H. apply andb_true_iff in H as [Hn Hns].
  rewrite feed_cons, mstep_name by assumption.
  rewrite IH by assumption. simpl. now rewrite <- app_assoc.
Qed.

(** [filepath.Clean] and the path walk of the kernel are such machines. *)
Lemma clean_elems_feed (rooted : bool) (es out : list string) :
  filepath.clean_elems rooted out es = rev (feed (clean_up rooted) out es).
Proof.
  revert out. induction es as [|e es IH]; intros out; [reflexivity|].
  cbn [filepath.clean_elems]. rewrite feed_cons.
  destruct ((e =? "") || (e =? ".")) eqn:E1; [now rewrite mstep_skip|].
  destruct (e =? "..") eqn:E; [|now rewrite mstep_push].
  apply String.eqb_eq in E. subst e. rewrite mstep_dotdot.
  destruct out as [|top out']; simpl.
  - destruct rooted; apply IH.
  - destruct (top =? ".."); apply IH.
Qed.

Lemma namei_feed (cur comps : list string) :
  os.namei cur comps = rev (feed (@tl string) cur comps).
Proof.
  revert cur. induction comps as [|c comps IH]; intros cur; [reflexivity|].
  cbn [os.namei]. rewrite feed_cons.
  destruct ((c =? "") || (c =? ".")) eqn:E1; [now rewrite mstep_skip|].
  destruct (c =? "..") eqn:E; [|now rewrite mstep_push].
  apply String.eqb_eq in E. subst c. rewrite mstep_dotdot. apply IH.
Qed.

Lemma kept_push (e : string) :
  (e =? "") || (e =? ".") = false -> kept e.
Proof.
  intros H. apply orb_false_iff in H as [H1 H2].
  apply String.eqb_neq in H1, H2. now split.
Qed.

Lemma kept_skip (e : string) : kept e -> (e =? "") || (e =? ".") = false.
Proof.
  intros [H1 H2]. apply String.eqb_neq in H1, H2. now rewrite H1, H2.
Qed.

Lemma feed_clean_kept (rooted : bool) (es out : list string) :
  Forall kept out -> Forall kept (feed (clean_up rooted) out es).
Proof.
  revert out. induction es as [|e es IH]; intros out H; [exact H|].
  rewrite feed_cons. apply IH.
  destruct ((e =? "") || (e =? ".")) eqn:E1; [now rewrite mstep_skip|].
  destruct (e =? "..") eqn:E3.
  - apply String.eqb_eq in E3. subst e. rewrite mstep_dotdot.
    destruct out as [|top out']; simpl.
    + destruct rooted; repeat constructor; discriminate.
    + destruct (top =? "..").
      * constructor; [split; discriminate|exact H].
      * now inversion H.
  - rewrite mstep_push by assumption. constructor; [|exact H].
    now apply kept_push.
Qed.

Section Machines.

(** A second machine reads what a cleaning machine wrote.  Its [up] undoes
    the push of a name; at the root of a rooted path, where the cleaner
    drops [".."], it stays where it started. *)
Variable rooted : bool.
Variable up : list string -> list string.
Variable start : list string.
Hypothesis up_push : forall n st, n <> ".." -> up (n :: st) = st.
Hypothesis up_start : rooted = true -> up start = start.

Lemma feed_cleaned (es out : list string) :
  Forall kept out ->
  feed up start (rev (feed (clean_up rooted) out es))
  = feed up (feed up start (rev out)) es.
Proof.
  revert out. induction es as [|e es IH]; intros out Hout; [reflexivity|].
  rewrite !feed_cons.
  destruct ((e =? "") || (e =? ".")) eqn:E1.
  { rewrite !mstep_skip by assumption. now apply IH. }
  destruct (e =? "..") eqn:E3.
  - apply String.eqb_eq in E3. subst e. rewrite !mstep_dotdot.
    destruct out as [|top out']; simpl clean_up.
    + destruct rooted eqn:R.
      * rewrite IH by constructor. simpl. now rewrite up_start.
      * rewrite IH by (repeat constructor; discriminate). reflexivity.
    + destruct (top =? "..") eqn:Et.
      * rewrite IH by (constructor; [split; discriminate|exact Hout]).
        simpl rev at 1. rewrite feed_app. reflexivity.
      * inversion Hout as [|? ? K Hout']; subst.
        rewrite IH by assumption. simpl rev. rewrite feed_app.
        rewrite feed_cons. simpl feed at 3.
        rewrite mstep_push by (auto using kept_skip).
        apply String.eqb_neq in Et. now rewrite up_push.
  - rewrite mstep_push by assumption. rewrite IH.
    + simpl rev. rewrite feed_app, feed_cons. simpl feed at 3.
      now rewrite !mstep_push by assumption.
    + constructor; [|exact Hout]. now apply kept_push.
Qed.

End Machines.

Lemma feed_clean_Forall (P : string -> Prop) (rooted : bool) (es out : list string) :
  P ".." -> Forall P out -> Forall P es ->
  Forall P (feed (clean_up rooted) out es).
Proof.
  intros Pdd. revert out. induction es as [|e es IH]; intros out Hout Hes; [exact Hout|].
  inversion Hes; subst. rewrite feed_cons. apply IH; [|assumption].
  unfold mstep. destruct ((e =? "") || (e =? ".")); [assumption|].
  destruct (e =? "..").
  - destruct out as [|top out']; simpl.
    + destruct rooted; repeat constructor; assumption.
    + destruct (top =? ".."); [now constructor|now inversion Hout].
  - now constructor.
Qed.

Lemma elems_feed (s : string) :
  filepath.elems s = rev (feed (clean_up (filepath.isRooted s)) [] (strings.Split s)).
Proof. apply clean_elems_feed. Qed.

Lemma elems_no_sep (s : string) :
  Forall (fun e => no_sep e = true) (filepath.elems s).
Proof.
  rewrite elems_feed. apply Forall_rev.
  apply feed_clean_Forall; [reflexivity|constructor|apply Split_parts_no_sep].
Qed.

Lemma elems_kept (s : string) : Forall kept (filepath.elems s).
Proof.
  rewrite elems_feed. apply Forall_rev. apply feed_clean_kept. constructor.
Qed.

Lemma isRooted_append (a b : string) :
  a <> "" -> filepath.isRooted (a ++ b) = filepath.isRooted a.
Proof. destruct a; [congruence|reflexivity]. Qed.

Lemma isRooted_no_sep (e : string) :
  no_sep e = true -> filepath.isRooted e = false.
Proof.
  destruct e as [|c e]; [reflexivity|]. simpl.
  intros H. apply andb_true_iff in H as [H _]. now apply negb_true_iff in H.
Qed.

Lemma isRooted_Join (e : string) (es : list string) :
  e <> "" -> no_sep e = true -> filepath.isRooted (strings.Join (e :: es)) = false.
Proof.
  intros He Hn. destruct es as [|x es].
  - now apply isRooted_no_sep.
  - rewrite Join_cons by discriminate. rewrite isRooted_append by assumption.
    now apply isRooted_no_sep.
Qed.

Lemma Join_not_empty (e : string) (es : list string) :
  e <> "" -> strings.Join (e :: es) <> "".
Proof.
  intros He. destruct es as [|x es]; [exact He|].
  rewrite Join_cons by discriminate. destruct e; [congruence|discriminate].
Qed.

Lemma isRooted_Clean (s : string) :
  filepath.isRooted (filepath.Clean s) = filepath.isRooted s.
Proof.
  unfold filepath.Clean. destruct (filepath.isRooted s) eqn:R; [reflexivity|].
  pose proof (elems_no_sep s) as Hn. pose proof (elems_kept s) as Hk.
  destruct (filepath.elems s) as [|e es]; [reflexivity|].
  inversion Hn; inversion Hk as [|? ? [K _] ?]; subst.
  now apply isRooted_Join.
Qed.

Lemma Clean_not_empty (s : string) : filepath.Clean s <> "".
Proof.
  unfold filepath.Clean. destruct (filepath.isRooted s); [discriminate|].
  pose proof (elems_kept s) as Hk.
  destruct (filepath.elems s) as [|e es]; [discriminate|].
  inversion Hk as [|? ? [K _] ?]; subst. now apply Join_not_empty.
Qed.

(** A machine reads the same from [Clean(s)] as from the elements of it. *)
Lemma feed_Split_Clean up st (s : string) :
  feed up st (strings.Split (filepath.Clean s)) = feed up st (filepath.elems s).
Proof.
  unfold filepath.Clean.
  pose proof (elems_no_sep s) as Hn.
  destruct (filepath.isRooted s).
  - change ("/" ++ strings.Join (filepath.elems s))%string
      with ("" ++ "/" ++ strings.Join (filepath.elems s))%string.
    rewrite Split_app. simpl strings.Split at 1.
    change ([""] ++ ?l) with ("" :: l). rewrite feed_cons, mstep_skip by reflexivity.
    destruct (filepath.elems s) as [|e es]; [reflexivity|].
    now rewrite Split_Join by (discriminate || assumption).
  - destruct (filepath.elems s) as [|e es]; [reflexivity|].
    now rewrite Split_Join by (discriminate || assumption).
Qed.

Lemma clean_up_push (rooted : bool) (n : string) (st : list string) :
  n <> ".." -> clean_up rooted (n :: st) = st.
Proof. intros H. apply String.eqb_neq in H. simpl. now rewrite H. Qed.

(** [Clean] is idempotent, on the elements. *)
Lemma elems_Clean (s : string) : filepath.elems (filepath.Clean s) = filepath.elems s.
Proof.
  rewrite (elems_feed (filepath.Clean s)), isRooted_Clean, feed_Split_Clean.
  rewrite elems_feed at 1.
  rewrite (@feed_cleaned (filepath.isRooted s) (clean_up (filepath.isRooted s)) []).
  - simpl. symmetry. apply elems_feed.
  - intros. now apply clean_up_push.
  - intros ->. reflexivity.
  - constructor.
Qed.

Lemma Clean_idem (s : string) : filepath.Clean (filepath.Clean s) = filepath.Clean s.
Proof.
  unfold filepath.Clean at 1 3. now rewrite isRooted_Clean, elems_Clean.
Qed.

(** The kernel walks to the same place along [Clean(path)] as along
    [path]. *)
Lemma locate_Clean (w : os.world) (path : string) :
  path <> "" -> os.locate w (filepath.Clean path) = os.locate w path.
Proof.
  intros Hp. unfold os.locate.
  pose proof (Clean_not_empty path) as Hc.
  apply String.eqb_neq in Hp, Hc. rewrite Hp, Hc. f_equal.
  rewrite !namei_feed, isRooted_Clean, feed_Split_Clean. f_equal.
  rewrite elems_feed.
  rewrite (@feed_cleaned (filepath.isRooted path) (@tl string)).
  - reflexivity.
  - reflexivity.
  - intros ->. reflexivity.
  - constructor.
Qed.

(** Going on from a path by one more piece. *)
Lemma locate_extend (w : os.world) (X k : string) (p : list string) :
  X <> "" -> os.locate w X = Some p ->
  os.locate w (X ++ "/" ++ k) = Some (rev (feed (@tl string) (rev p) (strings.Split k))).
Proof.
  intros HX. unfold os.locate.
  assert ((X ++ "/" ++ k =? "")%string = false) as ->
      by (apply String.eqb_neq; destruct X; [congruence|discriminate]).
  apply String.eqb_neq in HX as HX'. rewrite HX'.
  rewrite isRooted_append by assumption.
  intros [= <-]. f_equal.
  rewrite !namei_feed, Split_app, feed_app, List.rev_involutive. reflexivity.
Qed.

Lemma locate_under (w : os.world) (X k : string) (p : list string) :
  X <> "" -> canonical k = true -> os.locate w X = Some p ->
  os.locate w (X ++ "/" ++ k) = Some (p ++ strings.Split k).
Proof.
  intros HX Hk Hp. rewrite (locate_extend w X k p HX Hp). f_equal.
  rewrite feed_names by exact Hk. now rewrite List.rev_app_distr, !List.rev_involutive.
Qed.

Lemma locate_slash (w : os.world) (X : string) :
  X <> "" -> os.locate w (X ++ "/" ++ "") = os.locate w X.
Proof.
  intros HX. destruct (os.locate w X) as [p|] eqn:E.
  - rewrite (locate_extend w X "" p HX E).
    change (strings.Split "") with [""].
    rewrite feed_cons, mstep_skip by reflexivity.
    change (feed (@tl string) (rev p) []) with (rev p).
    now rewrite List.rev_involutive.
  - unfold os.locate in E. apply String.eqb_neq in HX. now rewrite HX in E.
Qed.

(** The shape of [filepath.Join]: empty, or [Clean] of a text that one more
    element extends. *)
Lemma Join_shape (elem : list string) :
  (filepath.Join elem = "" /\
   forall k, filepath.Join (elem ++ [k]) = filepath.Join [k])
  \/ exists X, X <> "" /\ filepath.Join elem = filepath.Clean X /\
               forall k, filepath.Join (elem ++ [k]) = filepath.Clean (X ++ "/" ++ k).
Proof.
  induction elem as [|e rest IH].
  - left. split; [reflexivity|]. intros k. reflexivity.
  - destruct (e =? "") eqn:E.
    + simpl. rewrite E. exact IH.
    + right. exists (strings.Join (e :: rest)).
      apply String.eqb_neq in E as E'.
      split; [now apply Join_not_empty|].
      split; [simpl; now rewrite E|].
      intros k. simpl. rewrite E.
      change (e :: rest ++ [k]) with ((e :: rest) ++ [k]).
      now rewrite Join_snoc by discriminate.
Qed.

Lemma elems_extend (X n : string) :
  X <> "" -> valid_name n = true ->
  filepath.elems (X ++ "/" ++ n) = filepath.elems X ++ [n].
Proof.
  intros HX Hn. rewrite !elems_feed, isRooted_append by assumption.
  rewrite Split_app, feed_app.
  apply valid_name_spec in Hn as Hn'. destruct Hn' as (_ & _ & _ & Hs).
  rewrite (Split_no_sep _ Hs), feed_cons, mstep_name by assumption.
  reflexivity.
Qed.

(* ================================================================== *)
(** * The file system tree *)

Lemma node_induction (P : os.node -> Prop)
      (HFile : forall data, P (os.File data))
      (HDir : forall es, Forall (fun kv => P (snd kv)) es -> P (os.Dir es)) :
  forall n, P n.
Proof.
  fix IH 1. intros [data|es].
  - apply HFile.
  - apply HDir. induction es as [|[k c] es IHes]; constructor.
    + apply IH.
    + exact IHes.
Qed.

Lemma find_replace_same name v es :
  os.find_entry name es <> None ->
  os.find_entry name (os.replace_entry name v es) = Some v.
Proof.
  induction es as [|[k v0] es IH]; simpl; [congruence|].
  destruct (k =? name) eqn:E; simpl; rewrite E; auto.
Qed.

Lemma find_insert_same name v es :
  os.find_entry name es = None ->
  os.find_entry name (os.insert_entry name v es) = Some v.
Proof.
  induction es as [|[k v0] es IH]; simpl.
  - now rewrite String.eqb_refl.
  - destruct (k =? name) eqn:E; [discriminate|]. intros H.
    destruct (String.ltb name k); simpl.
    + now rewrite String.eqb_refl.
    + rewrite E. auto.
Qed.

Lemma find_set_same name v es :
  os.find_entry name (os.set_entry name v es) = Some v.
Proof.
  unfold os.set_entry. destruct (os.find_entry name es) eqn:E.
  - apply find_replace_same. congruence.
  - now apply find_insert_same.
Qed.

Lemma find_replace_other name n v es :
  n <> name ->
  os.find_entry n (os.replace_entry name v es) = os.find_entry n es.
Proof.
  intros Hn. induction es as [|[k v0] es IH]; simpl; [reflexivity|].
  destruct (k =? name) eqn:E; simpl.
  - apply String.eqb_eq in E. subst k.
    assert ((name =? n) = false) as -> by (apply String.eqb_neq; congruence).
    reflexivity.
  - now rewrite IH.
Qed.

Lemma find_insert_other name n v es :
  n <> name ->
  os.find_entry n (os.insert_entry name v es) = os.find_entry n es.
Proof.
  intros Hn. 
  assert ((name =? n) = false) as Hf by (apply String.eqb_neq; congruence).
  induction es as [|[k v0] es IH]; simpl.
  - now rewrite Hf.
  - destruct (String.ltb name k); simpl.
    + now rewrite Hf.
    + now rewrite IH.
Qed.

Lemma find_set_other name n v es :
  n <> name -> os.find_entry n (os.set_entry name v es) = os.find_entry n es.
Proof.
  intros Hn. unfold os.set_entry. destruct (os.find_entry name es).
  - now apply find_replace_other.
  - now apply find_insert_other.
Qed.



(** ** [alter] *)

(** A change that binds the name leaves the new entry at the place. *)
Lemma alter_binds at_root change p t t' :
  (forall o, change o <> inr None) ->
  os.alter at_root change p t = inr t' ->
  exists o v, change o = inr (Some v) /\ os.entry_at p t' = inr v.
Proof.
  intros Hc. revert t t'. induction p as [|name rest IH]; intros t t'; simpl.
  - discriminate.
  - destruct t as [d|es]; [discriminate|].
    destruct rest as [|x rest'].
    + destruct (change (os.find_entry name es)) as [e|[v|]] eqn:E;
        [discriminate| |now apply Hc in E].
      intros [= <-]. exists (os.find_entry name es), v. split; [exact E|].
      cbn [os.entry_at]. now rewrite find_set_same.
    + destruct (os.find_entry name es) as [c|]; [|discriminate].
      destruct (os.alter at_root change (x :: rest') c) as [e|c'] eqn:E;
        [discriminate|].
      intros [= <-]. apply IH in E as (o & v & Ho & Hv).
      exists o, v. split; [exact Ho|].
      change (os.entry_at (name :: x :: rest') (os.Dir (os.set_entry name c' es)))
        with (match os.find_entry name (os.set_entry name c' es) with
              | None => inl ENOENT
              | Some c0 => os.entry_at (x :: rest') c0
              end).
      now rewrite find_set_same.
Qed.

(** A change of an entry that is there. *)
Lemma alter_present at_root change p t n v :
  p <> [] -> os.entry_at p t = inr n -> change (Some n) = inr (Some v) ->
  exists t', os.alter at_root change p t = inr t' /\ os.entry_at p t' = inr v.
Proof.
  intros Hp. revert t. induction p as [|name rest IH]; intros t; [congruence|].
  simpl. destruct t as [d|es]; [discriminate|].
  destruct (os.find_entry name es) as [c|] eqn:F; [|discriminate].
  destruct rest as [|x rest'].
  - simpl. intros [= ->] Hv. rewrite Hv. eexists. split; [reflexivity|].
    cbn [os.entry_at]. now rewrite find_set_same.
  - intros Hn Hv. destruct (IH ltac:(discriminate) c Hn Hv) as (c' & Ha & He).
    rewrite Ha. eexists. split; [reflexivity|].
    cbn [os.entry_at]. now rewrite find_set_same.
Qed.

(** A change that refuses what is at the place, or the place not being
    there for a change that refuses to make it, is an error. *)
Lemma alter_refused at_root change p t :
  match os.entry_at p t with
  | inr n => exists e, change (Some n) = inl e
  | inl _ => exists e, change None = inl e
  end ->
  exists e, os.alter at_root change p t = inl e.
Proof.
  revert t. induction p as [|name rest IH]; intros t; simpl.
  - eauto.
  - destruct t as [d|es]; [eauto|].
    destruct rest as [|x rest'].
    + destruct (os.find_entry name es) as [c|]; simpl;
        intros [e ->]; eauto.
    + destruct (os.find_entry name es) as [c|]; [|eauto].
      intros H. apply IH in H as [e ->]. eauto.
Qed.

(** Altering below a place that is there alters the entry at that place. *)
Lemma alter_under at_root change p ks t t' sub :
  ks <> [] -> os.entry_at p t = inr sub ->
  os.alter at_root change (p ++ ks) t = inr t' ->
  exists sub', os.alter at_root change ks sub = inr sub'
               /\ os.entry_at p t' = inr sub'.
Proof.
  intros Hks. revert t t'. induction p as [|name rest IH]; intros t t'.
  - simpl. intros [= ->] H. eauto.
  - simpl app. cbn [os.entry_at os.alter].
    destruct t as [d|es]; [discriminate|].
    destruct (os.find_entry name es) as [c|] eqn:F; [|discriminate].
    intros Hsub.
    assert (exists x l, rest ++ ks = x :: l) as (x & l & E).
    { destruct (rest ++ ks) eqn:E; [|eauto].
      apply app_eq_nil in E as [_ E]. congruence. }
    rewrite E.
    destruct (os.alter at_root change (x :: l) c) as [e|c'] eqn:A; [discriminate|].
    intros [= <-]. rewrite <- E in A.
    destruct (IH c c' Hsub A) as (sub' & H1 & H2).
    exists sub'. split; [exact H1|].
    cbn [os.entry_at]. now rewrite find_set_same.
Qed.

(** ** [mkdir_all] *)




(* ================================================================== *)
(** * The calls of the os layer *)

Lemma locate_cwd w w' path :
  os.cwd w' = os.cwd w -> os.locate w' path = os.locate w path.
Proof. intros H. unfold os.locate. now rewrite H. Qed.

Lemma MkdirAll_ok path w w' :
  os.MkdirAll path w = (w', None) ->
  os.cwd w' = os.cwd w /\
  exists p, os.locate w path = Some p /\ os.mkdir_all p (os.tree w) = inr (os.tree w').
Proof.
  unfold os.MkdirAll. destruct (os.locate w path) as [p|]; [|discriminate].
  destruct (os.mkdir_all p (os.tree w)) as [e|t] eqn:M; [discriminate|].
  intros [= <-]. simpl. eauto.
Qed.


Lemma Create_ok path w w' f :
  os.Create path w = (w', Ok f) ->
  os.cwd w' = os.cwd w /\
  exists p, os.locate w path = Some p /\ f = os.mkFile path p /\
            os.alter EISDIR os.truncate p (os.tree w) = inr (os.tree w').
Proof.
  unfold os.Create. destruct (os.locate w path) as [p|]; [|discriminate].
  destruct (os.alter EISDIR os.truncate p (os.tree w)) as [e|t] eqn:A; [discriminate|].
  intros [= <- <-]. simpl. eauto 6.
Qed.

Lemma Create_failed path w w' e :
  os.Create path w = (w', Failed e) -> w' = w.
Proof.
  unfold os.Create. destruct (os.locate w path) as [p|]; [|congruence].
  destruct (os.alter EISDIR os.truncate p (os.tree w)); congruence.
Qed.

Lemma truncate_binds o : os.truncate o <> inr None.
Proof. destruct o as [[d|es]|]; discriminate. Qed.

Lemma truncate_inv o v : os.truncate o = inr (Some v) -> v = os.File [].
Proof. destruct o as [[d|es]|]; simpl; congruence. Qed.

(** A file just created is there, and empty. *)
Lemma Create_empty path w w' f :
  os.Create path w = (w', Ok f) ->
  os.entry_at (os.file_place f) (os.tree w') = inr (os.File []) /\ os.file_place f <> [].
Proof.
  intros H. apply Create_ok in H as (_ & p & _ & -> & A). simpl.
  split.
  - apply alter_binds in A as (o & v & Ho & Hv); [|apply truncate_binds].
    apply truncate_inv in Ho. now subst v.
  - destruct p; [discriminate|discriminate].
Qed.

(** Copying into a file just created leaves what the reader delivered. *)
Lemma Copy_to_written f reader w :
  os.entry_at (os.file_place f) (os.tree w) = inr (os.File []) ->
  os.file_place f <> [] ->
  exists w', os.Copy_to f reader w = (w', read_error reader)
             /\ os.cwd w' = os.cwd w
             /\ os.alter EISDIR (os.append (delivered reader)) (os.file_place f) (os.tree w)
                = inr (os.tree w')
             /\ os.entry_at (os.file_place f) (os.tree w')
                = inr (os.File (delivered reader)).
Proof.
  intros He Hp. unfold os.Copy_to.
  destruct (@alter_present EISDIR (os.append (delivered reader)) _ _ _
                           (os.File (delivered reader)) Hp He eq_refl)
    as (t' & A & E).
  rewrite A. eexists. repeat split; simpl; eauto.
Qed.

(** What a successful [PutObject] went through. *)
Lemma PutObject_ok s bucket key reader size w w' :
  PutObject s bucket key reader size w = (w', None) ->
  exists w1 w2 p,
    os.MkdirAll (filepath.Dir (filepath.Join [root s; bucket; key])) w = (w1, None)
    /\ os.locate w (filepath.Join [root s; bucket; key]) = Some p
    /\ os.alter EISDIR os.truncate p (os.tree w1) = inr (os.tree w2)
    /\ os.alter EISDIR (os.append (delivered reader)) p (os.tree w2) = inr (os.tree w')
    /\ os.entry_at p (os.tree w') = inr (os.File (delivered reader))
    /\ os.cwd w' = os.cwd w
    /\ read_error reader = None.
Proof.
  unfold PutObject. set (objectPath := filepath.Join [root s; bucket; key]).
  intros H.
  destruct (os.MkdirAll (filepath.Dir objectPath) w) as [w1 [e|]] eqn:M; [discriminate|].
  destruct (os.Create objectPath w1) as [w2 [f|e]] eqn:C; [|discriminate].
  pose proof (Create_empty _ _ _ _ C) as [He Hp].
  destruct (Copy_to_written f reader _ He Hp) as (w3 & Hc & Hcwd & Ha & Hw).
  rewrite Hc in H.
  apply MkdirAll_ok in M as M'. destruct M' as (Hcwd1 & _).
  apply Create_ok in C as (Hcwd2 & p & Hl & -> & A). simpl in *.
  destruct (read_error reader) eqn:R; [discriminate|].
  injection H as <-.
  exists w1, w2, p. repeat split; auto.
  - rewrite <- Hl. symmetry. now apply locate_cwd.
  - congruence.
Qed.

Lemma Stat_entry path w p n :
  os.locate w path = Some p -> os.entry_at p (os.tree w) = inr n ->
  os.Stat path w = Ok (os.info_of (filepath.Base path) n).
Proof. intros Hl He. unfold os.Stat. now rewrite Hl, He. Qed.

(** What [GetObject] answers for a regular file. *)
Lemma GetObject_file s bucket key w p data :
  os.locate w (filepath.Join [root s; bucket; key]) = Some p ->
  os.entry_at p (os.tree w) = inr (os.File data) ->
  GetObject s bucket key w = Ok (NewReader data, Z.of_nat (List.length data)).
Proof.
  intros Hl He. unfold GetObject. rewrite (Stat_entry _ _ _ _ Hl He).
  unfold os.Open. now rewrite Hl, He.
Qed.

(** What was put is what is got. *)
Lemma Put_then_Get s bucket key reader size w w' :
  PutObject s bucket key reader size w = (w', None) ->
  GetObject s bucket key w'
  = Ok (NewReader (delivered reader), Z.of_nat (List.length (delivered reader))).
Proof.
  intros H. apply PutObject_ok in H as (w1 & w2 & p & _ & Hl & _ & _ & He & Hcwd & _).
  apply GetObject_file with (p := p); [|exact He].
  rewrite <- Hl. now apply locate_cwd.
Qed.




(** [Remove] of what is not there, or of a directory with entries, fails and
    changes nothing. *)
Lemma Remove_refused path w :
  (match os.locate w path with
   | None => True
   | Some p =>
       match os.entry_at p (os.tree w) with
       | inr (os.Dir (_ :: _)) | inl _ => True
       | _ => False
       end
   end) ->
  exists e, os.Remove path w = (w, Some (PathError "remove" path e)).
Proof.
  unfold os.Remove. destruct (os.locate w path) as [p|]; [|eauto].
  intros H.
  destruct (@alter_refused EBUSY os.unlink p (os.tree w)) as [e ->]; [|eauto].
  destruct (os.entry_at p (os.tree w)) as [e|[d|[|kv es]]]; simpl; try tauto; eauto.
Qed.

Lemma ReadDir_entries path w infos :
  os.ReadDir path w = Ok infos ->
  exists p es, os.locate w path = Some p
               /\ os.entry_at p (os.tree w) = inr (os.Dir es)
               /\ infos = map (fun kv => os.info_of (fst kv) (snd kv)) es.
Proof.
  unfold os.ReadDir. destruct (os.locate w path) as [p|]; [|discriminate].
  destruct (os.entry_at p (os.tree w)) as [e|[d|es]] eqn:E; try discriminate.
  intros [= <-]. exists p, es. auto.
Qed.

Lemma Stat_failed path w e :
  os.Stat path w = Failed e ->
  match os.locate w path with
  | None => True
  | Some p => exists e', os.entry_at p (os.tree w) = inl e'
  end.
Proof.
  unfold os.Stat. destruct (os.locate w path) as [p|]; [|trivial].
  destruct (os.entry_at p (os.tree w)); [eauto|discriminate].
Qed.

(* ================================================================== *)
(** * The walk of [ListObjects] *)

Lemma filter_snoc (A : Type) (f : A -> bool) (l : list A) (x : A) :
  filter f (l ++ [x]) = filter f l ++ (if f x then [x] else []).
Proof. rewrite filter_app. reflexivity. Qed.

(** The function of the walk with a prefix does what the function without
    does, less the objects the prefix excludes. *)
Lemma listWalkFn_filter bucketPath prefix path info err acc acc' e :
  listWalkFn bucketPath "" path info err acc = (acc', e) ->
  listWalkFn bucketPath prefix path info err (filter (matches prefix) acc)
  = (filter (matches prefix) acc', e).
Proof.
  unfold listWalkFn. destruct err as [e0|]; [now intros [= <- <-]|].
  destruct info as [info|]; [|now intros [= <- <-]].
  destruct (os.IsDir info); [now intros [= <- <-]|].
  destruct (filepath.Rel bucketPath path) as [relPath|]; [|now intros [= <- <-]].
  simpl. intros [= <- <-]. rewrite filter_snoc.
  change (matches prefix (mkObject (filepath.ToSlash relPath) (os.Size info)))
    with ((prefix =? "") || strings.HasPrefix (filepath.ToSlash relPath) prefix).
  destruct ((prefix =? "") || strings.HasPrefix (filepath.ToSlash relPath) prefix);
    [reflexivity|]. now rewrite app_nil_r.
Qed.

Lemma walk_filter bucketPath prefix n :
  forall path acc acc' e,
    walk path n (listWalkFn bucketPath "") acc = (acc', e) ->
    walk path n (listWalkFn bucketPath prefix) (filter (matches prefix) acc)
    = (filter (matches prefix) acc', e).
Proof.
  induction n as [data|es IH] using node_induction; intros path acc acc' e.
  - cbn [walk]. apply listWalkFn_filter.
  - cbn [walk].
    destruct (listWalkFn bucketPath "" path
                (Some (os.info_of (filepath.Base path) (os.Dir es))) None acc)
      as [acc1 e1] eqn:F1.
    rewrite (listWalkFn_filter _ prefix _ _ _ _ _ _ F1).
    destruct e1 as [e1|]; [now intros [= <- <-]|].
    clear F1. revert acc1.
    induction IH as [|[name child] rest Hc _ IHrest]; intros acc1.
    + now intros [= <- <-].
    + simpl in Hc.
      destruct (walk (filepath.Join [path; name]) child
                     (listWalkFn bucketPath "") acc1) as [acc2 e2] eqn:W.
      rewrite (Hc _ _ _ _ W).
      destruct e2 as [e2|]; [now intros [= <- <-]|].
      apply IHrest.
Qed.

(** [ListObjects] with a prefix, from [ListObjects] without. *)
Lemma ListObjects_filter s bucket prefix w :
  ListObjects s bucket prefix w
  = match ListObjects s bucket "" w with
    | Ok all => Ok (filter (matches prefix) all)
    | Failed e => Failed e
    end.
Proof.
  unfold ListObjects, Walk.
  set (bucketPath := filepath.Join [root s; bucket]).
  destruct (os.locate w bucketPath) as [p|].
  - destruct (os.entry_at p (os.tree w)) as [e|n].
    + reflexivity.
    + destruct (walk bucketPath n (listWalkFn bucketPath "") []) as [all e] eqn:W.
      apply walk_filter with (prefix := prefix) in W. simpl in W. rewrite W.
      now destruct e.
  - reflexivity.
Qed.

Lemma strip_common_app (b r : list string) :
  filepath.strip_common b (b ++ r) = ([], r).
Proof.
  induction b as [|x b IH]; simpl; [now destruct r|].
  now rewrite String.eqb_refl.
Qed.

(** [Rel] of a path below the base: the elements below. *)
Lemma Rel_under (base path : string) (rel : list string) :
  rel <> [] ->
  filepath.elems path = filepath.elems base ++ rel ->
  filepath.isRooted path = filepath.isRooted base ->
  filepath.Rel base path = Some (strings.Join rel).
Proof.
  intros Hrel He Hr. unfold filepath.Rel.
  assert (forall x, filepath.Clean path = filepath.Clean x ->
                    filepath.elems path = filepath.elems x) as Hsame.
  { intros x E. apply (f_equal filepath.elems) in E. now rewrite !elems_Clean in E. }
  destruct (filepath.Clean path =? filepath.Clean base) eqn:E.
  - apply String.eqb_eq in E. apply Hsame in E. rewrite He in E.
    rewrite <- (app_nil_r (filepath.elems base)) in E at 2.
    apply app_inv_head in E. congruence.
  - rewrite !isRooted_Clean, Hr, Bool.eqb_reflx. simpl.
    destruct (filepath.Clean path =? ".") eqn:D.
    + apply String.eqb_eq in D. apply (Hsame ".") in D. rewrite He in D.
      destruct (filepath.elems base); destruct rel; discriminate || congruence.
    + rewrite He, strip_common_app. reflexivity.
Qed.

Lemma filepath_Join2 (path name : string) :
  path <> "" -> filepath.Join [path; name] = filepath.Clean (path ++ "/" ++ name).
Proof.
  intros H. apply String.eqb_neq in H. simpl. now rewrite H.
Qed.

Lemma files_under_Dir rel es :
  files_under rel (os.Dir es) = files_under_entries rel es.
Proof.
  unfold files_under_entries. induction es as [|[k c] es IH]; [reflexivity|].
  simpl in *. now rewrite IH.
Qed.

Lemma well_formed_Dir es :
  well_formed (os.Dir es) = true <->
  distinct (map fst es) = true /\
  Forall (fun kv => valid_name (fst kv) = true /\ well_formed (snd kv) = true) es.
Proof.
  cbn [well_formed]. rewrite andb_true_iff.
  apply and_iff_compat_l.
  induction es as [|[k c] es IH].
  - split; [constructor|reflexivity].
  - rewrite !andb_true_iff, IH. split.
    + intros [[H1 H2] H3]. now constructor.
    + intros H. inversion H as [|? ? [H1 H2] H3]; subst. auto.
Qed.

(** The walk from a place below the bucket path reports the regular files
    there, each under the key made of its names. *)
Lemma walk_files bucketPath n :
  forall rel path acc,
    well_formed n = true ->
    path <> "" ->
    filepath.elems path = filepath.elems bucketPath ++ rel ->
    filepath.isRooted path = filepath.isRooted bucketPath ->
    (rel = [] -> exists es, n = os.Dir es) ->
    walk path n (listWalkFn bucketPath "") acc
    = (acc ++ map object_of (files_under rel n), None).
Proof.
  induction n as [data|es IH] using node_induction;
    intros rel path acc Hwf Hpath He Hr Htop.
  - cbn [walk listWalkFn os.info_of os.IsDir].
    assert (rel <> []) as Hrel.
    { intros ->. destruct (Htop eq_refl) as [es E]. discriminate. }
    rewrite (Rel_under _ _ _ Hrel He Hr). reflexivity.
  - cbn [walk listWalkFn os.info_of os.IsDir].
    rewrite files_under_Dir.
    apply well_formed_Dir in Hwf as [_ Hwf].
    clear Htop. revert acc.
    induction IH as [|[name child] rest Hc _ IHrest]; intros acc.
    + simpl. now rewrite app_nil_r.
    + inversion Hwf as [|? ? [Hn Hw] Hwf']; subst. simpl in Hn, Hw, Hc.
      rewrite filepath_Join2 by assumption.
      rewrite (Hc (rel ++ [name])).
      * rewrite (IHrest Hwf'). unfold files_under_entries. simpl.
        now rewrite map_app, app_assoc.
      * exact Hw.
      * apply Clean_not_empty.
      * rewrite elems_Clean, elems_extend, He by assumption.
        now rewrite app_assoc.
      * rewrite isRooted_Clean, isRooted_append by assumption. exact Hr.
      * intros E. now apply app_eq_nil in E as [_ E].
Qed.

Lemma well_formed_entry_at p : forall t sub,
  well_formed t = true -> os.entry_at p t = inr sub -> well_formed sub = true.
Proof.
  induction p as [|name rest IH]; intros t sub Hwf; simpl.
  - now intros [= <-].
  - destruct t as [d|es]; [discriminate|].
    destruct (os.find_entry name es) as [c|] eqn:F; [|discriminate].
    apply IH. apply well_formed_Dir in Hwf as [_ Hwf].
    clear IH. induction es as [|[k v] es IHes]; [discriminate|].
    inversion Hwf as [|? ? [_ Hw] Hwf']; subst. simpl in F.
    destruct (k =? name); [now injection F as <-|auto].
Qed.

(** [ListObjects] without prefix reports the regular files below the bucket
    directory. *)
Lemma ListObjects_files s bucket w p es :
  well_formed (os.tree w) = true ->
  os.locate w (filepath.Join [root s; bucket]) = Some p ->
  os.entry_at p (os.tree w) = inr (os.Dir es) ->
  ListObjects s bucket "" w = Ok (map object_of (files_under [] (os.Dir es))).
Proof.
  intros Hwf Hl He. unfold ListObjects, Walk. rewrite Hl, He.
  rewrite (walk_files _ _ [] _ []).
  - reflexivity.
  - eapply well_formed_entry_at; eassumption.
  - intros E. rewrite E in Hl. discriminate.
  - now rewrite app_nil_r.
  - reflexivity.
  - eauto.
Qed.

(* ================================================================== *)
(** * What the calls do to the regular files *)

Lemma files_under_chain p : forall rel, files_under rel (os.chain p) = [].
Proof.
  induction p as [|name rest IH]; intros rel; [reflexivity|].
  simpl. now rewrite IH.
Qed.

Lemma files_entries_cons rel k c es :
  files_under_entries rel ((k, c) :: es)
  = files_under (rel ++ [k]) c ++ files_under_entries rel es.
Proof. reflexivity. Qed.

Lemma files_entries_replace rel name c c' es :
  os.find_entry name es = Some c ->
  files_under (rel ++ [name]) c' = files_under (rel ++ [name]) c ->
  files_under_entries rel (os.replace_entry name c' es) = files_under_entries rel es.
Proof.
  intros F H. induction es as [|[k v] es IH]; [reflexivity|].
  simpl in F |- *. destruct (k =? name) eqn:E.
  - apply String.eqb_eq in E. subst k. injection F as ->.
    now rewrite !files_entries_cons, H.
  - now rewrite !files_entries_cons, IH.
Qed.

Lemma files_entries_insert rel name v es :
  files_under (rel ++ [name]) v = [] ->
  files_under_entries rel (os.insert_entry name v es) = files_under_entries rel es.
Proof.
  intros H. induction es as [|[k v0] es IH]; simpl.
  - unfold files_under_entries. simpl. now rewrite H.
  - destruct (String.ltb name k).
    + now rewrite files_entries_cons, H.
    + now rewrite !files_entries_cons, IH.
Qed.

(** [MkdirAll] keeps every entry that is there, with the regular files
    below it; a directory stays a directory. *)
Lemma mkdir_all_keeps d : forall t t' p sub,
  os.mkdir_all d t = inr t' -> os.entry_at p t = inr sub ->
  exists sub', os.entry_at p t' = inr sub'
               /\ (forall rel, files_under rel sub' = files_under rel sub)
               /\ (forall es, sub = os.Dir es -> exists es', sub' = os.Dir es').
Proof.
  induction d as [|name rest IH]; intros t t' p sub.
  - destruct t as [data|es]; simpl; [discriminate|]. intros [= <-] H. eauto.
  - destruct t as [data|es]; simpl; [discriminate|].
    destruct (os.find_entry name es) as [c|] eqn:F.
    + destruct (os.mkdir_all rest c) as [e|c'] eqn:M; [discriminate|].
      intros [= <-]. destruct p as [|n prest].
      * simpl. intros [= <-]. eexists. split; [reflexivity|]. split; [|eauto].
        intros rel. rewrite !files_under_Dir. unfold os.set_entry. rewrite F.
        apply files_entries_replace with (c := c); [exact F|].
        destruct (IH c c' [] c M eq_refl) as (sub' & E & Hf & _).
        injection E as <-. apply Hf.
      * cbn [os.entry_at]. destruct (String.eqb_spec n name) as [->|Hn].
        -- rewrite F, find_set_same. intros H. exact (IH c c' prest sub M H).
        -- rewrite find_set_other by assumption.
           destruct (os.find_entry n es) as [c0|]; [|discriminate].
           intros H. exists sub. eauto.
    + intros [= <-]. destruct p as [|n prest].
      * simpl. intros [= <-]. eexists. split; [reflexivity|]. split; [|eauto].
        intros rel. rewrite !files_under_Dir. unfold os.set_entry. rewrite F.
        apply files_entries_insert. apply files_under_chain.
      * cbn [os.entry_at]. destruct (String.eqb_spec n name) as [->|Hn].
        -- rewrite F. discriminate.
        -- rewrite find_set_other by assumption.
           destruct (os.find_entry n es) as [c0|]; [|discriminate].
           intros H. exists sub. eauto.
Qed.

Lemma places_entries_insert rel name v es q :
  In q (map fst (files_under_entries rel (os.insert_entry name v es)))
  <-> In q (map fst (files_under (rel ++ [name]) v))
      \/ In q (map fst (files_under_entries rel es)).
Proof.
  induction es as [|[k v0] es IH]; simpl.
  - unfold files_under_entries. simpl. rewrite app_nil_r. tauto.
  - destruct (String.ltb name k).
    + rewrite files_entries_cons, map_app, in_app_iff. tauto.
    + rewrite !files_entries_cons, !map_app, !in_app_iff, IH. tauto.
Qed.

Lemma places_entries_replace rel name c c' es (Q : list string -> Prop) :
  os.find_entry name es = Some c ->
  (forall q, In q (map fst (files_under (rel ++ [name]) c'))
             <-> Q q \/ In q (map fst (files_under (rel ++ [name]) c))) ->
  forall q, In q (map fst (files_under_entries rel (os.replace_entry name c' es)))
            <-> Q q \/ In q (map fst (files_under_entries rel es)).
Proof.
  intros F H q. induction es as [|[k v] es IH]; [discriminate|].
  simpl in F |- *. destruct (k =? name) eqn:E.
  - apply String.eqb_eq in E. subst k. injection F as ->.
    rewrite !files_entries_cons, !map_app, !in_app_iff, H. tauto.
  - rewrite !files_entries_cons, !map_app, !in_app_iff, (IH F). tauto.
Qed.

Lemma truncate_makes_file : makes_file os.truncate.
Proof. intros [[d|es]|]; simpl; eauto. Qed.

Lemma append_makes_file data : makes_file (os.append data).
Proof. intros [[d|es]|]; simpl; eauto. Qed.

(** Such a change adds the place to the regular files, and nothing else. *)
Lemma alter_places at_root change (Hc : makes_file change) ks :
  forall t t' rel q,
    os.alter at_root change ks t = inr t' ->
    In q (map fst (files_under rel t'))
    <-> q = rel ++ ks \/ In q (map fst (files_under rel t)).
Proof.
  induction ks as [|name rest IH]; intros t t' rel q; [discriminate|].
  cbn [os.alter]. destruct t as [data|es]; [discriminate|].
  destruct rest as [|x rest'].
  - pose proof (Hc (os.find_entry name es)) as Hm.
    destruct (change (os.find_entry name es)) as [e|[v|]]; [discriminate| |tauto].
    destruct Hm as [[d ->] Ho]. intros [= <-].
    rewrite !files_under_Dir. unfold os.set_entry.
    destruct Ho as [Ho|[d0 Ho]]; rewrite Ho.
    + rewrite places_entries_insert. simpl. intuition (subst; auto).
    + apply (places_entries_replace rel name (os.File d0) (os.File d) es
                                    (fun q => q = rel ++ [name]) Ho).
      intros q'. simpl. intuition (subst; auto).
  - destruct (os.find_entry name es) as [c|] eqn:F; [|discriminate].
    destruct (os.alter at_root change (x :: rest') c) as [e|c'] eqn:A; [discriminate|].
    intros [= <-]. rewrite !files_under_Dir. unfold os.set_entry. rewrite F.
    apply (places_entries_replace rel name c c' es
                                  (fun q => q = rel ++ name :: x :: rest') F).
    intros q'. rewrite (IH c c' (rel ++ [name]) q' A).
    now rewrite <- app_assoc.
Qed.

Lemma alter_Dir at_root change ks es t' :
  os.alter at_root change ks (os.Dir es) = inr t' -> exists es', t' = os.Dir es'.
Proof.
  destruct ks as [|name rest]; cbn [os.alter]; [discriminate|].
  destruct rest as [|x rest'].
  - destruct (change (os.find_entry name es)) as [e|[v|]]; [discriminate| |];
      intros [= <-]; eauto.
  - destruct (os.find_entry name es) as [c|]; [|discriminate].
    destruct (os.alter at_root change (x :: rest') c); [discriminate|].
    intros [= <-]. eauto.
Qed.

(* ================================================================== *)
(** * The calls keep the tree well formed *)

Lemma find_entry_names name es :
  os.find_entry name es = None <-> existsb (String.eqb name) (map fst es) = false.
Proof.
  induction es as [|[k v] es IH]; simpl; [tauto|].
  rewrite (String.eqb_sym name k). destruct (k =? name); simpl; [split; discriminate|exact IH].
Qed.

Lemma names_replace name v es :
  map fst (os.replace_entry name v es) = map fst es.
Proof.
  induction es as [|[k v0] es IH]; simpl; [reflexivity|].
  destruct (k =? name); simpl; congruence.
Qed.

Lemma existsb_names_insert k name v es :
  existsb (String.eqb k) (map fst (os.insert_entry name v es))
  = (k =? name) || existsb (String.eqb k) (map fst es).
Proof.
  induction es as [|[k0 v0] es IH]; simpl; [reflexivity|].
  destruct (String.ltb name k0); simpl; [reflexivity|].
  rewrite IH. now destruct (k =? name), (k =? k0).
Qed.

Lemma distinct_insert name v es :
  os.find_entry name es = None -> distinct (map fst es) = true ->
  distinct (map fst (os.insert_entry name v es)) = true.
Proof.
  induction es as [|[k v0] es IH]; simpl; [reflexivity|].
  destruct (k =? name) eqn:E; [discriminate|]. intros F H.
  apply andb_true_iff in H as [H1 H2].
  destruct (String.ltb name k); simpl.
  - rewrite (String.eqb_sym name k), E. simpl.
    apply find_entry_names in F. rewrite F. simpl. now rewrite H1, H2.
  - rewrite existsb_names_insert, E. simpl. rewrite H1. simpl. auto.
Qed.

Lemma existsb_names_remove k name es :
  existsb (String.eqb k) (map fst es) = false ->
  existsb (String.eqb k) (map fst (os.remove_entry name es)) = false.
Proof.
  induction es as [|[k0 v0] es IH]; simpl; [reflexivity|].
  intros H. apply orb_false_iff in H as [H1 H2].
  destruct (k0 =? name); simpl; [exact H2|]. now rewrite H1, IH.
Qed.

Lemma distinct_remove name es :
  distinct (map fst es) = true -> distinct (map fst (os.remove_entry name es)) = true.
Proof.
  induction es as [|[k v0] es IH]; simpl; [reflexivity|].
  intros H. apply andb_true_iff in H as [H1 H2].
  destruct (k =? name); simpl; [exact H2|].
  apply negb_true_iff in H1. now rewrite existsb_names_remove, IH.
Qed.

Lemma well_formed_set name v es :
  valid_name name = true -> well_formed v = true ->
  well_formed (os.Dir es) = true ->
  well_formed (os.Dir (os.set_entry name v es)) = true.
Proof.
  intros Hn Hv Hwf. apply well_formed_Dir in Hwf as [Hd Hf].
  apply well_formed_Dir. unfold os.set_entry.
  destruct (os.find_entry name es) as [c|] eqn:F.
  - split; [now rewrite names_replace|].
    clear Hd F. induction es as [|[k v0] es IH]; simpl; [constructor|].
    inversion Hf as [|? ? [H1 H2] Hf']; subst.
    destruct (k =? name); constructor; auto.
  - split; [now apply distinct_insert|].
    clear Hd F. induction es as [|[k v0] es IH]; simpl.
    + repeat constructor; assumption.
    + inversion Hf as [|? ? [H1 H2] Hf']; subst.
      destruct (String.ltb name k); constructor; auto.
Qed.

Lemma well_formed_remove name es :
  well_formed (os.Dir es) = true ->
  well_formed (os.Dir (os.remove_entry name es)) = true.
Proof.
  intros Hwf. apply well_formed_Dir in Hwf as [Hd Hf].
  apply well_formed_Dir. split; [now apply distinct_remove|].
  clear Hd. induction es as [|[k v0] es IH]; simpl; [constructor|].
  inversion Hf as [|? ? [H1 H2] Hf']; subst.
  destruct (k =? name); [assumption|]. constructor; auto.
Qed.

Lemma well_formed_find name es c :
  well_formed (os.Dir es) = true -> os.find_entry name es = Some c ->
  well_formed c = true.
Proof.
  intros Hwf F.
  apply (well_formed_entry_at [name] (os.Dir es) c Hwf). simpl. now rewrite F.
Qed.

Lemma well_formed_chain p :
  forallb valid_name p = true -> well_formed (os.chain p) = true.
Proof.
  induction p as [|name rest IH]; [reflexivity|].
  simpl. intros H. apply andb_true_iff in H as [H1 H2].
  now rewrite H1, (IH H2).
Qed.

Lemma well_formed_mkdir_all d : forall t t',
  forallb valid_name d = true -> well_formed t = true ->
  os.mkdir_all d t = inr t' -> well_formed t' = true.
Proof.
  induction d as [|name rest IH]; intros t t' Hd Hwf.
  - destruct t; simpl; [discriminate|]. now intros [= <-].
  - destruct t as [data|es]; simpl; [discriminate|].
    simpl in Hd. apply andb_true_iff in Hd as [Hn Hrest].
    destruct (os.find_entry name es) as [c|] eqn:F.
    + destruct (os.mkdir_all rest c) as [e|c'] eqn:M; [discriminate|].
      intros [= <-]. apply well_formed_set; auto.
      apply (IH c c' Hrest); [|exact M]. eapply well_formed_find; eassumption.
    + intros [= <-]. apply well_formed_set; auto. now apply well_formed_chain.
Qed.

Lemma well_formed_alter at_root change p : forall t t',
  (forall o v, change o = inr (Some v) -> well_formed v = true) ->
  forallb valid_name p = true -> well_formed t = true ->
  os.alter at_root change p t = inr t' -> well_formed t' = true.
Proof.
  intros t t' Hc. revert t t'.
  induction p as [|name rest IH]; intros t t' Hp Hwf; [discriminate|].
  cbn [os.alter]. destruct t as [data|es]; [discriminate|].
  simpl in Hp. apply andb_true_iff in Hp as [Hn Hrest].
  destruct rest as [|x rest'].
  - destruct (change (os.find_entry name es)) as [e|[v|]] eqn:E; [discriminate| |].
    + intros [= <-]. apply well_formed_set; eauto.
    + intros [= <-]. now apply well_formed_remove.
  - destruct (os.find_entry name es) as [c|] eqn:F; [|discriminate].
    destruct (os.alter at_root change (x :: rest') c) as [e|c'] eqn:A; [discriminate|].
    intros [= <-]. apply well_formed_set; auto.
    apply (IH c c' Hrest); [|exact A]. eapply well_formed_find; eassumption.
Qed.

(** The kernel walks to valid names. *)
Lemma feed_tl_valid comps : forall st,
  forallb valid_name st = true ->
  Forall (fun e => no_sep e = true) comps ->
  forallb valid_name (feed (@tl string) st comps) = true.
Proof.
  induction comps as [|c comps IH]; intros st Hst Hc; [exact Hst|].
  inversion Hc; subst. rewrite feed_cons. apply IH; [|assumption].
  unfold mstep. destruct (c =? "") eqn:E1; [exact Hst|].
  destruct (c =? ".") eqn:E2; [exact Hst|]. simpl.
  destruct (c =? "..") eqn:E3.
  - destruct st; [reflexivity|]. simpl in Hst.
    now apply andb_true_iff in Hst as [_ Hst].
  - simpl. rewrite Hst. unfold valid_name. now rewrite E1, E2, E3, H1.
Qed.

Lemma forallb_rev (A : Type) (f : A -> bool) (l : list A) :
  forallb f (rev l) = forallb f l.
Proof.
  induction l as [|x l IH]; [reflexivity|].
  simpl. rewrite forallb_app, IH. simpl. rewrite andb_true_r. apply andb_comm.
Qed.

Lemma locate_valid w path p :
  forallb valid_name (os.cwd w) = true -> os.locate w path = Some p ->
  forallb valid_name p = true.
Proof.
  intros Hcwd. unfold os.locate. destruct (path =? ""); [discriminate|].
  intros [= <-]. rewrite namei_feed, forallb_rev.
  apply feed_tl_valid; [|apply Split_parts_no_sep].
  destruct (filepath.isRooted path); [reflexivity|]. now rewrite forallb_rev.
Qed.

Lemma well_formed_world_spec w :
  well_formed_world w = true <->
  forallb valid_name (os.cwd w) = true /\ well_formed (os.tree w) = true.
Proof. unfold well_formed_world. apply andb_true_iff. Qed.

Lemma MkdirAll_well_formed path w w' e :
  well_formed_world w = true -> os.MkdirAll path w = (w', e) ->
  well_formed_world w' = true.
Proof.
  intros Hwf. unfold os.MkdirAll.
  destruct (os.locate w path) as [p|] eqn:L; [|now intros [= <- <-]].
  destruct (os.mkdir_all p (os.tree w)) as [e0|t] eqn:M; [now intros [= <- <-]|].
  intros [= <- <-]. apply well_formed_world_spec in Hwf as [H1 H2].
  apply well_formed_world_spec. simpl. split; [exact H1|].
  eapply well_formed_mkdir_all; [|exact H2|exact M].
  eapply locate_valid; eassumption.
Qed.

Lemma PutObject_well_formed s bucket key reader size w w' :
  well_formed_world w = true ->
  PutObject s bucket key reader size w = (w', None) ->
  well_formed_world w' = true.
Proof.
  intros Hwf H.
  apply PutObject_ok in H as (w1 & w2 & p & M & L & A1 & A2 & _ & Hcwd & _).
  apply (MkdirAll_well_formed _ _ _ _ Hwf) in M as Hwf1.
  apply well_formed_world_spec in Hwf as [Hc _].
  apply well_formed_world_spec in Hwf1 as [_ Ht1].
  pose proof (locate_valid _ _ _ Hc L) as Hp.
  apply well_formed_world_spec. split; [now rewrite Hcwd|].
  eapply well_formed_alter; [| exact Hp | | exact A2].
  - intros [[d|es]|] v; simpl; try discriminate. now intros [= <-].
  - eapply well_formed_alter; [| exact Hp | exact Ht1 | exact A1].
    intros o v Hv. apply truncate_inv in Hv. now subst.
Qed.

Lemma alter_well_formed_world at_root change p w t :
  (forall o v, change o = inr (Some v) -> well_formed v = true) ->
  well_formed_world w = true ->
  forallb valid_name p = true ->
  os.alter at_root change p (os.tree w) = inr t ->
  well_formed_world (os.mkWorld (os.cwd w) t) = true.
Proof.
  intros Hc Hwf Hp A. apply well_formed_world_spec in Hwf as [H1 H2].
  apply well_formed_world_spec. split; [exact H1|].
  exact (well_formed_alter at_root change p _ _ Hc Hp H2 A).
Qed.

Lemma Create_well_formed path w w' r :
  well_formed_world w = true -> os.Create path w = (w', r) ->
  well_formed_world w' = true.
Proof.
  intros Hwf. unfold os.Create.
  destruct (os.locate w path) as [p|] eqn:L; [|now intros [= <- <-]].
  destruct (os.alter EISDIR os.truncate p (os.tree w)) as [e|t] eqn:A;
    intros [= <- <-]; [exact Hwf|].
  apply (alter_well_formed_world EISDIR os.truncate p w t); auto.
  - intros o v Hv. apply truncate_inv in Hv. now subst.
  - apply well_formed_world_spec in Hwf as [Hc _]. exact (locate_valid _ _ _ Hc L).
Qed.

Lemma Remove_well_formed path w w' e :
  well_formed_world w = true -> os.Remove path w = (w', e) ->
  well_formed_world w' = true.
Proof.
  intros Hwf. unfold os.Remove.
  destruct (os.locate w path) as [p|] eqn:L; [|now intros [= <- <-]].
  destruct (os.alter EBUSY os.unlink p (os.tree w)) as [e0|t] eqn:A;
    intros [= <- <-]; [exact Hwf|].
  apply (alter_well_formed_world EBUSY os.unlink p w t); auto.
  - intros [[d|[|kv es]]|] v; discriminate.
  - apply well_formed_world_spec in Hwf as [Hc _]. exact (locate_valid _ _ _ Hc L).
Qed.

(** The methods keep the world well formed, whatever they return. *)
Lemma CreateBucket_well_formed s bucket w w' e :
  well_formed_world w = true -> CreateBucket s bucket w = (w', e) ->
  well_formed_world w' = true.
Proof.
  intros Hwf. unfold CreateBucket.
  destruct (os.MkdirAll (filepath.Join [root s; bucket]) w) as [w1 [e1|]] eqn:M;
    intros [= <- <-]; exact (MkdirAll_well_formed _ _ _ _ Hwf M).
Qed.

Lemma DeleteBucket_well_formed s bucket w w' e :
  well_formed_world w = true -> DeleteBucket s bucket w = (w', e) ->
  well_formed_world w' = true.
Proof.
  intros Hwf. unfold DeleteBucket.
  destruct (os.Remove (filepath.Join [root s; bucket]) w) as [w1 [e1|]] eqn:M;
    intros [= <- <-]; exact (Remove_well_formed _ _ _ _ Hwf M).
Qed.

Lemma DeleteObject_well_formed s bucket key w w' e :
  well_formed_world w = true -> DeleteObject s bucket key w = (w', e) ->
  well_formed_world w' = true.
Proof.
  intros Hwf. unfold DeleteObject.
  destruct (os.Remove (filepath.Join [root s; bucket; key]) w) as [w1 [e1|]] eqn:M;
    intros [= <- <-]; exact (Remove_well_formed _ _ _ _ Hwf M).
Qed.

Lemma PutObject_well_formed_any s bucket key reader size w w' e :
  well_formed_world w = true ->
  PutObject s bucket key reader size w = (w', e) ->
  well_formed_world w' = true.
Proof.
  intros Hwf. unfold PutObject.
  set (objectPath := filepath.Join [root s; bucket; key]).
  destruct (os.MkdirAll (filepath.Dir objectPath) w) as [w1 [e1|]] eqn:M;
    pose proof (MkdirAll_well_formed _ _ _ _ Hwf M) as Hwf1;
    [intros [= <- <-]; exact Hwf1|].
  destruct (os.Create objectPath w1) as [w2 [f|e2]] eqn:C;
    pose proof (Create_well_formed _ _ _ _ Hwf1 C) as Hwf2;
    [|intros [= <- <-]; exact Hwf2].
  apply Create_ok in C as (_ & p & L & -> & _).
  unfold os.Copy_to. simpl os.file_place.
  destruct (os.alter EISDIR (os.append (delivered reader)) p (os.tree w2))
    as [e3|t] eqn:A.
  - intros [= <- <-]. exact Hwf2.
  - assert (well_formed_world (os.mkWorld (os.cwd w2) t) = true) as Hwf3.
    { apply (alter_well_formed_world EISDIR (os.append (delivered reader)) p w2 t);
        auto.
      - intros [[d|es]|] v; simpl; try discriminate. now intros [= <-].
      - apply well_formed_world_spec in Hwf1 as [Hc _].
        exact (locate_valid _ _ _ Hc L). }
    destruct (read_error reader); intros [= <- <-]; exact Hwf3.
Qed.

(* ================================================================== *)
(** * The objects of a bucket *)

Lemma bucket_entries_spec s bucket w es :
  bucket_entries s bucket w = Some es <->
  exists p, os.locate w (filepath.Join [root s; bucket]) = Some p
            /\ os.entry_at p (os.tree w) = inr (os.Dir es).
Proof.
  unfold bucket_entries. split.
  - destruct (os.locate w (filepath.Join [root s; bucket])) as [p|]; [|discriminate].
    destruct (os.entry_at p (os.tree w)) as [e|[d|es0]] eqn:E; try discriminate.
    intros [= <-]. eauto.
  - intros (p & -> & ->). reflexivity.
Qed.

(** The place of an object with a canonical key: the names of the key below
    the place of the bucket. *)
Lemma locate_object s bucket key w p :
  canonical key = true ->
  os.locate w (filepath.Join [root s; bucket]) = Some p ->
  os.locate w (filepath.Join [root s; bucket; key]) = Some (p ++ strings.Split key).
Proof.
  intros Hk Hl.
  destruct (Join_shape [root s; bucket]) as [[E _]|(X & HX & E & Ek)].
  - rewrite E in Hl. discriminate.
  - change [root s; bucket; key] with ([root s; bucket] ++ [key]).
    rewrite Ek, locate_Clean by (destruct X; [congruence|discriminate]).
    apply locate_under; [assumption..|].
    now rewrite E, locate_Clean in Hl.
Qed.

Lemma Join_Split (s : string) : strings.Join (strings.Split s) = s.
Proof.
  induction s as [|c s IH]; [reflexivity|]. simpl.
  destruct (Ascii.eqb c "/") eqn:E.
  - apply Ascii.eqb_eq in E. subst c.
    rewrite Join_cons by apply Split_not_nil. now rewrite IH.
  - destruct (strings.Split s) as [|h t] eqn:S; [now apply Split_not_nil in S|].
    rewrite <- IH. now destruct t.
Qed.

(** A successful [PutObject] under a canonical key adds the names of the key
    to the regular files of the bucket, and nothing else. *)
Lemma PutObject_places s bucket key reader size w w' es :
  canonical key = true ->
  bucket_entries s bucket w = Some es ->
  PutObject s bucket key reader size w = (w', None) ->
  exists es', bucket_entries s bucket w' = Some es'
              /\ forall q, In q (map fst (files_under [] (os.Dir es')))
                           <-> q = strings.Split key
                               \/ In q (map fst (files_under [] (os.Dir es))).
Proof.
  intros Hk Hb H. apply bucket_entries_spec in Hb as (p & Hl & He).
  apply PutObject_ok in H as (w1 & w2 & q0 & M & L & A1 & A2 & _ & Hcwd & _).
  rewrite (locate_object _ _ _ _ _ Hk Hl) in L. injection L as <-.
  apply MkdirAll_ok in M as (_ & d & _ & M).
  destruct (mkdir_all_keeps _ _ _ _ _ M He) as (sub1 & E1 & F1 & D1).
  destruct (D1 es eq_refl) as [es1 ->].
  destruct (alter_under _ _ _ _ _ _ _ (Split_not_nil key) E1 A1) as (sub2 & B1 & E2).
  destruct (alter_Dir _ _ _ _ _ B1) as [es2 ->].
  destruct (alter_under _ _ _ _ _ _ _ (Split_not_nil key) E2 A2) as (sub3 & B2 & E3).
  destruct (alter_Dir _ _ _ _ _ B2) as [es3 ->].
  exists es3. split.
  - apply bucket_entries_spec. exists p. split; [|exact E3].
    rewrite <- Hl. now apply locate_cwd.
  - intros q.
    rewrite (alter_places _ _ (append_makes_file _) _ _ _ [] q B2).
    rewrite (alter_places _ _ truncate_makes_file _ _ _ [] q B1).
    rewrite F1. simpl. tauto.
Qed.

Lemma keys_under_In es key :
  In key (keys_under es) <->
  exists q, key = strings.Join q /\ In q (map fst (files_under [] (os.Dir es))).
Proof.
  unfold keys_under. rewrite in_map_iff. split.
  - intros ([q z] & <- & H). exists q. split; [reflexivity|].
    apply in_map_iff. now exists (q, z).
  - intros (q & -> & H). apply in_map_iff in H as ([q' z] & <- & H). now exists (q', z).
Qed.

Lemma PutObject_keys s bucket key reader size w w' es :
  canonical key = true ->
  bucket_entries s bucket w = Some es ->
  PutObject s bucket key reader size w = (w', None) ->
  exists es', bucket_entries s bucket w' = Some es'
              /\ forall k, In k (keys_under es') <-> k = key \/ In k (keys_under es).
Proof.
  intros Hk Hb H.
  destruct (PutObject_places _ _ _ _ _ _ _ _ Hk Hb H) as (es' & Hb' & Hq).
  exists es'. split; [exact Hb'|]. intros k. rewrite !keys_under_In. split.
  - intros (q & -> & Hin). apply Hq in Hin as [->|Hin].
    + left. apply Join_Split.
    + right. eauto.
  - intros [->|(q & -> & Hin)].
    + exists (strings.Split key). split; [symmetry; apply Join_Split|].
      apply Hq. now left.
    + exists q. split; [reflexivity|]. apply Hq. now right.
Qed.

(** The keys after a run of successful puts. *)
Lemma PutObjects_keys s bucket items : forall w w' es,
  well_formed_world w = true ->
  forallb canonical (map fst items) = true ->
  bucket_entries s bucket w = Some es ->
  PutObjects s bucket items w = (w', None) ->
  well_formed_world w' = true /\
  exists es', bucket_entries s bucket w' = Some es'
              /\ forall k, In k (keys_under es')
                           <-> In k (map fst items) \/ In k (keys_under es).
Proof.
  induction items as [|[key data] rest IH]; intros w w' es Hwf Hc Hb.
  - simpl. intros [= <-]. split; [exact Hwf|]. exists es. split; [exact Hb|]. tauto.
  - simpl in Hc. apply andb_true_iff in Hc as [Hk Hrest]. cbn [PutObjects].
    destruct (PutObject s bucket key (NewReader data)
                        (Z.of_nat (List.length data)) w) as [w1 [e|]] eqn:P;
      [discriminate|].
    intros H.
    destruct (PutObject_keys _ _ _ _ _ _ _ _ Hk Hb P) as (es1 & Hb1 & Hk1).
    pose proof (PutObject_well_formed _ _ _ _ _ _ _ Hwf P) as Hwf1.
    destruct (IH w1 w' es1 Hwf1 Hrest Hb1 H) as (Hwf' & es' & Hb' & Hk').
    split; [exact Hwf'|]. exists es'. split; [exact Hb'|].
    intros k. rewrite Hk', Hk1. simpl. intuition (subst; auto).
Qed.

(** [ListObjects] of a bucket that is there. *)
Lemma ListObjects_bucket s bucket prefix w es :
  well_formed_world w = true ->
  bucket_entries s bucket w = Some es ->
  ListObjects s bucket prefix w
  = Ok (filter (matches prefix) (map object_of (files_under [] (os.Dir es)))).
Proof.
  intros Hwf Hb. apply bucket_entries_spec in Hb as (p & Hl & He).
  apply well_formed_world_spec in Hwf as [_ Hwf].
  rewrite ListObjects_filter, (ListObjects_files _ _ _ _ _ Hwf Hl He). reflexivity.
Qed.

Lemma Keys_object_of l :
  map Key (map object_of l) = map (fun f => strings.Join (fst f)) l.
Proof. rewrite map_map. reflexivity. Qed.

Lemma entry_at_app p : forall t sub q,
  os.entry_at p t = inr sub -> os.entry_at (p ++ q) t = os.entry_at q sub.
Proof.
  induction p as [|name rest IH]; intros t sub q; simpl.
  - now intros [= ->].
  - destruct t as [d|es]; [discriminate|].
    destruct (os.find_entry name es); [apply IH|discriminate].
Qed.


Lemma places_below n : forall rel x,
  In x (map fst (files_under rel n)) -> exists q, x = rel ++ q.
Proof.
  induction n as [data|es IH] using node_induction; intros rel x.
  - simpl. intros [<-|[]]. exists []. now rewrite app_nil_r.
  - rewrite files_under_Dir.
    induction IH as [|[k c] rest Hc _ IHrest]; [intros []|].
    rewrite files_entries_cons, map_app, in_app_iff. intros [H|H]; [|auto].
    apply Hc in H as [q ->]. exists (k :: q). now rewrite <- app_assoc.
Qed.

Lemma find_entry_In name es c :
  distinct (map fst es) = true -> In (name, c) es -> os.find_entry name es = Some c.
Proof.
  induction es as [|[k v] es IH]; simpl; [tauto|].
  intros H. apply andb_true_iff in H as [H1 H2]. apply negb_true_iff in H1.
  intros [[= -> ->]|Hin].
  - now rewrite String.eqb_refl.
  - destruct (String.eqb_spec k name) as [->|_]; [|auto].
    exfalso. apply (in_map fst) in Hin. simpl in Hin.
    assert (existsb (String.eqb name) (map fst es) = true); [|congruence].
    apply existsb_exists. exists name. split; [exact Hin|apply String.eqb_refl].
Qed.

Lemma find_entry_Some name es c :
  os.find_entry name es = Some c -> In (name, c) es.
Proof.
  induction es as [|[k v] es IH]; simpl; [discriminate|].
  destruct (String.eqb_spec k name) as [->|_]; [intros [= ->]; now left|auto].
Qed.

(** In a well-formed tree, the regular files reported below an entry are the
    places where a regular file is found. *)
Lemma places_entry_at n : forall rel q,
  well_formed n = true ->
  In (rel ++ q) (map fst (files_under rel n))
  <-> exists d, os.entry_at q n = inr (os.File d).
Proof.
  induction n as [data|es IH] using node_induction; intros rel q Hwf.
  - simpl. split.
    + intros [H|[]]. rewrite <- (app_nil_r rel) in H at 1.
      apply app_inv_head in H. subst q. now exists data.
    + intros [d H]. destruct q; [|discriminate]. left. now rewrite app_nil_r.
  - rewrite files_under_Dir. apply well_formed_Dir in Hwf as [Hd Hf].
    destruct q as [|name q'].
    + split; [|intros [d H]; discriminate].
      intros H. exfalso. rewrite app_nil_r in H. clear IH Hd Hf.
      induction es as [|[k c] es IHes]; [exact H|].
      rewrite files_entries_cons, map_app, in_app_iff in H.
      destruct H as [H|H]; [|auto].
      apply places_below in H as [x H]. rewrite <- app_assoc in H.
      rewrite <- (app_nil_r rel) in H at 1. apply app_inv_head in H. discriminate.
    + cbn [os.entry_at].
      assert (forall c, In (name, c) es ->
                        (In (rel ++ name :: q') (map fst (files_under (rel ++ [name]) c))
                         <-> exists d, os.entry_at q' c = inr (os.File d))) as Hname.
      { intros c Hin. rewrite Forall_forall in IH, Hf.
        specialize (IH _ Hin (rel ++ [name]) q' (proj2 (Hf _ Hin))).
        simpl in IH. now rewrite <- app_assoc in IH. }
      assert (In (rel ++ name :: q') (map fst (files_under_entries rel es))
              <-> exists c, In (name, c) es
                            /\ In (rel ++ name :: q')
                                  (map fst (files_under (rel ++ [name]) c))) as Hsplit.
      { clear. induction es as [|[k c] es IHes].
        - simpl. split; [tauto|]. intros (c & [] & _).
        - rewrite files_entries_cons, map_app, in_app_iff, IHes. split.
          + intros [H|(c' & H1 & H2)].
            * exists c. split; [|].
              -- left. f_equal. apply places_below in H as [x H].
                 rewrite <- app_assoc in H. apply app_inv_head in H.
                 now injection H.
              -- apply places_below in H as Hx. destruct Hx as [x Hx].
                 rewrite <- app_assoc in Hx. apply app_inv_head in Hx.
                 injection Hx as -> _. exact H.
            * exists c'. split; [now right|exact H2].
          + intros (c' & [[= -> ->]|H1] & H2); [now left|]. right. eauto. }
      rewrite Hsplit. split.
      * intros (c & Hin & H). rewrite (find_entry_In _ _ _ Hd Hin).
        now apply Hname.
      * destruct (os.find_entry name es) as [c|] eqn:F; [|intros [d H]; discriminate].
        intros H. apply find_entry_Some in F. exists c. split; [exact F|].
        now apply Hname.
Qed.

Lemma places_valid n : forall rel x,
  well_formed n = true -> forallb valid_name rel = true ->
  In x (map fst (files_under rel n)) -> forallb valid_name x = true.
Proof.
  induction n as [data|es IH] using node_induction; intros rel x Hwf Hrel.
  - simpl. now intros [<-|[]].
  - rewrite files_under_Dir. apply well_formed_Dir in Hwf as [_ Hf].
    induction IH as [|[k c] rest Hc _ IHrest]; [intros []|].
    inversion Hf as [|? ? [H1 H2] Hf']; subst. simpl in H1, H2, Hc.
    rewrite files_entries_cons, map_app, in_app_iff. intros [H|H]; [|auto].
    apply (Hc (rel ++ [k]) x H2); [|exact H].
    rewrite forallb_app, Hrel. simpl. now rewrite H1.
Qed.

Lemma forallb_no_sep (l : list string) :
  forallb valid_name l = true -> Forall (fun e => no_sep e = true) l.
Proof.
  induction l as [|x l IH]; [constructor|]. simpl. intros H.
  apply andb_true_iff in H as [H1 H2]. constructor; [|auto].
  now apply valid_name_spec in H1.
Qed.

(** The keys [ListObjects] reports are canonical. *)
Lemma keys_under_canonical es key :
  well_formed (os.Dir es) = true -> In key (keys_under es) -> canonical key = true.
Proof.
  intros Hwf H. apply keys_under_In in H as (q & -> & H).
  pose proof (places_valid _ [] q Hwf eq_refl H) as Hv.
  unfold canonical. rewrite Split_Join; [exact Hv| |now apply forallb_no_sep].
  intros ->. apply (places_entry_at _ [] [] Hwf) in H as [d H]. discriminate.
Qed.

(** A key is among the keys of a bucket when and only when [GetObject] finds
    a regular file under it. *)
Lemma keys_under_GetObject s bucket key w es :
  well_formed_world w = true ->
  bucket_entries s bucket w = Some es ->
  canonical key = true ->
  In key (keys_under es)
  <-> exists data, GetObject s bucket key w
                   = Ok (NewReader data, Z.of_nat (List.length data)).
Proof.
  intros Hwf Hb Hk. apply bucket_entries_spec in Hb as (p & Hl & He).
  apply well_formed_world_spec in Hwf as [_ Hwf].
  pose proof (well_formed_entry_at _ _ _ Hwf He) as Hwfb.
  pose proof (locate_object s bucket key w p Hk Hl) as Hlo.
  pose proof (entry_at_app _ _ _ (strings.Split key) He) as Happ.
  assert (In key (keys_under es)
          <-> In (strings.Split key) (map fst (files_under [] (os.Dir es)))) as ->.
  { rewrite keys_under_In. split.
    - intros (q & -> & H).
      pose proof (places_valid _ [] q Hwfb eq_refl H) as Hv.
      rewrite Split_Join; [exact H| |now apply forallb_no_sep].
      intros ->. apply (places_entry_at _ [] [] Hwfb) in H as [d H]. discriminate.
    - intros H. exists (strings.Split key). split; [|exact H].
      symmetry. apply Join_Split. }
  rewrite (places_entry_at _ [] (strings.Split key) Hwfb). split.
  - intros [d H]. exists d. apply GetObject_file with (p := p ++ strings.Split key).
    + exact Hlo.
    + now rewrite Happ.
  - intros [data H]. unfold GetObject, os.Stat, os.Open in H.
    rewrite Hlo, Happ in H.
    destruct (os.entry_at (strings.Split key) (os.Dir es)) as [e|[d|es']];
      [discriminate|eauto|discriminate].
Qed.

(* ================================================================== *)
(** * Buckets *)


(** The place of a bucket with a valid name: its name below the place of
    the root. *)
Lemma locate_bucket s bucket w p0 :
  valid_name bucket = true -> os.locate w (root s) = Some p0 ->
  os.locate w (filepath.Join [root s; bucket]) = Some (p0 ++ [bucket]).
Proof.
  intros Hb Hl.
  assert (root s <> "") as Hr by (intros E; rewrite E in Hl; discriminate).
  rewrite filepath_Join2 by assumption.
  rewrite locate_Clean by (destruct (root s); [congruence|discriminate]).
  apply valid_name_spec in Hb as Hb'. destruct Hb' as (_ & _ & _ & Hs).
  rewrite (locate_under w (root s) bucket p0 Hr); [|unfold canonical|exact Hl].
  - now rewrite (Split_no_sep _ Hs).
  - rewrite (Split_no_sep _ Hs). simpl. now rewrite Hb.
Qed.

Lemma distinct_NoDup (l : list string) : distinct l = true -> NoDup l.
Proof.
  induction l as [|x l IH]; [constructor|]. simpl. intros H.
  apply andb_true_iff in H as [H1 H2]. constructor; [|auto].
  intros Hin. apply negb_true_iff in H1.
  assert (existsb (String.eqb x) l = true); [|congruence].
  apply existsb_exists. exists x. split; [exact Hin|apply String.eqb_refl].
Qed.

Lemma ListBuckets_loop es0 : forall acc : list Bucket,
  fold_left
    (fun buckets entry =>
       if os.IsDir entry then buckets ++ [mkBucket (os.Name entry)] else buckets)
    (map (fun kv => os.info_of (fst kv) (snd kv)) es0) acc
  = acc ++ map (fun kv => mkBucket (fst kv))
               (filter (fun kv => match snd kv with os.Dir _ => true | _ => false end) es0).
Proof.
  induction es0 as [|[k [d|es]] rest IH]; intros acc; simpl.
  - now rewrite app_nil_r.
  - apply IH.
  - rewrite IH. now rewrite <- app_assoc.
Qed.

(** The buckets [ListBuckets] reports: the directories among the entries of
    the root, by name and in order. *)
Lemma ListBuckets_entries s w p0 es0 :
  os.locate w (root s) = Some p0 ->
  os.entry_at p0 (os.tree w) = inr (os.Dir es0) ->
  ListBuckets s w
  = Ok (map (fun kv => mkBucket (fst kv))
            (filter (fun kv => match snd kv with os.Dir _ => true | _ => false end) es0)).
Proof.
  intros Hl He. unfold ListBuckets, os.ReadDir. rewrite Hl, He. f_equal.
  apply (ListBuckets_loop es0 []).
Qed.

Lemma NoDup_names_filter (f : string * os.node -> bool) es :
  NoDup (map fst es) -> NoDup (map fst (filter f es)).
Proof.
  induction es as [|kv es IH]; simpl; [constructor|].
  intros H. inversion H as [|? ? Hn Hd]; subst.
  destruct (f kv); simpl; [|auto]. constructor; [|auto].
  intros Hin. apply Hn. apply in_map_iff in Hin as (kv' & E & Hin).
  apply filter_In in Hin as [Hin _]. apply in_map_iff. eauto.
Qed.


(* ================================================================== *)
(** * Removal *)

Lemma find_remove_same name es :
  distinct (map fst es) = true ->
  os.find_entry name (os.remove_entry name es) = None.
Proof.
  induction es as [|[k v] es IH]; simpl; [reflexivity|].
  intros H. apply andb_true_iff in H as [H1 H2]. apply negb_true_iff in H1.
  destruct (String.eqb_spec k name) as [->|Hk].
  - now apply find_entry_names.
  - simpl. apply String.eqb_neq in Hk. rewrite Hk. auto.
Qed.



(* ================================================================== *)
(** * The dispatcher *)

Lemma substring_all (s : string) : String.substring 0 (String.length s) s = s.
Proof. induction s; simpl; congruence. Qed.

(** [TrimPrefix(s, "/")] takes one leading slash away, if there is one. *)
Lemma TrimPrefix_rooted (s : string) :
  strings.TrimPrefix (String "/" s) "/" = s.
Proof.
  unfold strings.TrimPrefix. cbn [String.prefix].
  destruct (Ascii.ascii_dec "/" "/") as [_|N]; [|congruence].
  assert (String.prefix "" s = true) as -> by now destruct s.
  cbn [String.length String.substring Nat.sub]. rewrite Nat.sub_0_r.
  apply substring_all.
Qed.

Lemma TrimPrefix_unrooted (s : string) :
  filepath.isRooted s = false -> strings.TrimPrefix s "/" = s.
Proof.
  unfold strings.TrimPrefix. destruct s as [|c s]; [reflexivity|].
  cbn [String.prefix filepath.isRooted].
  intros H. apply Ascii.eqb_neq in H.
  destruct (Ascii.ascii_dec "/" c) as [E|_]; [congruence|reflexivity].
Qed.

Lemma cut_spec (s : string) :
  match strings.cut s with
  | (h, None) => h = s /\ no_sep s = true
  | (h, Some t) => s = (h ++ "/" ++ t)%string /\ no_sep h = true
  end.
Proof.
  induction s as [|c s IH]; [now split|].
  cbn [strings.cut no_sep]. destruct (Ascii.eqb c "/") eqn:E.
  - apply Ascii.eqb_eq in E. subst c. now split.
  - destruct (strings.cut s) as [h [t|]]; destruct IH as [H1 H2];
      cbn [no_sep]; rewrite ?E, ?H2; split; try reflexivity.
    + now rewrite H1 at 1.
    + now rewrite H1.
Qed.

Lemma SplitN_2 (s : string) :
  strings.SplitN s 2
  = match strings.cut s with
    | (h, None) => [h]
    | (h, Some t) => [h; t]
    end.
Proof. simpl. now destruct (strings.cut s) as [h [t|]]. Qed.

(** [ServeHTTP] in terms of its path, bucket and key; [SplitN] never gives
    an empty slice, so the 400 branch is not taken. *)
Lemma ServeHTTP_routes s r w :
  ServeHTTP s r w =
  if (request_path r =? "") && (Method r =? MethodGet) then
    match ListBuckets s w with
    | Failed err => (w, http_Error (Error err) StatusInternalServerError)
    | Ok buckets =>
        (w, mkResponse StatusOK [("Content-Type", "application/xml")]
              (BucketsXML (mkListAllMyBucketsResult
                             (mkBucketsWrapper (map BucketInfo_of buckets)))))
    end
  else if Method r =? MethodPut then
    if request_key r =? "" then
      match CreateBucket s (request_bucket r) w with
      | (w', Some err) => (w', http_Error (Error err) StatusInternalServerError)
      | (w', None) => (w', mkResponse StatusOK [] NoBody)
      end
    else
      match PutObject s (request_bucket r) (request_key r) (Body r)
                      (ContentLength r) w with
      | (w', Some err) => (w', http_Error (Error err) StatusInternalServerError)
      | (w', None) => (w', mkResponse StatusOK [] NoBody)
      end
  else if Method r =? MethodGet then
    if request_key r =? "" then
      match ListObjects s (request_bucket r) (Query_prefix r) w with
      | Failed err => (w, http_Error (Error err) StatusInternalServerError)
      | Ok objects =>
          (w, mkResponse StatusOK [("Content-Type", "application/xml")]
                (ObjectsXML (mkListBucketResult (request_bucket r)
                                                (map ObjectInfo_of objects))))
      end
    else
      match GetObject s (request_bucket r) (request_key r) w with
      | Failed err => (w, http_Error (Error err) StatusNotFound)
      | Ok (rc, size) =>
          (w, mkResponse StatusOK [("Content-Length", Sprintf_d size)]
                (Bytes (delivered rc)))
      end
  else if Method r =? MethodDelete then
    if request_key r =? "" then
      match DeleteBucket s (request_bucket r) w with
      | (w', Some err) => (w', http_Error (Error err) StatusInternalServerError)
      | (w', None) => (w', mkResponse StatusNoContent [] NoBody)
      end
    else
      match DeleteObject s (request_bucket r) (request_key r) w with
      | (w', Some err) => (w', http_Error (Error err) StatusInternalServerError)
      | (w', None) => (w', mkResponse StatusNoContent [] NoBody)
      end
  else (w, http_Error "Method not allowed" StatusMethodNotAllowed).
Proof.
  unfold ServeHTTP, request_key, request_bucket, request_path.
  set (path := strings.TrimPrefix (URL_Path r) "/").
  assert (Nat.eqb (List.length (strings.SplitN path 2)) 0 = false) as ->.
  { rewrite SplitN_2. now destruct (strings.cut path) as [h [t|]]. }
  reflexivity.
Qed.

(** The bucket and the key of a request, from its path. *)
Lemma request_parts r :
  no_sep (request_bucket r) = true
  /\ ((request_path r = request_bucket r /\ request_key r = "")
      \/ request_path r = (request_bucket r ++ "/" ++ request_key r)%string).
Proof.
  unfold request_bucket, request_key. rewrite SplitN_2.
  pose proof (cut_spec (request_path r)) as H.
  destruct (strings.cut (request_path r)) as [h [t|]]; simpl; destruct H as [H1 H2].
  - split; [exact H2|]. now right.
  - subst h. split; [exact H2|]. now left.
Qed.

Lemma request_path_spec r :
  URL_Path r = ("/" ++ request_path r)%string
  \/ (URL_Path r = request_path r /\ filepath.isRooted (URL_Path r) = false).
Proof.
  unfold request_path. destruct (URL_Path r) as [|c s] eqn:E.
  - right. now split.
  - destruct (Ascii.ascii_dec c "/") as [->|Hc].
    + left. now rewrite TrimPrefix_rooted.
    + right. assert (filepath.isRooted (String c s) = false) as Hr.
      { simpl. now apply Ascii.eqb_neq. }
      split; [|exact Hr]. now rewrite TrimPrefix_unrooted.
Qed.

Lemma request_empty_path r :
  request_path r = "" -> request_bucket r = "" /\ request_key r = "".
Proof.
  intros H. unfold request_bucket, request_key. rewrite H. now split.
Qed.

(* ================================================================== *)
(** * When [PutObject] succeeds *)

Lemma upto_last_sep_no_sep (n : string) :
  no_sep n = true -> filepath.upto_last_sep n = "".
Proof.
  induction n as [|c n IH]; [reflexivity|]. cbn [no_sep filepath.upto_last_sep].
  intros H. apply andb_true_iff in H as [Hc Hn]. apply negb_true_iff in Hc.
  now rewrite Hc, (IH Hn).
Qed.

Lemma upto_last_sep_app (A n : string) :
  no_sep n = true ->
  filepath.upto_last_sep (A ++ "/" ++ n) = (A ++ "/")%string.
Proof.
  intros Hn. induction A as [|c A IH].
  - change ("" ++ "/" ++ n)%string with (String "/" n).
    cbn [filepath.upto_last_sep]. rewrite ascii_eqb_refl.
    now rewrite upto_last_sep_no_sep.
  - change (String c A ++ "/" ++ n)%string with (String c (A ++ "/" ++ n)).
    cbn [filepath.upto_last_sep]. rewrite IH.
    destruct (Ascii.eqb c "/"); [reflexivity|].
    now destruct A.
Qed.

Lemma elems_extend_key (X key : string) :
  X <> "" -> canonical key = true ->
  filepath.elems (X ++ "/" ++ key) = filepath.elems X ++ strings.Split key.
Proof.
  intros HX Hk. rewrite !elems_feed, isRooted_append by assumption.
  rewrite Split_app, feed_app, feed_names by exact Hk.
  now rewrite List.rev_app_distr, List.rev_involutive.
Qed.

(** A cleaned path that ends in a name: the name alone, the name at the
    root, or the name after a path. *)
Lemma Clean_ends_in_name (Y : string) (M : list string) (n : string) :
  filepath.elems Y = M ++ [n] ->
  filepath.Clean Y = n \/ filepath.Clean Y = ("/" ++ n)%string
  \/ exists A, A <> "" /\ filepath.Clean Y = (A ++ "/" ++ n)%string.
Proof.
  intros E. unfold filepath.Clean. rewrite E.
  destruct M as [|m M].
  - destruct (filepath.isRooted Y); simpl; auto.
  - right. right.
    assert (strings.Join ((m :: M) ++ [n])
            = (strings.Join (m :: M) ++ "/" ++ n)%string) as EJ
        by (apply Join_snoc; discriminate).
    destruct (filepath.isRooted Y).
    + exists ("/" ++ strings.Join (m :: M))%string. split; [discriminate|].
      rewrite EJ. reflexivity.
    + pose proof (elems_kept Y) as Hk. rewrite E in Hk.
      inversion Hk as [|? ? [Hm _] _]; subst.
      exists (strings.Join (m :: M)). split; [now apply Join_not_empty|].
      change (match (m :: M) ++ [n] with
              | [] => "."
              | _ :: _ => strings.Join ((m :: M) ++ [n])
              end) with (strings.Join ((m :: M) ++ [n])).
      exact EJ.
Qed.

Lemma locate_dot w : os.locate w "." = Some (os.cwd w).
Proof. unfold os.locate. simpl. now rewrite List.rev_involutive. Qed.

Lemma locate_name w (n : string) :
  valid_name n = true -> os.locate w n = Some (os.cwd w ++ [n]).
Proof.
  intros Hn. apply valid_name_spec in Hn as Hn'. destruct Hn' as (H1 & _ & _ & Hs).
  unfold os.locate. apply String.eqb_neq in H1. rewrite H1.
  rewrite (isRooted_no_sep _ Hs), namei_feed, (Split_no_sep _ Hs).
  rewrite feed_cons, mstep_name by assumption.
  simpl. now rewrite List.rev_involutive.
Qed.

(** The place of [filepath.Dir] of the path of an object: the place of the
    bucket and the names of the key but the last. *)
Lemma locate_Dir_object s bucket key w p :
  canonical key = true ->
  os.locate w (filepath.Join [root s; bucket]) = Some p ->
  os.locate w (filepath.Dir (filepath.Join [root s; bucket; key]))
  = Some (p ++ removelast (strings.Split key)).
Proof.
  intros Hk Hl. pose proof (locate_object s bucket key w p Hk Hl) as Hq.
  destruct (Join_shape [root s; bucket]) as [[E _]|(X & HX & E & Ek)].
  { rewrite E in Hl. discriminate. }
  change [root s; bucket; key] with ([root s; bucket] ++ [key]) in *.
  rewrite Ek in *.
  destruct (exists_last (Split_not_nil key)) as (ks0 & n & Eks).
  assert (valid_name n = true /\ forallb valid_name ks0 = true) as [Hn Hks0].
  { unfold canonical in Hk. rewrite Eks, forallb_app in Hk.
    apply andb_true_iff in Hk as [H1 H2]. simpl in H2.
    now rewrite andb_true_r in H2. }
  apply valid_name_spec in Hn as Hn'. destruct Hn' as (_ & _ & _ & Hs).
  rewrite Eks, removelast_last in *.
  assert (filepath.elems (X ++ "/" ++ key) = (filepath.elems X ++ ks0) ++ [n]) as EN.
  { rewrite elems_extend_key, Eks by assumption. now rewrite app_assoc. }
  unfold filepath.Dir.
  destruct (Clean_ends_in_name _ _ _ EN) as [C|[C|(A & HA & C)]]; rewrite C in *.
  - rewrite (upto_last_sep_no_sep _ Hs).
    change (filepath.Clean "") with ".". rewrite locate_dot.
    rewrite (locate_name w n Hn) in Hq. injection Hq as Hq.
    rewrite app_assoc in Hq. apply app_inj_tail in Hq as [Hq _]. now rewrite Hq.
  - change ("/" ++ n)%string with ("" ++ "/" ++ n)%string.
    rewrite (upto_last_sep_app _ _ Hs).
    change (filepath.Clean ("" ++ "/")) with "/".
    change (os.locate w "/") with (Some (@nil string)).
    unfold os.locate in Hq. simpl in Hq.
    rewrite namei_feed in Hq. rewrite (Split_no_sep _ Hs) in Hq.
    rewrite feed_cons, mstep_name in Hq by assumption. simpl in Hq.
    injection Hq as Hq. change [n] with ([] ++ [n]) in Hq.
    rewrite app_assoc in Hq. apply app_inj_tail in Hq as [Hq _]. now rewrite Hq.
  - rewrite (upto_last_sep_app _ _ Hs).
    assert (canonical n = true) as Hcn
        by (unfold canonical; rewrite (Split_no_sep _ Hs); simpl; now rewrite Hn).
    destruct (os.locate w A) as [a|] eqn:LA.
    + rewrite (locate_under w A n a HA Hcn LA), (Split_no_sep _ Hs) in Hq.
      injection Hq as Hq. rewrite app_assoc in Hq.
      apply app_inj_tail in Hq as [Hq _].
      rewrite locate_Clean by (destruct A; [congruence|discriminate]).
      change (A ++ "/")%string with (A ++ "/" ++ "")%string.
      rewrite locate_slash by assumption. now rewrite LA, Hq.
    + unfold os.locate in LA. apply String.eqb_neq in HA. now rewrite HA in LA.
Qed.

Lemma alter_deeper at_root change name x rest es :
  os.alter at_root change (name :: x :: rest) (os.Dir es)
  = match os.find_entry name es with
    | None => inl ENOENT
    | Some c =>
        match os.alter at_root change (x :: rest) c with
        | inl e => inl e
        | inr c' => inr (os.Dir (os.set_entry name c' es))
        end
    end.
Proof. reflexivity. Qed.

Lemma alter_truncate_chain ks :
  ks <> [] ->
  exists t, os.alter EISDIR os.truncate ks (os.chain (removelast ks)) = inr t.
Proof.
  induction ks as [|name rest IH]; [congruence|]. intros _.
  destruct rest as [|x rest'].
  - simpl. eauto.
  - destruct (IH ltac:(discriminate)) as [t Ht].
    change (removelast (name :: x :: rest')) with (name :: removelast (x :: rest')).
    cbn [os.chain]. rewrite alter_deeper.
    assert (os.find_entry name [(name, os.chain (removelast (x :: rest')))]
            = Some (os.chain (removelast (x :: rest')))) as ->
        by (cbn [os.find_entry]; now rewrite String.eqb_refl).
    rewrite Ht. eauto.
Qed.

(** Below a directory where the names are writable, [MkdirAll] of all but
    the last name and then [Create] succeed. *)
Lemma writable_below ks : forall es,
  writable ks (os.Dir es) = true ->
  exists t1 t2, os.mkdir_all (removelast ks) (os.Dir es) = inr t1
                /\ os.alter EISDIR os.truncate ks t1 = inr t2.
Proof.
  induction ks as [|name rest IH]; intros es; [discriminate|].
  cbn [writable]. destruct rest as [|x rest'].
  - intros H. exists (os.Dir es). cbn [removelast os.mkdir_all os.alter].
    destruct (os.find_entry name es) as [[d|es']|]; try discriminate; simpl; eauto.
  - change (removelast (name :: x :: rest')) with (name :: removelast (x :: rest')).
    cbn [os.mkdir_all].
    destruct (os.find_entry name es) as [c|] eqn:F.
    + intros H. destruct c as [d|es']; [discriminate|].
      destruct (IH es' H) as (c1 & c2 & M & A). rewrite M.
      eexists. eexists. split; [reflexivity|].
      rewrite alter_deeper. now rewrite find_set_same, A.
    + intros _. destruct (alter_truncate_chain (x :: rest') ltac:(discriminate)) as [t Ht].
      eexists. eexists. split; [reflexivity|].
      rewrite alter_deeper. now rewrite find_set_same, Ht.
Qed.

Lemma writable_at p : forall t es ks,
  os.entry_at p t = inr (os.Dir es) -> writable ks (os.Dir es) = true ->
  exists t1 t2, os.mkdir_all (p ++ removelast ks) t = inr t1
                /\ os.alter EISDIR os.truncate (p ++ ks) t1 = inr t2.
Proof.
  induction p as [|name prest IH]; intros t es ks.
  - simpl. intros [= ->]. apply writable_below.
  - cbn [os.entry_at]. destruct t as [d|es0]; [discriminate|].
    destruct (os.find_entry name es0) as [c|] eqn:F; [|discriminate].
    intros He Hw. destruct (IH c es ks He Hw) as (c1 & c2 & M & A).
    simpl app. cbn [os.mkdir_all]. rewrite F, M.
    eexists. eexists. split; [reflexivity|].
    assert (exists x l, prest ++ ks = x :: l) as (x & l & E).
    { destruct (prest ++ ks) eqn:E; [|eauto].
      apply app_eq_nil in E as [_ E]. subst ks. destruct es; discriminate. }
    rewrite E in *. rewrite alter_deeper. now rewrite find_set_same, A.
Qed.

(** In a bucket that is there, [PutObject] under a canonical key whose names
    are writable succeeds when the reader is read to its end. *)
Lemma PutObject_succeeds s bucket key reader size w es :
  bucket_entries s bucket w = Some es ->
  canonical key = true ->
  writable (strings.Split key) (os.Dir es) = true ->
  read_error reader = None ->
  exists w', PutObject s bucket key reader size w = (w', None).
Proof.
  intros Hb Hk Hw Hr. apply bucket_entries_spec in Hb as (p & Hl & He).
  destruct (writable_at p _ _ _ He Hw) as (t1 & t2 & M & A).
  unfold PutObject, os.MkdirAll.
  rewrite (locate_Dir_object s bucket key w p Hk Hl), M.
  set (w1 := os.mkWorld (os.cwd w) t1).
  assert (os.locate w1 (filepath.Join [root s; bucket; key])
          = Some (p ++ strings.Split key)) as Hq
      by (rewrite <- (locate_object s bucket key w p Hk Hl); now apply locate_cwd).
  destruct (os.Create (filepath.Join [root s; bucket; key]) w1) as [w2 [f|e]] eqn:C.
  - pose proof (Create_empty _ _ _ _ C) as [Hf Hp].
    destruct (Copy_to_written f reader w2 Hf Hp) as (w3 & -> & _).
    rewrite Hr. eauto.
  - unfold os.Create in C. rewrite Hq in C. simpl in C. rewrite A in C. discriminate.
Qed.



(** The sample worlds are well formed, and so is every world the server
    makes of them. *)
Example sample_worlds_well_formed :
  well_formed_world fresh_world = true
  /\ well_formed_world bucket_world = true
  /\ well_formed_world object_world = true.
Proof. repeat split; reflexivity. Qed.

(** The handler keeps the world well formed, whatever the request and the
    answer. *)
Lemma ServeHTTP_well_formed s r w w' resp :
  well_formed_world w = true -> ServeHTTP s r w = (w', resp) ->
  well_formed_world w' = true.
Proof.
  intros Hwf. rewrite ServeHTTP_routes.
  destruct ((request_path r =? "") && (Method r =? MethodGet)).
  { destruct (ListBuckets s w); intros [= <- <-]; exact Hwf. }
  destruct (Method r =? MethodPut).
  { destruct (request_key r =? "").
    - destruct (CreateBucket s (request_bucket r) w) as [w1 [e|]] eqn:M;
        intros [= <- <-]; exact (CreateBucket_well_formed _ _ _ _ _ Hwf M).
    - destruct (PutObject s (request_bucket r) (request_key r) (Body r)
                          (ContentLength r) w) as [w1 [e|]] eqn:M;
        intros [= <- <-]; exact (PutObject_well_formed_any _ _ _ _ _ _ _ _ Hwf M). }
  destruct (Method r =? MethodGet).
  { destruct (request_key r =? "").
    - destruct (ListObjects s (request_bucket r) (Query_prefix r) w);
        intros [= <- <-]; exact Hwf.
    - destruct (GetObject s (request_bucket r) (request_key r) w) as [[rc size]|e];
        intros [= <- <-]; exact Hwf. }
  destruct (Method r =? MethodDelete).
  { destruct (request_key r =? "").
    - destruct (DeleteBucket s (request_bucket r) w) as [w1 [e|]] eqn:M;
        intros [= <- <-]; exact (DeleteBucket_well_formed _ _ _ _ _ Hwf M).
    - destruct (DeleteObject s (request_bucket r) (request_key r) w)
        as [w1 [e|]] eqn:M;
        intros [= <- <-]; exact (DeleteObject_well_formed _ _ _ _ _ _ Hwf M). }
  intros [= <- <-]. exact Hwf.
Qed.

Lemma matches_spec prefix o :
  matches prefix o = true <-> prefix = "" \/ strings.HasPrefix (Key o) prefix = true.
Proof. unfold matches. now rewrite orb_true_iff, String.eqb_eq. Qed.

Lemma filter_keys prefix (l : list (list string * Z)) key :
  In key (map Key (filter (matches prefix) (map object_of l)))
  <-> In key (map (fun f => strings.Join (fst f)) l)
      /\ (prefix = "" \/ strings.HasPrefix key prefix = true).
Proof.
  rewrite !in_map_iff. split.
  - intros (o & <- & H). apply filter_In in H as [H M].
    apply matches_spec in M. split; [|exact M].
    apply in_map_iff in H as (f & <- & H). now exists f.
  - intros [(f & <- & H) M]. exists (object_of f). split; [reflexivity|].
    apply filter_In. split; [now apply in_map|]. now apply matches_spec.
Qed.

(* ================================================================== *)
(** * The properties of the storage semantics *)



(** C2, prefix filter.  For every bucket and prefix, [ListObjects(bucket,
    prefix)] is [ListObjects(bucket, "")] less the objects whose key the
    prefix excludes, errors included.  Where the bucket is a directory of a
    well-formed tree, the keys returned are exactly the keys of the regular
    files below it that the prefix is empty for or is a string prefix of; and
    those keys of regular files are exactly the canonical keys under which
    [GetObject] finds a regular file. *)
Theorem ListObjects_prefix_filter :
  forall (s : S3Server) (bucket prefix : string) (w : os.world),
    ListObjects s bucket prefix w
    = match ListObjects s bucket "" w with
      | Ok all => Ok (filter (matches prefix) all)
      | Failed e => Failed e
      end
    /\ forall es,
        well_formed_world w = true ->
        bucket_entries s bucket w = Some es ->
        (exists objects,
            ListObjects s bucket prefix w = Ok objects
            /\ forall key,
                In key (map Key objects)
                <-> In key (keys_under es)
                    /\ (prefix = "" \/ strings.HasPrefix key prefix = true))
        /\ forall key,
            In key (keys_under es)
            <-> canonical key = true
                /\ exists data,
                    GetObject s bucket key w
                    = Ok (NewReader data, Z.of_nat (List.length data)).
Proof.
  intros s bucket prefix w. split; [apply ListObjects_filter|].
  intros es Hwf Hb. split.
  - exists (filter (matches prefix) (map object_of (files_under [] (os.Dir es)))).
    split; [apply ListObjects_bucket; assumption|].
    intros key. apply filter_keys.
  - intros key. split.
    + intros H. assert (canonical key = true) as Hk.
      { apply keys_under_canonical with (es := es); [|exact H].
        apply bucket_entries_spec in Hb as (p & _ & He).
        apply well_formed_world_spec in Hwf as [_ Hwf].
        eapply well_formed_entry_at; eassumption. }
      split; [exact Hk|]. now apply (keys_under_GetObject s bucket key w es).
    + intros [Hk H]. now apply (keys_under_GetObject s bucket key w es).
Qed.

Lemma ListObjects_prefix_filter_witness :
  exists objects,
    ListObjects sample_server "b" "dir/" object_world = Ok objects
    /\ forall key,
        In key (map Key objects)
        <-> In key (keys_under [("dir", os.Dir [("nested.txt", os.File hello)])])
            /\ ("dir/" = "" \/ strings.HasPrefix key "dir/" = true).
Proof.
  apply (proj2 (ListObjects_prefix_filter sample_server "b" "dir/" object_world)
               [("dir", os.Dir [("nested.txt", os.File hello)])]);
    vm_compute; reflexivity.
Defined.

(** C3, listing completeness, for canonical keys.  When a set of keys in
    canonical form (names that are not empty, ["."] or [".."], separated by
    single slashes) has been put without error into a bucket of a well-formed
    tree, [ListObjects(bucket, "")] succeeds and returns exactly those keys
    together with the keys of the regular files that were there; for a bucket
    that held no regular file, exactly those keys.  Each returned key is the names from
    the bucket directory down to the file, joined by slashes, at any
    depth. *)
Theorem ListObjects_complete_canonical :
  forall (s : S3Server) (bucket : string) (items : list (string * list byte))
         (w w' : os.world) (es : list (string * os.node)),
    well_formed_world w = true ->
    bucket_entries s bucket w = Some es ->
    forallb canonical (map fst items) = true ->
    PutObjects s bucket items w = (w', None) ->
    exists objects es',
      ListObjects s bucket "" w' = Ok objects
      /\ bucket_entries s bucket w' = Some es'
      /\ map Key objects = keys_under es'
      /\ (forall key, In key (map Key objects)
                      <-> In key (map fst items) \/ In key (keys_under es))
      /\ (keys_under es = [] ->
          forall key, In key (map Key objects) <-> In key (map fst items)).
Proof.
  intros s bucket items w w' es Hwf Hb Hc H.
  destruct (PutObjects_keys s bucket items w w' es Hwf Hc Hb H)
    as (Hwf' & es' & Hb' & Hk).
  exists (map object_of (files_under [] (os.Dir es'))), es'.
  assert (map Key (map object_of (files_under [] (os.Dir es'))) = keys_under es') as E
      by apply Keys_object_of.
  split; [|split; [exact Hb'|split; [exact E|split]]].
  - rewrite (ListObjects_bucket s bucket "" w' es' Hwf' Hb').
    f_equal. apply forallb_filter_id. apply forallb_forall. reflexivity.
  - intros key. rewrite E. apply Hk.
  - intros E0 key. rewrite E, Hk, E0. simpl. tauto.
Qed.

Lemma ListObjects_complete_canonical_witness :
  exists objects es',
    ListObjects sample_server "b" "" object_world = Ok objects
    /\ bucket_entries sample_server "b" object_world = Some es'
    /\ map Key objects = keys_under es'
    /\ (forall key, In key (map Key objects)
                    <-> In key (map fst [("dir/nested.txt", hello)])
                        \/ In key (keys_under []))
    /\ (keys_under [] = [] ->
        forall key, In key (map Key objects)
                    <-> In key (map fst [("dir/nested.txt", hello)])).
Proof.
  apply (ListObjects_complete_canonical
           sample_server "b" [("dir/nested.txt", hello)] bucket_world object_world []);
    vm_compute; reflexivity.
Defined.

(** C3 as stated fails for a key that is not canonical: the object put under
    ["a//b"] into an empty bucket is listed under ["a/b"]. *)
Lemma ListObjects_noncanonical_key :
  ~ (forall (s : S3Server) (bucket : string) (items : list (string * list byte))
            (w w' : os.world),
        well_formed_world w = true ->
        bucket_entries s bucket w = Some [] ->
        PutObjects s bucket items w = (w', None) ->
        exists objects,
          ListObjects s bucket "" w' = Ok objects
          /\ forall key, In key (map Key objects) <-> In key (map fst items)).
Proof.
  intros H.
  destruct (H sample_server "b" [("a//b", hello)] bucket_world
              (fst (PutObjects sample_server "b" [("a//b", hello)] bucket_world))
              eq_refl eq_refl eq_refl) as (objects & L & K).
  vm_compute in L. injection L as <-.
  destruct (proj2 (K "a//b") (or_introl eq_refl)) as [E|[]].
  discriminate E.
Qed.

(** C4, [GetObject] on a directory.  The claim is that [GetObject] fails
    when the mapped path is not a regular file.  Here the bucket ["b"] holds
    the object ["dir/nested.txt"], so the path of the key ["dir"] is a
    directory: [GetObject] returns no error but the open directory (a stream
    whose first read fails) and the size of the directory, and [GET /b/dir]
    answers 200 with that [Content-Length] and no body.  A path that does not
    exist does fail. *)
Theorem GetObject_of_directory_succeeds :
  GetObject sample_server "b" "dir" object_world
  = Ok (mkReader [] (Some (PathError "read" "/data/b/dir" EISDIR)), os.dir_size)
  /\ snd (ServeHTTP sample_server
                    (mkRequest MethodGet "/b/dir" "" (NewReader []) 0) object_world)
     = mkResponse StatusOK [("Content-Length", "4096")] (Bytes [])
  /\ ListObjects sample_server "b" "" object_world
     = Ok [mkObject "dir/nested.txt" 5]
  /\ GetObject sample_server "b" "missing" object_world
     = Failed (Wrap "failed to stat object" (PathError "stat" "/data/b/missing" ENOENT)).
Proof. repeat split; vm_compute; reflexivity. Qed.






(** C7, [DeleteBucket] refused.  When the directory of the bucket has at
    least one entry, and when the path of the bucket does not exist,
    [DeleteBucket] returns an error and the state is the state before: the
    bucket and everything in it are as they were. *)
Theorem DeleteBucket_refused :
  forall (s : S3Server) (bucket : string) (w : os.world),
    (exists entry rest,
        os.ReadDir (filepath.Join [root s; bucket]) w = Ok (entry :: rest))
    \/ (exists e, os.Stat (filepath.Join [root s; bucket]) w = Failed e) ->
    exists err, DeleteBucket s bucket w = (w, Some err).
Proof.
  intros s bucket w H. unfold DeleteBucket.
  destruct (Remove_refused (filepath.Join [root s; bucket]) w) as [e ->]; [|eauto].
  destruct H as [(entry & rest & H)|[e H]].
  - apply ReadDir_entries in H as (p & es & -> & -> & E).
    destruct es; [discriminate|exact I].
  - apply Stat_failed in H.
    destruct (os.locate w (filepath.Join [root s; bucket])) as [p|]; [|exact I].
    now destruct H as [e' ->].
Qed.

Lemma DeleteBucket_refused_witness :
  (exists err, DeleteBucket sample_server "b" object_world = (object_world, Some err))
  /\ (exists err, DeleteBucket sample_server "nowhere" object_world
                  = (object_world, Some err)).
Proof.
  split.
  - apply (DeleteBucket_refused sample_server "b" object_world).
    left. eexists. eexists. vm_compute. reflexivity.
  - apply (DeleteBucket_refused sample_server "nowhere" object_world).
    right. eexists. vm_compute. reflexivity.
Defined.

(** C8, the status of a failure.  For every request: a failure of
    [GetObject] on a GET with a key is answered 404; a failure of
    [ListBuckets], [CreateBucket], [DeleteBucket], [PutObject],
    [DeleteObject] or [ListObjects] at the place the handler calls it is
    answered 500; a method other than GET, PUT and DELETE is answered 405.
    In each case the answer is what [http.Error] writes: the content type
    [text/plain] and the message followed by a newline as body. *)
Theorem ServeHTTP_failure_status :
  forall (s : S3Server) (r : Request) (w : os.world),
    (forall err, Method r = MethodGet -> request_key r <> "" ->
                 GetObject s (request_bucket r) (request_key r) w = Failed err ->
                 ServeHTTP s r w = (w, http_Error (Error err) StatusNotFound))
    /\ (forall err, Method r = MethodGet -> request_path r = "" ->
                    ListBuckets s w = Failed err ->
                    ServeHTTP s r w
                    = (w, http_Error (Error err) StatusInternalServerError))
    /\ (forall err, Method r = MethodGet -> request_path r <> "" ->
                    request_key r = "" ->
                    ListObjects s (request_bucket r) (Query_prefix r) w = Failed err ->
                    ServeHTTP s r w
                    = (w, http_Error (Error err) StatusInternalServerError))
    /\ (forall w' err, Method r = MethodPut -> request_key r = "" ->
                       CreateBucket s (request_bucket r) w = (w', Some err) ->
                       ServeHTTP s r w
                       = (w', http_Error (Error err) StatusInternalServerError))
    /\ (forall w' err, Method r = MethodPut -> request_key r <> "" ->
                       PutObject s (request_bucket r) (request_key r) (Body r)
                                 (ContentLength r) w = (w', Some err) ->
                       ServeHTTP s r w
                       = (w', http_Error (Error err) StatusInternalServerError))
    /\ (forall w' err, Method r = MethodDelete -> request_key r = "" ->
                       DeleteBucket s (request_bucket r) w = (w', Some err) ->
                       ServeHTTP s r w
                       = (w', http_Error (Error err) StatusInternalServerError))
    /\ (forall w' err, Method r = MethodDelete -> request_key r <> "" ->
                       DeleteObject s (request_bucket r) (request_key r) w
                       = (w', Some err) ->
                       ServeHTTP s r w
                       = (w', http_Error (Error err) StatusInternalServerError))
    /\ (Method r <> MethodGet -> Method r <> MethodPut -> Method r <> MethodDelete ->
        ServeHTTP s r w
        = (w, http_Error "Method not allowed" StatusMethodNotAllowed))
    /\ (forall message code,
           StatusCode (http_Error message code) = code
           /\ In ("Content-Type", "text/plain; charset=utf-8")
                 (Header (http_Error message code))
           /\ Payload (http_Error message code) = Text (message ++ newline)).
Proof.
  intros s r w. rewrite ServeHTTP_routes.
  repeat match goal with |- _ /\ _ => split end.
  - intros err Hm Hk H. apply String.eqb_neq in Hk.
    destruct (request_parts r) as [_ [[_ E]|E]].
    { rewrite E in Hk. discriminate. }
    assert (request_path r <> "") as Hp
        by (rewrite E; destruct (request_bucket r); discriminate).
    apply String.eqb_neq in Hp. now rewrite Hp, Hm, Hk, H.
  - intros err Hm Hp H. now rewrite Hp, Hm, H.
  - intros err Hm Hp Hk H. apply String.eqb_neq in Hp.
    now rewrite Hp, Hm, Hk, H.
  - intros w' err Hm Hk H. now rewrite Hm, Hk, H, andb_false_r.
  - intros w' err Hm Hk H. apply String.eqb_neq in Hk.
    now rewrite Hm, Hk, H, andb_false_r.
  - intros w' err Hm Hk H. now rewrite Hm, Hk, H, andb_false_r.
  - intros w' err Hm Hk H. apply String.eqb_neq in Hk.
    now rewrite Hm, Hk, H, andb_false_r.
  - intros H1 H2 H3. apply String.eqb_neq in H1, H2, H3.
    now rewrite H1, H2, H3, andb_false_r.
  - intros message code. repeat split. now left.
Qed.

Lemma ServeHTTP_failure_status_witness :
  (ServeHTTP sample_server (mkRequest MethodGet "/b/missing" "" (NewReader []) 0)
             object_world
   = (object_world,
      http_Error "failed to stat object: stat /data/b/missing: no such file or directory"
                 StatusNotFound))
  /\ (exists err,
         ServeHTTP sample_server (mkRequest MethodDelete "/b" "" (NewReader []) 0)
                   object_world
         = (object_world, http_Error (Error err) StatusInternalServerError))
  /\ (ServeHTTP sample_server (mkRequest "POST" "/b/x" "" (NewReader []) 0)
                object_world
      = (object_world, http_Error "Method not allowed" StatusMethodNotAllowed)).
Proof.
  split; [|split].
  - apply (proj1 (ServeHTTP_failure_status
                    sample_server
                    (mkRequest MethodGet "/b/missing" "" (NewReader []) 0)
                    object_world)
                 (Wrap "failed to stat object"
                       (PathError "stat" "/data/b/missing" ENOENT)));
      [reflexivity|discriminate|vm_compute; reflexivity].
  - eexists.
    apply (proj1 (proj2 (proj2 (proj2 (proj2 (proj2
             (ServeHTTP_failure_status
                sample_server
                (mkRequest MethodDelete "/b" "" (NewReader []) 0)
                object_world))))))
                 object_world
                 (Wrap "failed to delete bucket"
                       (PathError "remove" "/data/b" ENOTEMPTY)));
      [reflexivity|reflexivity|vm_compute; reflexivity].
  - apply (proj1 (proj2 (proj2 (proj2 (proj2 (proj2 (proj2 (proj2
             (ServeHTTP_failure_status
                sample_server
                (mkRequest "POST" "/b/x" "" (NewReader []) 0)
                object_world))))))))); discriminate.
Defined.

(** C9, the path is split and nothing is checked.  For every request the
    path of the handler is the URL path without one leading slash; the
    bucket is the part before the first slash of it and has no slash; the
    key is the part after that slash, or empty when there is none.  With a
    key, the bucket and the key go to [PutObject], [GetObject] and
    [DeleteObject] as they are.  A key with [".."] elements is joined onto
    the bucket path like any other, and the path can then lie outside the
    bucket and outside the storage root: [PUT /b/../../etc/passwd] on the
    server rooted at [/data] is answered 200 and writes the body to
    [/etc/passwd]. *)
Theorem ServeHTTP_key_unvalidated :
  (forall r : Request,
      (URL_Path r = ("/" ++ request_path r)%string
       \/ (URL_Path r = request_path r /\ filepath.isRooted (URL_Path r) = false))
      /\ no_sep (request_bucket r) = true
      /\ ((request_path r = request_bucket r /\ request_key r = "")
          \/ request_path r = (request_bucket r ++ "/" ++ request_key r)%string))
  /\ (forall (s : S3Server) (r : Request) (w : os.world),
         request_key r <> "" ->
         (Method r = MethodPut ->
          ServeHTTP s r w
          = match PutObject s (request_bucket r) (request_key r) (Body r)
                            (ContentLength r) w with
            | (w', Some err) => (w', http_Error (Error err) StatusInternalServerError)
            | (w', None) => (w', mkResponse StatusOK [] NoBody)
            end)
         /\ (Method r = MethodGet ->
             ServeHTTP s r w
             = match GetObject s (request_bucket r) (request_key r) w with
               | Failed err => (w, http_Error (Error err) StatusNotFound)
               | Ok (rc, size) =>
                   (w, mkResponse StatusOK [("Content-Length", Sprintf_d size)]
                                  (Bytes (delivered rc)))
               end)
         /\ (Method r = MethodDelete ->
             ServeHTTP s r w
             = match DeleteObject s (request_bucket r) (request_key r) w with
               | (w', Some err) => (w', http_Error (Error err) StatusInternalServerError)
               | (w', None) => (w', mkResponse StatusNoContent [] NoBody)
               end))
  /\ (let r := mkRequest MethodPut "/b/../../etc/passwd" "" (NewReader hello) 5 in
      let w' := fst (ServeHTTP sample_server r bucket_world) in
      request_bucket r = "b"
      /\ request_key r = "../../etc/passwd"
      /\ snd (ServeHTTP sample_server r bucket_world) = mkResponse StatusOK [] NoBody
      /\ filepath.Join [root sample_server; "b"; "../../etc/passwd"] = "/etc/passwd"
      /\ os.locate bucket_world (filepath.Join [root sample_server; "b"])
         = Some ["data"; "b"]
      /\ os.locate bucket_world (root sample_server) = Some ["data"]
      /\ os.locate bucket_world "/etc/passwd" = Some ["etc"; "passwd"]
      /\ is_above ["data"; "b"] ["etc"; "passwd"] = false
      /\ is_above ["data"] ["etc"; "passwd"] = false
      /\ os.entry_at ["etc"; "passwd"] (os.tree bucket_world) = inl ENOENT
      /\ os.entry_at ["etc"; "passwd"] (os.tree w') = inr (os.File hello)).
Proof.
  split; [|split].
  - intros r. split; [apply request_path_spec|apply request_parts].
  - intros s r w Hk. apply String.eqb_neq in Hk as Hk'.
    assert ((request_path r =? "") = false) as Hp.
    { apply String.eqb_neq. intros E.
      now destruct (request_empty_path r E) as [_ E']. }
    rewrite ServeHTTP_routes, Hp, Hk'. simpl andb.
    split; [|split]; intros ->; reflexivity.
  - repeat split; vm_compute; reflexivity.
Qed.

Lemma ServeHTTP_key_unvalidated_witness :
  ServeHTTP sample_server
            (mkRequest MethodPut "/b/../../etc/passwd" "" (NewReader hello) 5)
            bucket_world
  = match PutObject sample_server "b" "../../etc/passwd" (NewReader hello) 5
                    bucket_world with
    | (w', Some err) => (w', http_Error (Error err) StatusInternalServerError)
    | (w', None) => (w', mkResponse StatusOK [] NoBody)
    end.
Proof.
  apply (proj1 (proj1 (proj2 ServeHTTP_key_unvalidated)
                      sample_server
                      (mkRequest MethodPut "/b/../../etc/passwd" "" (NewReader hello) 5)
                      bucket_world ltac:(discriminate)) eq_refl).
Defined.



(* ================================================================== *)
(** * Further properties: what a call leaves alone *)

Lemma find_remove_other name n es :
  n <> name -> os.find_entry n (os.remove_entry name es) = os.find_entry n es.
Proof.
  intros Hn. induction es as [|[k v] es IH]; simpl; [reflexivity|].
  destruct (String.eqb_spec k name) as [->|Hk]; simpl.
  - assert ((name =? n) = false) as -> by (apply String.eqb_neq; congruence).
    reflexivity.
  - now rewrite IH.
Qed.

Lemma entry_at_cons name rest es :
  os.entry_at (name :: rest) (os.Dir es)
  = match os.find_entry name es with
    | None => inl ENOENT
    | Some c => os.entry_at rest c
    end.
Proof. reflexivity. Qed.

(** A change that accepts only a regular file or an empty directory where
    something is: the changes of [Create], [io.Copy] and [Remove]. *)
Lemma truncate_accepts c v :
  os.truncate (Some c) = inr v ->
  match c with os.File _ => True | os.Dir es => es = [] end.
Proof. destruct c; [trivial|discriminate]. Qed.

Lemma append_accepts data c v :
  os.append data (Some c) = inr v ->
  match c with os.File _ => True | os.Dir es => es = [] end.
Proof. destruct c; [trivial|discriminate]. Qed.

Lemma unlink_accepts c v :
  os.unlink (Some c) = inr v ->
  match c with os.File _ => True | os.Dir es => es = [] end.
Proof. destruct c as [d|[|kv es]]; [trivial|trivial|discriminate]. Qed.

(** Such a change at one place leaves the regular files at the other places
    as they are. *)
Lemma alter_other_file at_root change p : forall t t' q d,
  (forall c v, change (Some c) = inr v ->
               match c with os.File _ => True | os.Dir es => es = [] end) ->
  os.alter at_root change p t = inr t' ->
  os.entry_at q t = inr (os.File d) -> q <> p ->
  os.entry_at q t' = inr (os.File d).
Proof.
  induction p as [|name rest IH]; intros t t' q d Hc; [discriminate|].
  destruct t as [data|es]; [discriminate|].
  destruct q as [|n q']; [discriminate|].
  rewrite entry_at_cons.
  destruct rest as [|x rest'].
  - cbn [os.alter]. intros A E Hq.
    assert (n <> name -> os.find_entry n es
                         = match t' with
                           | os.Dir es' => os.find_entry n es'
                           | os.File _ => None
                           end) as Hother.
    { intros Hn.
      destruct (change (os.find_entry name es)) as [e|[v|]]; [discriminate| |];
        injection A as <-.
      - now rewrite find_set_other.
      - now rewrite find_remove_other. }
    destruct (String.eqb_spec n name) as [->|Hn].
    + exfalso. destruct (os.find_entry name es) as [c|] eqn:F; [|discriminate].
      destruct (change (Some c)) as [e|v] eqn:Cv; [discriminate|].
      apply Hc in Cv. destruct q' as [|y q'']; [congruence|].
      destruct c as [d0|[|kv es0]]; discriminate.
    + specialize (Hother Hn).
      destruct t' as [d'|es']; [|rewrite entry_at_cons, <- Hother; exact E].
      destruct (change (os.find_entry name es)) as [e|[v|]]; discriminate.
  - rewrite alter_deeper.
    destruct (os.find_entry name es) as [c|] eqn:F; [|discriminate].
    destruct (os.alter at_root change (x :: rest') c) as [e|c'] eqn:A; [discriminate|].
    intros [= <-] E Hq. rewrite entry_at_cons.
    destruct (String.eqb_spec n name) as [->|Hn].
    + rewrite find_set_same. rewrite F in E.
      apply (IH c c' q' d Hc A E). congruence.
    + now rewrite find_set_other.
Qed.

(** [MkdirAll] leaves every regular file as it is. *)
Lemma mkdir_all_file d : forall t t' q x,
  os.mkdir_all d t = inr t' -> os.entry_at q t = inr (os.File x) ->
  os.entry_at q t' = inr (os.File x).
Proof.
  induction d as [|name rest IH]; intros t t' q x.
  - destruct t; simpl; [discriminate|]. now intros [= <-].
  - destruct t as [data|es]; simpl; [discriminate|].
    destruct q as [|n q']; [discriminate|].
    destruct (os.find_entry name es) as [c|] eqn:F.
    + destruct (os.mkdir_all rest c) as [e|c'] eqn:M; [discriminate|].
      intros [= <-]. rewrite !entry_at_cons.
      destruct (String.eqb_spec n name) as [->|Hn].
      * rewrite F, find_set_same. now apply IH.
      * now rewrite find_set_other.
    + intros [= <-]. rewrite !entry_at_cons.
      destruct (String.eqb_spec n name) as [->|Hn].
      * rewrite F. discriminate.
      * now rewrite find_set_other.
Qed.

(** A regular file that [GetObject] returns is at the place of its path. *)
Lemma GetObject_file_inv s bucket key w data size :
  GetObject s bucket key w = Ok (NewReader data, size) ->
  exists p, os.locate w (filepath.Join [root s; bucket; key]) = Some p
            /\ os.entry_at p (os.tree w) = inr (os.File data).
Proof.
  unfold GetObject, os.Stat, os.Open.
  destruct (os.locate w (filepath.Join [root s; bucket; key])) as [p|]; [|discriminate].
  destruct (os.entry_at p (os.tree w)) as [e|[d|es]] eqn:E; try discriminate.
  intros [= <- _]. eauto.
Qed.

(** The calls on regular files elsewhere. *)
Lemma MkdirAll_other_file path w w' e q x :
  os.MkdirAll path w = (w', e) -> os.entry_at q (os.tree w) = inr (os.File x) ->
  os.entry_at q (os.tree w') = inr (os.File x).
Proof.
  unfold os.MkdirAll. destruct (os.locate w path) as [p|]; [|now intros [= <- <-]].
  destruct (os.mkdir_all p (os.tree w)) as [e0|t] eqn:M; intros [= <- <-]; [trivial|].
  simpl. now apply (mkdir_all_file p (os.tree w)).
Qed.

Lemma Create_other_file path w w' r p q x :
  os.Create path w = (w', r) -> os.locate w path = Some p -> q <> p ->
  os.entry_at q (os.tree w) = inr (os.File x) ->
  os.entry_at q (os.tree w') = inr (os.File x).
Proof.
  unfold os.Create. intros H Hl. rewrite Hl in H.
  destruct (os.alter EISDIR os.truncate p (os.tree w)) as [e0|t] eqn:A;
    injection H as <- <-; [trivial|].
  simpl. intros Hq E.
  exact (alter_other_file EISDIR os.truncate p _ _ q x truncate_accepts A E Hq).
Qed.

Lemma Remove_other_file path w w' e p q x :
  os.Remove path w = (w', e) -> os.locate w path = Some p -> q <> p ->
  os.entry_at q (os.tree w) = inr (os.File x) ->
  os.entry_at q (os.tree w') = inr (os.File x).
Proof.
  unfold os.Remove. intros H Hl. rewrite Hl in H.
  destruct (os.alter EBUSY os.unlink p (os.tree w)) as [e0|t] eqn:A;
    injection H as <- <-; [trivial|].
  simpl. intros Hq E.
  exact (alter_other_file EBUSY os.unlink p _ _ q x unlink_accepts A E Hq).
Qed.

Lemma MkdirAll_cwd path w w' e : os.MkdirAll path w = (w', e) -> os.cwd w' = os.cwd w.
Proof.
  unfold os.MkdirAll. destruct (os.locate w path); [|now intros [= <- <-]].
  destruct (os.mkdir_all _ (os.tree w)); now intros [= <- <-].
Qed.

Lemma Create_cwd path w w' r : os.Create path w = (w', r) -> os.cwd w' = os.cwd w.
Proof.
  unfold os.Create. destruct (os.locate w path); [|now intros [= <- <-]].
  destruct (os.alter _ _ _ (os.tree w)); now intros [= <- <-].
Qed.

Lemma Remove_cwd path w w' e : os.Remove path w = (w', e) -> os.cwd w' = os.cwd w.
Proof.
  unfold os.Remove. destruct (os.locate w path); [|now intros [= <- <-]].
  destruct (os.alter _ _ _ (os.tree w)); now intros [= <- <-].
Qed.

Lemma Copy_to_cwd f reader w w' e :
  os.Copy_to f reader w = (w', e) -> os.cwd w' = os.cwd w.
Proof.
  unfold os.Copy_to. destruct (os.alter _ _ _ (os.tree w)); now intros [= <- <-].
Qed.

(** [PutObject], however it ends, leaves the regular files at the places
    other than that of its path as they are. *)
Lemma PutObject_other_file s bucket key reader size w w' e p q x :
  PutObject s bucket key reader size w = (w', e) ->
  os.locate w (filepath.Join [root s; bucket; key]) = Some p -> q <> p ->
  os.entry_at q (os.tree w) = inr (os.File x) ->
  os.cwd w' = os.cwd w /\ os.entry_at q (os.tree w') = inr (os.File x).
Proof.
  unfold PutObject. set (objectPath := filepath.Join [root s; bucket; key]).
  intros H Hl Hq E.
  destruct (os.MkdirAll (filepath.Dir objectPath) w) as [w1 [e1|]] eqn:M.
  { injection H as <- <-. split; [exact (MkdirAll_cwd _ _ _ _ M)|].
    exact (MkdirAll_other_file _ _ _ _ _ _ M E). }
  pose proof (MkdirAll_cwd _ _ _ _ M) as C1.
  pose proof (MkdirAll_other_file _ _ _ _ _ _ M E) as E1.
  assert (os.locate w1 objectPath = Some p) as Hl1
      by (rewrite <- Hl; now apply locate_cwd).
  destruct (os.Create objectPath w1) as [w2 [f|e2]] eqn:C.
  2:{ injection H as <- <-. split; [rewrite <- C1; exact (Create_cwd _ _ _ _ C)|].
      exact (Create_other_file _ _ _ _ p q x C Hl1 Hq E1). }
  pose proof (Create_cwd _ _ _ _ C) as C2.
  pose proof (Create_other_file _ _ _ _ p q x C Hl1 Hq E1) as E2.
  apply Create_ok in C as (_ & p' & Hl' & -> & _).
  rewrite Hl1 in Hl'. injection Hl' as <-.
  destruct (os.Copy_to (os.mkFile objectPath p) reader w2) as [w3 e3] eqn:K.
  assert (w' = w3) as -> by (destruct e3; now injection H).
  split; [rewrite <- C1, <- C2; exact (Copy_to_cwd _ _ _ _ _ K)|].
  unfold os.Copy_to in K. simpl os.file_place in K.
  destruct (os.alter EISDIR (os.append (delivered reader)) p (os.tree w2))
    as [e0|t] eqn:A; injection K as <- _; [exact E2|].
  simpl.
  exact (alter_other_file EISDIR (os.append (delivered reader)) p _ _ q x
                          (append_accepts (delivered reader)) A E2 Hq).
Qed.

Lemma PutObject_elsewhere s bucket key reader size w w' e q x :
  PutObject s bucket key reader size w = (w', e) ->
  os.locate w (filepath.Join [root s; bucket; key]) <> Some q ->
  os.entry_at q (os.tree w) = inr (os.File x) ->
  os.cwd w' = os.cwd w /\ os.entry_at q (os.tree w') = inr (os.File x).
Proof.
  intros H Hl E.
  destruct (os.locate w (filepath.Join [root s; bucket; key])) as [p|] eqn:L.
  - apply (PutObject_other_file s bucket key reader size w w' e p q x H L);
      [congruence|exact E].
  - unfold PutObject in H.
    destruct (os.MkdirAll (filepath.Dir (filepath.Join [root s; bucket; key])) w)
      as [w1 [e1|]] eqn:M.
    + injection H as <- <-. split; [exact (MkdirAll_cwd _ _ _ _ M)|].
      exact (MkdirAll_other_file _ _ _ _ _ _ M E).
    + assert (os.locate w1 (filepath.Join [root s; bucket; key]) = None) as L1
          by (rewrite <- L; apply locate_cwd; exact (MkdirAll_cwd _ _ _ _ M)).
      unfold os.Create in H. rewrite L1 in H. injection H as <- <-.
      split; [exact (MkdirAll_cwd _ _ _ _ M)|].
      exact (MkdirAll_other_file _ _ _ _ _ _ M E).
Qed.

Lemma Remove_elsewhere path w w' e q x :
  os.Remove path w = (w', e) -> os.locate w path <> Some q ->
  os.entry_at q (os.tree w) = inr (os.File x) ->
  os.cwd w' = os.cwd w /\ os.entry_at q (os.tree w') = inr (os.File x).
Proof.
  intros H Hl E. split; [exact (Remove_cwd _ _ _ _ H)|].
  destruct (os.locate w path) as [p|] eqn:L.
  - apply (Remove_other_file path w w' e p q x H L); [congruence|exact E].
  - unfold os.Remove in H. rewrite L in H. now injection H as <- <-.
Qed.

(** A regular file that stays at its place is what [GetObject] goes on
    returning. *)
Lemma GetObject_kept s bucket key w w' data size :
  GetObject s bucket key w = Ok (NewReader data, size) ->
  (forall q x, os.entry_at q (os.tree w) = inr (os.File x) ->
               os.locate w (filepath.Join [root s; bucket; key]) = Some q ->
               os.cwd w' = os.cwd w /\ os.entry_at q (os.tree w') = inr (os.File x)) ->
  GetObject s bucket key w' = GetObject s bucket key w.
Proof.
  intros G K. pose proof G as G0.
  apply GetObject_file_inv in G as (q & L & E).
  destruct (K q data E L) as [C E'].
  rewrite (GetObject_file s bucket key w q data L E).
  apply GetObject_file with (p := q); [|exact E'].
  rewrite <- L. now apply locate_cwd.
Qed.

Lemma Clean_trailing_slash (X : string) :
  X <> "" -> filepath.Clean (X ++ "/" ++ "") = filepath.Clean X.
Proof.
  intros HX. unfold filepath.Clean.
  assert (filepath.elems (X ++ "/" ++ "") = filepath.elems X) as ->.
  { rewrite !elems_feed, isRooted_append by assumption.
    rewrite Split_app, feed_app. change (strings.Split "") with [""].
    now rewrite feed_cons, mstep_skip by reflexivity. }
  now rewrite isRooted_append.
Qed.

(** With the empty key, the path of an object is the path of its bucket. *)
Lemma Join_empty_key (r b : string) :
  filepath.Join [r; b; ""] = filepath.Join [r; b].
Proof.
  destruct (String.eqb_spec r "") as [->|Hr].
  - destruct (String.eqb_spec b "") as [->|Hb]; [reflexivity|].
    change (filepath.Join [""; b; ""]) with (filepath.Join [b; ""]).
    change (filepath.Join [""; b]) with (filepath.Join [b]).
    rewrite filepath_Join2 by assumption. simpl.
    apply String.eqb_neq in Hb as Hb'. rewrite Hb'.
    change (strings.Join [b]) with b. now apply Clean_trailing_slash.
  - simpl. apply String.eqb_neq in Hr as Hr'. rewrite Hr'.
    change (strings.Join [r; b; ""]) with (r ++ "/" ++ b ++ "/" ++ "")%string.
    change (strings.Join [r; b]) with (r ++ "/" ++ b)%string.
    rewrite <- (Clean_trailing_slash (r ++ "/" ++ b))
      by (destruct r; [congruence|discriminate]).
    now rewrite !append_assoc.
Qed.

(** X1.  A mutation leaves every other object as it is.  When
    [GetObject(bucket', key')] returns a regular file: after
    [PutObject(bucket, key, ...)], however it ends, and after
    [DeleteObject(bucket, key)], with a path that names another place, after
    [DeleteBucket(bucket)] with a bucket path that names another place, and
    after any [CreateBucket], [GetObject(bucket', key')] returns what it
    returned before. *)
Theorem mutations_leave_other_objects :
  forall (s : S3Server) (bucket' key' : string) (data : list byte) (size : Z)
         (w : os.world),
    GetObject s bucket' key' w = Ok (NewReader data, size) ->
    (forall bucket key reader sz w' e,
        PutObject s bucket key reader sz w = (w', e) ->
        os.locate w (filepath.Join [root s; bucket; key])
        <> os.locate w (filepath.Join [root s; bucket'; key']) ->
        GetObject s bucket' key' w' = Ok (NewReader data, size))
    /\ (forall bucket key w' e,
           DeleteObject s bucket key w = (w', e) ->
           os.locate w (filepath.Join [root s; bucket; key])
           <> os.locate w (filepath.Join [root s; bucket'; key']) ->
           GetObject s bucket' key' w' = Ok (NewReader data, size))
    /\ (forall bucket w' e,
           DeleteBucket s bucket w = (w', e) ->
           os.locate w (filepath.Join [root s; bucket])
           <> os.locate w (filepath.Join [root s; bucket'; key']) ->
           GetObject s bucket' key' w' = Ok (NewReader data, size))
    /\ (forall bucket w' e,
           CreateBucket s bucket w = (w', e) ->
           GetObject s bucket' key' w' = Ok (NewReader data, size)).
Proof.
  intros s bucket' key' data size w G.
  repeat match goal with |- _ /\ _ => split end.
  - intros bucket key reader sz w' e H Hne.
    rewrite <- G. apply (GetObject_kept _ _ _ _ _ _ _ G). intros q x E L.
    apply (PutObject_elsewhere s bucket key reader sz w w' e q x H); congruence.
  - intros bucket key w' e H Hne.
    rewrite <- G. apply (GetObject_kept _ _ _ _ _ _ _ G). intros q x E L.
    unfold DeleteObject in H.
    destruct (os.Remove (filepath.Join [root s; bucket; key]) w) as [w1 e1] eqn:R.
    assert (w' = w1) as -> by (destruct e1; now injection H).
    apply (Remove_elsewhere _ _ _ _ q x R); congruence.
  - intros bucket w' e H Hne.
    rewrite <- G. apply (GetObject_kept _ _ _ _ _ _ _ G). intros q x E L.
    unfold DeleteBucket in H.
    destruct (os.Remove (filepath.Join [root s; bucket]) w) as [w1 e1] eqn:R.
    assert (w' = w1) as -> by (destruct e1; now injection H).
    apply (Remove_elsewhere _ _ _ _ q x R); congruence.
  - intros bucket w' e H.
    rewrite <- G. apply (GetObject_kept _ _ _ _ _ _ _ G). intros q x E L.
    unfold CreateBucket in H.
    destruct (os.MkdirAll (filepath.Join [root s; bucket]) w) as [w1 e1] eqn:M.
    assert (w' = w1) as -> by (destruct e1; now injection H).
    split; [exact (MkdirAll_cwd _ _ _ _ M)|].
    exact (MkdirAll_other_file _ _ _ _ _ _ M E).
Qed.

Lemma mutations_leave_other_objects_witness :
  GetObject sample_server "b" "dir/nested.txt"
            (fst (PutObject sample_server "b" "dir/other.txt" (NewReader [x21]) 1
                            object_world))
  = Ok (NewReader hello, 5%Z)
  /\ GetObject sample_server "b" "dir/nested.txt"
               (fst (DeleteObject sample_server "b" "dir/nested.txt/.." object_world))
     = Ok (NewReader hello, 5%Z).
Proof.
  split.
  - apply (proj1 (mutations_leave_other_objects
                    sample_server "b" "dir/nested.txt" hello 5 object_world eq_refl)
                 "b" "dir/other.txt" (NewReader [x21]) 1%Z _ None).
    + vm_compute. reflexivity.
    + vm_compute. discriminate.
  - apply (proj1 (proj2 (mutations_leave_other_objects
                           sample_server "b" "dir/nested.txt" hello 5 object_world
                           eq_refl))
                 "b" "dir/nested.txt/.." _
                 (snd (DeleteObject sample_server "b" "dir/nested.txt/.." object_world))).
    + vm_compute. reflexivity.
    + vm_compute. discriminate.
Defined.

(* ================================================================== *)
(** * Further properties: the handler *)

(** X2.  A request that is neither PUT nor DELETE changes nothing: GET, and
    every method the handler answers 405, leave the file system as it
    is. *)
Theorem ServeHTTP_reads_only :
  forall (s : S3Server) (r : Request) (w : os.world),
    Method r <> MethodPut -> Method r <> MethodDelete ->
    fst (ServeHTTP s r w) = w.
Proof.
  intros s r w Hp Hd. rewrite ServeHTTP_routes.
  apply String.eqb_neq in Hp, Hd. rewrite Hp, Hd.
  destruct ((request_path r =? "") && (Method r =? MethodGet)).
  { now destruct (ListBuckets s w). }
  destruct (Method r =? MethodGet); [|reflexivity].
  destruct (request_key r =? "").
  - now destruct (ListObjects s (request_bucket r) (Query_prefix r) w).
  - now destruct (GetObject s (request_bucket r) (request_key r) w) as [[rc size]|e].
Qed.

Lemma ServeHTTP_reads_only_witness :
  fst (ServeHTTP sample_server (mkRequest MethodGet "/b/dir/nested.txt" "" (NewReader []) 0)
                 object_world) = object_world
  /\ fst (ServeHTTP sample_server (mkRequest "POST" "/b/new" "" (NewReader hello) 5)
                    object_world) = object_world.
Proof.
  split.
  - apply (ServeHTTP_reads_only
             sample_server
             (mkRequest MethodGet "/b/dir/nested.txt" "" (NewReader []) 0)
             object_world); discriminate.
  - apply (ServeHTTP_reads_only
             sample_server (mkRequest "POST" "/b/new" "" (NewReader hello) 5)
             object_world); discriminate.
Defined.

(** X3.  The status of an answer is 200, 204, 404, 405 or 500, and never
    400: [strings.SplitN] gives at least one part, so the "Invalid request"
    branch of the handler is never taken.  The status is 405 exactly for the
    methods other than GET, PUT and DELETE; 404 only for a GET with a key;
    204 only for a DELETE. *)
Theorem ServeHTTP_status_codes :
  forall (s : S3Server) (r : Request) (w : os.world),
    let status := StatusCode (snd (ServeHTTP s r w)) in
    In status [StatusOK; StatusNoContent; StatusNotFound; StatusMethodNotAllowed;
               StatusInternalServerError]
    /\ status <> StatusBadRequest
    /\ (status = StatusMethodNotAllowed
        <-> Method r <> MethodGet /\ Method r <> MethodPut /\ Method r <> MethodDelete)
    /\ (status = StatusNotFound -> Method r = MethodGet /\ request_key r <> "")
    /\ (status = StatusNoContent -> Method r = MethodDelete).
Proof.
  intros s r w. cbv zeta. rewrite ServeHTTP_routes.
  destruct (String.eqb_spec (Method r) MethodGet) as [Eg|Ng];
    destruct (String.eqb_spec (Method r) MethodPut) as [Ep|Np];
    destruct (String.eqb_spec (Method r) MethodDelete) as [Ed|Nd];
    try (rewrite Eg in *; discriminate);
    try (rewrite Ep in *; discriminate);
    destruct (String.eqb_spec (request_key r) "") as [Ek|Nk];
    destruct (request_path r =? ""); cbn [andb];
    repeat match goal with
           | |- context [match ?x with _ => _ end] =>
               lazymatch x with
               | ListBuckets _ _ => destruct x
               | ListObjects _ _ _ _ => destruct x
               | GetObject _ _ _ _ => destruct x as [[? ?]|?]
               | CreateBucket _ _ _ => destruct x as [? [?|]]
               | DeleteBucket _ _ _ => destruct x as [? [?|]]
               | PutObject _ _ _ _ _ _ => destruct x as [? [?|]]
               | DeleteObject _ _ _ _ => destruct x as [? [?|]]
               end
           end;
    cbn [snd StatusCode http_Error];
    (split; [cbv; tauto|]);
    (split; [discriminate|]);
    (split; [split; [try discriminate; tauto|intros (H1 & H2 & H3); congruence]|]);
    (split; [try discriminate; tauto|]);
    try discriminate; tauto.
Qed.

(** X4.  What was put over HTTP is what is got over HTTP.  When a PUT with a
    key is answered 200, a GET of the same URL path on the state it leaves
    is answered 200, with a [Content-Length] header that is the decimal
    length of the body that was put, and with exactly that body; and the GET
    leaves the state as it is. *)
Theorem ServeHTTP_put_then_get :
  forall (s : S3Server) (r : Request) (w w' : os.world) (resp : Response)
         (prefix : string) (body : Reader) (length : Z),
    Method r = MethodPut ->
    request_key r <> "" ->
    ServeHTTP s r w = (w', resp) ->
    StatusCode resp = StatusOK ->
    ServeHTTP s (mkRequest MethodGet (URL_Path r) prefix body length) w'
    = (w', mkResponse StatusOK
                      [("Content-Length",
                        Sprintf_d (Z.of_nat (List.length (delivered (Body r)))))]
                      (Bytes (delivered (Body r)))).
Proof.
  intros s r w w' resp prefix body length Hm Hk H Hs.
  rewrite ServeHTTP_routes in H. rewrite Hm in H.
  apply String.eqb_neq in Hk as Hk'. rewrite Hk', andb_false_r in H. simpl in H.
  destruct (PutObject s (request_bucket r) (request_key r) (Body r)
                      (ContentLength r) w) as [w1 [e|]] eqn:P;
    injection H as <- <-; [discriminate|].
  apply Put_then_Get in P.
  set (g := mkRequest MethodGet (URL_Path r) prefix body length).
  assert (request_key g = request_key r) as Ek by reflexivity.
  assert (request_bucket g = request_bucket r) as Eb by reflexivity.
  assert ((request_path g =? "") = false) as Ep.
  { apply String.eqb_neq. intros E.
    destruct (request_empty_path g E) as [_ E']. congruence. }
  rewrite ServeHTTP_routes, Ep, Ek, Eb, Hk'. simpl. now rewrite P.
Qed.

Lemma ServeHTTP_put_then_get_witness :
  ServeHTTP sample_server (mkRequest MethodGet "/b/dir/nested.txt" "" (NewReader []) 0)
            object_world
  = (object_world,
     mkResponse StatusOK [("Content-Length", "5")] (Bytes hello)).
Proof.
  apply (ServeHTTP_put_then_get
           sample_server
           (mkRequest MethodPut "/b/dir/nested.txt" "" (NewReader hello) 5)
           bucket_world object_world (mkResponse StatusOK [] NoBody)
           "" (NewReader []) 0 eq_refl ltac:(discriminate)).
  - vm_compute. reflexivity.
  - reflexivity.
Defined.

(* ================================================================== *)
(** * Further properties: [DeleteObject] *)

(** What [Remove] has removed is not there; a regular file that is there
    afterwards was there before, at another place. *)
Lemma alter_unlink_absent p : forall t t',
  well_formed t = true -> os.alter EBUSY os.unlink p t = inr t' ->
  os.entry_at p t' = inl ENOENT.
Proof.
  induction p as [|name rest IH]; intros t t' Hwf; [discriminate|].
  destruct t as [d|es]; [discriminate|]. destruct rest as [|x rest'].
  - cbn [os.alter].
    destruct (os.unlink (os.find_entry name es)) as [e|[v|]] eqn:U; try discriminate.
    + destruct (os.find_entry name es) as [[d|[|kv l]]|]; discriminate.
    + intros [= <-]. rewrite entry_at_cons.
      apply well_formed_Dir in Hwf as [Hd _]. now rewrite find_remove_same.
  - rewrite alter_deeper.
    destruct (os.find_entry name es) as [c|] eqn:F; [|discriminate].
    destruct (os.alter EBUSY os.unlink (x :: rest') c) as [e|c'] eqn:A; [discriminate|].
    intros [= <-]. rewrite entry_at_cons, find_set_same.
    exact (IH c c' (well_formed_find _ _ _ Hwf F) A).
Qed.

Lemma alter_unlink_file_inv p : forall t t' q d,
  well_formed t = true -> os.alter EBUSY os.unlink p t = inr t' ->
  os.entry_at q t' = inr (os.File d) ->
  os.entry_at q t = inr (os.File d) /\ q <> p.
Proof.
  induction p as [|name rest IH]; intros t t' q d Hwf; [discriminate|].
  destruct t as [d0|es]; [discriminate|]. destruct rest as [|x rest'].
  - cbn [os.alter].
    destruct (os.unlink (os.find_entry name es)) as [e|[v|]] eqn:U; try discriminate.
    + destruct (os.find_entry name es) as [[d1|[|kv l]]|]; discriminate.
    + intros [= <-]. destruct q as [|n q']; [discriminate|].
      rewrite !entry_at_cons. apply well_formed_Dir in Hwf as [Hd _].
      destruct (String.eqb_spec n name) as [->|Hn].
      * now rewrite find_remove_same.
      * rewrite find_remove_other by assumption. intros E. split; [exact E|congruence].
  - rewrite alter_deeper.
    destruct (os.find_entry name es) as [c|] eqn:F; [|discriminate].
    destruct (os.alter EBUSY os.unlink (x :: rest') c) as [e|c'] eqn:A; [discriminate|].
    intros [= <-]. destruct q as [|n q']; [discriminate|].
    rewrite !entry_at_cons.
    destruct (String.eqb_spec n name) as [->|Hn].
    + rewrite find_set_same, F. intros E.
      destruct (IH c c' q' d (well_formed_find _ _ _ Hwf F) A E) as [E' Hq].
      split; [exact E'|congruence].
    + rewrite find_set_other by assumption. intros E. split; [exact E|congruence].
Qed.

(** What a successful [DeleteObject] under a canonical key went through. *)
Lemma DeleteObject_ok s bucket key w w' es :
  canonical key = true ->
  bucket_entries s bucket w = Some es ->
  DeleteObject s bucket key w = (w', None) ->
  exists p es',
    os.locate w (filepath.Join [root s; bucket]) = Some p
    /\ os.cwd w' = os.cwd w
    /\ os.alter EBUSY os.unlink (p ++ strings.Split key) (os.tree w) = inr (os.tree w')
    /\ os.alter EBUSY os.unlink (strings.Split key) (os.Dir es) = inr (os.Dir es')
    /\ bucket_entries s bucket w' = Some es'.
Proof.
  intros Hk Hb H. apply bucket_entries_spec in Hb as (p & Hl & He).
  unfold DeleteObject, os.Remove in H.
  rewrite (locate_object s bucket key w p Hk Hl) in H.
  destruct (os.alter EBUSY os.unlink (p ++ strings.Split key) (os.tree w))
    as [e|t] eqn:A; [discriminate|].
  injection H as <-.
  destruct (alter_under _ _ _ _ _ _ _ (Split_not_nil key) He A) as (sub' & B & E').
  destruct (alter_Dir _ _ _ _ _ B) as [es' ->].
  exists p, es'. repeat split; auto.
  apply bucket_entries_spec. exists p. split; [exact Hl|exact E'].
Qed.

(** The keys of a bucket after [DeleteObject]: the keys before, but the
    key. *)
Lemma DeleteObject_keys s bucket key w w' es :
  well_formed_world w = true ->
  canonical key = true ->
  bucket_entries s bucket w = Some es ->
  DeleteObject s bucket key w = (w', None) ->
  exists es', bucket_entries s bucket w' = Some es'
              /\ forall k, In k (keys_under es') <-> In k (keys_under es) /\ k <> key.
Proof.
  intros Hwf Hk Hb H.
  destruct (DeleteObject_ok s bucket key w w' es Hk Hb H)
    as (p & es' & Hl & Hcwd & A & B & Hb').
  exists es'. split; [exact Hb'|].
  apply bucket_entries_spec in Hb as (p0 & Hl0 & He).
  apply well_formed_world_spec in Hwf as [Hc Hwf].
  pose proof (well_formed_entry_at _ _ _ Hwf He) as Hwfb.
  assert (well_formed (os.Dir es') = true) as Hwfb'.
  { apply (well_formed_alter EBUSY os.unlink (strings.Split key) (os.Dir es));
      [|exact Hk|exact Hwfb|exact B].
    intros [[d|[|kv l]]|] v; discriminate. }
  assert (forall q, In q (map fst (files_under [] (os.Dir es')))
                    <-> In q (map fst (files_under [] (os.Dir es)))
                        /\ q <> strings.Split key) as Hq.
  { intros q.
    rewrite (places_entry_at _ [] q Hwfb'), (places_entry_at _ [] q Hwfb). split.
    - intros [d E]. destruct (alter_unlink_file_inv _ _ _ q d Hwfb B E). eauto.
    - intros [[d E] Hne]. exists d.
      exact (alter_other_file EBUSY os.unlink _ _ _ q d unlink_accepts B E Hne). }
  intros k. rewrite !keys_under_In. split.
  - intros (q & -> & Hin). apply Hq in Hin as [Hin Hne]. split; [eauto|].
    intros E. apply Hne. rewrite <- E.
    pose proof (places_valid _ [] q Hwfb eq_refl Hin) as Hv.
    symmetry. apply Split_Join; [|now apply forallb_no_sep].
    intros ->. apply (places_entry_at _ [] [] Hwfb) in Hin as [d Hd]. discriminate.
  - intros [(q & -> & Hin) Hne]. exists q. split; [reflexivity|].
    apply Hq. split; [exact Hin|]. intros ->. apply Hne. apply Join_Split.
Qed.

(** X5.  After [DeleteObject].  In an existing bucket of a well-formed tree,
    when [DeleteObject(bucket, key)] under a canonical key returns without
    error: [GetObject(bucket, key)] fails with "no such file or directory";
    [ListObjects(bucket, "")] succeeds and returns the keys it returned
    before, but the key; and a GET of the object is answered 404. *)
Theorem DeleteObject_removes :
  forall (s : S3Server) (bucket key : string) (w w' : os.world)
         (es : list (string * os.node)),
    well_formed_world w = true ->
    bucket_entries s bucket w = Some es ->
    canonical key = true ->
    DeleteObject s bucket key w = (w', None) ->
    GetObject s bucket key w'
    = Failed (Wrap "failed to stat object"
                   (PathError "stat" (filepath.Join [root s; bucket; key]) ENOENT))
    /\ (exists before after,
           ListObjects s bucket "" w = Ok before
           /\ ListObjects s bucket "" w' = Ok after
           /\ forall k, In k (map Key after) <-> In k (map Key before) /\ k <> key)
    /\ forall r, Method r = MethodGet -> request_bucket r = bucket ->
                 request_key r = key ->
                 StatusCode (snd (ServeHTTP s r w')) = StatusNotFound.
Proof.
  intros s bucket key w w' es Hwf Hb Hk H.
  assert (GetObject s bucket key w'
          = Failed (Wrap "failed to stat object"
                         (PathError "stat" (filepath.Join [root s; bucket; key]) ENOENT)))
    as G.
  { destruct (DeleteObject_ok s bucket key w w' es Hk Hb H)
      as (p & es' & Hl & Hcwd & A & _ & _).
    apply well_formed_world_spec in Hwf as [_ Hwf].
    pose proof (alter_unlink_absent _ _ _ Hwf A) as E.
    unfold GetObject, os.Stat.
    rewrite (locate_cwd w w' _ Hcwd), (locate_object s bucket key w p Hk Hl).
    now rewrite E. }
  split; [exact G|]. split.
  - destruct (DeleteObject_keys s bucket key w w' es Hwf Hk Hb H) as (es' & Hb' & Hks).
    assert (well_formed_world w' = true) as Hwf'
        by exact (DeleteObject_well_formed _ _ _ _ _ _ Hwf H).
    exists (map object_of (files_under [] (os.Dir es))),
           (map object_of (files_under [] (os.Dir es'))).
    assert (forall l : list Object, filter (matches "") l = l) as Hall
        by (intros l; apply forallb_filter_id; now apply forallb_forall).
    split; [rewrite (ListObjects_bucket s bucket "" w es Hwf Hb); now rewrite Hall|].
    split; [rewrite (ListObjects_bucket s bucket "" w' es' Hwf' Hb'); now rewrite Hall|].
    intros k. rewrite !Keys_object_of. apply Hks.
  - intros r Hm Eb Ek. rewrite ServeHTTP_routes, Hm, Eb, Ek.
    assert (key <> "") as Hne by (intros ->; discriminate).
    assert ((request_path r =? "") = false) as ->.
    { apply String.eqb_neq. intros E.
      destruct (request_empty_path r E) as [_ E']. congruence. }
    apply String.eqb_neq in Hne. rewrite Hne. simpl. now rewrite G.
Qed.

Lemma DeleteObject_removes_witness :
  GetObject sample_server "b" "dir/nested.txt"
            (fst (DeleteObject sample_server "b" "dir/nested.txt" object_world))
  = Failed (Wrap "failed to stat object"
                 (PathError "stat" "/data/b/dir/nested.txt" ENOENT)).
Proof.
  apply (proj1 (DeleteObject_removes
                  sample_server "b" "dir/nested.txt" object_world
                  (fst (DeleteObject sample_server "b" "dir/nested.txt" object_world))
                  [("dir", os.Dir [("nested.txt", os.File hello)])]
                  eq_refl eq_refl eq_refl eq_refl)).
Defined.

(** X6.  [DeleteObject] refused.  When nothing is at the path of the
    object, and when a directory with entries is there, [DeleteObject]
    returns an error and leaves the state as it is; a DELETE of such an
    object is answered 500, and leaves the state as it is. *)
Theorem DeleteObject_refused :
  forall (s : S3Server) (bucket key : string) (w : os.world),
    (exists e, os.Stat (filepath.Join [root s; bucket; key]) w = Failed e)
    \/ (exists entry rest,
           os.ReadDir (filepath.Join [root s; bucket; key]) w = Ok (entry :: rest)) ->
    (exists err, DeleteObject s bucket key w = (w, Some err))
    /\ forall r, Method r = MethodDelete -> request_bucket r = bucket ->
                 request_key r = key -> key <> "" ->
                 fst (ServeHTTP s r w) = w
                 /\ StatusCode (snd (ServeHTTP s r w)) = StatusInternalServerError.
Proof.
  intros s bucket key w H.
  assert (exists err, DeleteObject s bucket key w = (w, Some err)) as [err D].
  { unfold DeleteObject.
    destruct (Remove_refused (filepath.Join [root s; bucket; key]) w) as [e ->];
      [|eauto].
    destruct H as [[e H]|(entry & rest & H)].
    - apply Stat_failed in H.
      destruct (os.locate w (filepath.Join [root s; bucket; key])) as [p|]; [|exact I].
      now destruct H as [e' ->].
    - apply ReadDir_entries in H as (p & es & -> & -> & E).
      destruct es; [discriminate|exact I]. }
  split; [eauto|].
  intros r Hm Eb Ek Hne. rewrite ServeHTTP_routes, Hm, Eb, Ek.
  apply String.eqb_neq in Hne. rewrite Hne, andb_false_r. simpl.
  now rewrite D.
Qed.

Lemma DeleteObject_refused_witness :
  (exists err, DeleteObject sample_server "b" "missing" object_world
               = (object_world, Some err))
  /\ (exists err, DeleteObject sample_server "b" "dir" object_world
                  = (object_world, Some err)).
Proof.
  split.
  - apply (proj1 (DeleteObject_refused sample_server "b" "missing" object_world
                    (or_introl (ex_intro _ (PathError "stat" "/data/b/missing" ENOENT)
                                         eq_refl)))).
  - apply (DeleteObject_refused sample_server "b" "dir" object_world).
    right. eexists. eexists. vm_compute. reflexivity.
Defined.

(** X7.  [DeleteObject] leaves the directories of the key.  After a
    successful [DeleteObject] under a canonical key of two names or more, in
    an existing bucket, the directory of the first name is still in the
    bucket: [DeleteBucket] fails and changes nothing, also when the object
    was the only one, so that [ListObjects] returns no object. *)
Theorem DeleteObject_leaves_directories :
  forall (s : S3Server) (bucket key : string) (w w' : os.world)
         (es : list (string * os.node)),
    well_formed_world w = true ->
    bucket_entries s bucket w = Some es ->
    canonical key = true ->
    2 <= List.length (strings.Split key) ->
    DeleteObject s bucket key w = (w', None) ->
    (exists err, DeleteBucket s bucket w' = (w', Some err))
    /\ (forall before, ListObjects s bucket "" w = Ok before ->
                       map Key before = [key] ->
                       ListObjects s bucket "" w' = Ok []).
Proof.
  intros s bucket key w w' es Hwf Hb Hk Hlen H.
  destruct (DeleteObject_ok s bucket key w w' es Hk Hb H)
    as (p & es' & Hl & Hcwd & A & B & Hb').
  split.
  - unfold DeleteBucket.
    destruct (Remove_refused (filepath.Join [root s; bucket]) w') as [e ->]; [|eauto].
    apply bucket_entries_spec in Hb' as (p' & -> & ->).
    destruct (strings.Split key) as [|n1 [|n2 rest]]; simpl in Hlen; try lia.
    rewrite alter_deeper in B.
    destruct (os.find_entry n1 es) as [c|]; [|discriminate].
    destruct (os.alter EBUSY os.unlink (n2 :: rest) c) as [e0|c']; [discriminate|].
    injection B as <-.
    pose proof (find_set_same n1 c' es) as F.
    destruct (os.set_entry n1 c' es); [discriminate|exact I].
  - intros before Lb Kb.
    destruct (DeleteObject_keys s bucket key w w' es Hwf Hk Hb H) as (es2 & Hb2 & Hks).
    assert (well_formed_world w' = true) as Hwf'
        by exact (DeleteObject_well_formed _ _ _ _ _ _ Hwf H).
    assert (forall l : list Object, filter (matches "") l = l) as Hall
        by (intros l; apply forallb_filter_id; now apply forallb_forall).
    rewrite (ListObjects_bucket s bucket "" w es Hwf Hb), Hall in Lb.
    injection Lb as <-. rewrite Keys_object_of in Kb.
    rewrite (ListObjects_bucket s bucket "" w' es2 Hwf' Hb2), Hall. f_equal.
    destruct (files_under [] (os.Dir es2)) as [|f l] eqn:F; [reflexivity|].
    exfalso.
    assert (In (strings.Join (fst f)) (keys_under es2)) as Hin
        by (unfold keys_under; rewrite F; now left).
    change (keys_under es = [key]) in Kb.
    apply Hks in Hin as [Hin Hne]. rewrite Kb in Hin.
    destruct Hin as [E|[]]. congruence.
Qed.

Lemma DeleteObject_leaves_directories_witness :
  (exists err,
      DeleteBucket sample_server "b"
                   (fst (DeleteObject sample_server "b" "dir/nested.txt" object_world))
      = (fst (DeleteObject sample_server "b" "dir/nested.txt" object_world), Some err))
  /\ ListObjects sample_server "b" ""
                 (fst (DeleteObject sample_server "b" "dir/nested.txt" object_world))
     = Ok [].
Proof.
  pose proof (DeleteObject_leaves_directories
                sample_server "b" "dir/nested.txt" object_world
                (fst (DeleteObject sample_server "b" "dir/nested.txt" object_world))
                [("dir", os.Dir [("nested.txt", os.File hello)])]
                eq_refl eq_refl eq_refl ltac:(vm_compute; lia) eq_refl) as [H1 H2].
  split; [exact H1|].
  apply (H2 [mkObject "dir/nested.txt" 5]); reflexivity.
Defined.

(* ================================================================== *)
(** * Further properties: writing over, writing in part, writing and
      removing *)








Lemma writable_file ks : forall es d,
  os.entry_at ks (os.Dir es) = inr (os.File d) -> writable ks (os.Dir es) = true.
Proof.
  induction ks as [|name rest IH]; intros es d; [discriminate|].
  rewrite entry_at_cons. cbn [writable].
  destruct (os.find_entry name es) as [c|]; [|discriminate].
  destruct rest as [|x rest'].
  - now intros [= ->].
  - destruct c as [d0|es0]; [discriminate|]. apply IH.
Qed.

(** X9.  Writing over an object.  Where [GetObject] finds the regular file
    of an object, under a canonical key in an existing bucket of a
    well-formed tree, [PutObject] with a reader that is read to its end
    succeeds; [GetObject] then returns the new bytes and their number, and
    [ListObjects] reports the same keys as before. *)
Theorem PutObject_overwrites :
  forall (s : S3Server) (bucket key : string) (reader : Reader) (size : Z)
         (w : os.world) (es : list (string * os.node)) (old : list byte)
         (oldsize : Z),
    well_formed_world w = true ->
    bucket_entries s bucket w = Some es ->
    canonical key = true ->
    GetObject s bucket key w = Ok (NewReader old, oldsize) ->
    read_error reader = None ->
    exists w', PutObject s bucket key reader size w = (w', None)
               /\ GetObject s bucket key w'
                  = Ok (NewReader (delivered reader),
                        Z.of_nat (List.length (delivered reader)))
               /\ exists before after,
                   ListObjects s bucket "" w = Ok before
                   /\ ListObjects s bucket "" w' = Ok after
                   /\ forall k, In k (map Key after) <-> In k (map Key before).
Proof.
  intros s bucket key reader size w es old oldsize Hwf Hb Hk G Hr.
  assert (os.entry_at (strings.Split key) (os.Dir es) = inr (os.File old)) as Hf.
  { apply GetObject_file_inv in G as (q & Hq & Eq).
    apply bucket_entries_spec in Hb as (p & Hl & He).
    rewrite (locate_object s bucket key w p Hk Hl) in Hq. injection Hq as <-.
    now rewrite (entry_at_app _ _ _ _ He) in Eq. }
  destruct (PutObject_succeeds s bucket key reader size w es Hb Hk
              (writable_file _ _ _ Hf) Hr) as [w' P].
  exists w'. split; [exact P|]. split; [exact (Put_then_Get _ _ _ _ _ _ _ P)|].
  destruct (PutObject_keys s bucket key reader size w w' es Hk Hb P) as (es' & Hb' & Hks).
  assert (well_formed_world w' = true) as Hwf'
      by exact (PutObject_well_formed _ _ _ _ _ _ _ Hwf P).
  exists (map object_of (files_under [] (os.Dir es))),
         (map object_of (files_under [] (os.Dir es'))).
  assert (forall l : list Object, filter (matches "") l = l) as Hall
      by (intros l; apply forallb_filter_id; now apply forallb_forall).
  split; [rewrite (ListObjects_bucket s bucket "" w es Hwf Hb); now rewrite Hall|].
  split; [rewrite (ListObjects_bucket s bucket "" w' es' Hwf' Hb'); now rewrite Hall|].
  intros k. rewrite !Keys_object_of.
  change (In k (keys_under es') <-> In k (keys_under es)). rewrite Hks.
  split; [|now right]. intros [->|H]; [|exact H].
  apply keys_under_In. exists (strings.Split key). split; [now rewrite Join_Split|].
  apply bucket_entries_spec in Hb as (p & Hl & He).
  apply well_formed_world_spec in Hwf as [_ Hwf].
  apply (places_entry_at _ [] _ (well_formed_entry_at _ _ _ Hwf He)). eauto.
Qed.

Lemma PutObject_overwrites_witness :
  exists w', PutObject sample_server "b" "dir/nested.txt" (NewReader [x48; x69]) 2
                       object_world = (w', None)
             /\ GetObject sample_server "b" "dir/nested.txt" w'
                = Ok (NewReader [x48; x69], 2%Z).
Proof.
  destruct (PutObject_overwrites
              sample_server "b" "dir/nested.txt" (NewReader [x48; x69]) 2 object_world
              [("dir", os.Dir [("nested.txt", os.File hello)])] hello 5
              eq_refl eq_refl eq_refl eq_refl eq_refl) as (w' & P & G & _).
  exists w'. split; [exact P|exact G].
Defined.



(* ================================================================== *)
(** * Further properties: the root and the buckets *)






(** The names [ListBuckets] reports: the names of the root whose bucket path
    is a directory. *)
Lemma ListBuckets_In s w buckets :
  well_formed_world w = true -> ListBuckets s w = Ok buckets ->
  exists p0 es0,
    os.locate w (root s) = Some p0
    /\ os.entry_at p0 (os.tree w) = inr (os.Dir es0)
    /\ distinct (map fst es0) = true
    /\ buckets
       = map (fun kv => mkBucket (fst kv))
             (filter (fun kv => match snd kv with os.Dir _ => true | _ => false end) es0)
    /\ forall name,
        In name (map Name buckets)
        <-> valid_name name = true
            /\ exists es, os.find_entry name es0 = Some (os.Dir es).
Proof.
  intros Hwf L. pose proof L as L0. unfold ListBuckets in L.
  destruct (os.ReadDir (root s) w) as [infos|e] eqn:R; [|discriminate]. clear L.
  apply ReadDir_entries in R as (p0 & es0 & Hl & He & _).
  rewrite (ListBuckets_entries s w p0 es0 Hl He) in L0. injection L0 as <-.
  apply well_formed_world_spec in Hwf as [_ Hwf].
  pose proof (well_formed_entry_at _ _ _ Hwf He) as Hwf0.
  apply well_formed_Dir in Hwf0 as [Hd Hv].
  exists p0, es0. do 4 (split; [easy|]). intros name. split.
  - intros Hin. rewrite map_map in Hin. apply in_map_iff in Hin as ([k c] & E & Hin).
    simpl in E. subst k. apply filter_In in Hin as [Hin Hc].
    rewrite Forall_forall in Hv. split; [exact (proj1 (Hv _ Hin))|].
    destruct c as [d|es]; [discriminate|]. exists es. now apply find_entry_In.
  - intros (Hn & es & F). rewrite map_map. apply in_map_iff.
    exists (name, os.Dir es). split; [reflexivity|].
    apply filter_In. split; [now apply find_entry_Some|reflexivity].
Qed.

Lemma bucket_entries_find s w p0 es0 name :
  valid_name name = true ->
  os.locate w (root s) = Some p0 ->
  os.entry_at p0 (os.tree w) = inr (os.Dir es0) ->
  bucket_entries s name w
  = match os.find_entry name es0 with
    | Some (os.Dir es) => Some es
    | _ => None
    end.
Proof.
  intros Hn Hl He. unfold bucket_entries.
  rewrite (locate_bucket s name w p0 Hn Hl), (entry_at_app _ _ _ [name] He).
  rewrite entry_at_cons. now destruct (os.find_entry name es0) as [[d|es]|].
Qed.

(** X12.  What [ListBuckets] lists.  In a well-formed tree, the names that
    [ListBuckets] reports are the valid names whose bucket path is a
    directory, each once; a regular file in the root is not a bucket. *)
Theorem ListBuckets_lists_directories :
  forall (s : S3Server) (w : os.world) (buckets : list Bucket),
    well_formed_world w = true ->
    ListBuckets s w = Ok buckets ->
    NoDup (map Name buckets)
    /\ forall name,
        In name (map Name buckets)
        <-> valid_name name = true /\ exists es, bucket_entries s name w = Some es.
Proof.
  intros s w buckets Hwf L.
  destruct (ListBuckets_In s w buckets Hwf L) as (p0 & es0 & Hl & He & Hd & -> & Hin).
  split.
  - rewrite map_map. simpl. apply (NoDup_names_filter _ es0). now apply distinct_NoDup.
  - intros name. rewrite Hin. split; intros [Hn [es H]]; (split; [exact Hn|]).
    + exists es. now rewrite (bucket_entries_find s w p0 es0 name Hn Hl He), H.
    + rewrite (bucket_entries_find s w p0 es0 name Hn Hl He) in H.
      destruct (os.find_entry name es0) as [[d|es1]|]; try discriminate. eauto.
Qed.

Lemma ListBuckets_lists_directories_witness :
  NoDup (map Name [mkBucket "b"])
  /\ (In "b" (map Name [mkBucket "b"])
      <-> valid_name "b" = true
          /\ exists es, bucket_entries sample_server "b" object_world = Some es).
Proof.
  destruct (ListBuckets_lists_directories sample_server object_world [mkBucket "b"]
              eq_refl eq_refl) as [H1 H2].
  split; [exact H1|exact (H2 "b")].
Defined.

(** X13.  [ListObjects] where the bucket path is no directory.  On a
    regular file the walk visits the file itself, and [ListObjects] succeeds
    with one object of key ["."] and the size of the file (when the prefix
    lets it through); where nothing is, [ListObjects] fails with the error
    of [Lstat], whatever the prefix. *)
Theorem ListObjects_of_no_directory :
  forall (s : S3Server) (bucket prefix : string) (w : os.world),
    (forall info,
        os.Stat (filepath.Join [root s; bucket]) w = Ok info ->
        os.IsDir info = false ->
        ListObjects s bucket prefix w
        = Ok (filter (matches prefix) [mkObject "." (os.Size info)]))
    /\ (forall e,
           os.Stat (filepath.Join [root s; bucket]) w = Failed e ->
           exists e',
             ListObjects s bucket prefix w
             = Failed (Wrap "failed to list objects"
                            (PathError "lstat" (filepath.Join [root s; bucket]) e'))).
Proof.
  intros s bucket prefix w. split.
  - intros info S Hi. unfold os.Stat in S. unfold ListObjects, Walk.
    destruct (os.locate w (filepath.Join [root s; bucket])) as [p|]; [|discriminate].
    destruct (os.entry_at p (os.tree w)) as [e|[d|es]]; try discriminate.
    + injection S as <-. cbn [walk]. unfold listWalkFn.
      cbn [os.info_of os.IsDir os.Size]. unfold filepath.Rel.
      rewrite String.eqb_refl. unfold filepath.ToSlash, matches.
      cbn [filter Key app].
      now destruct ((prefix =? "") || strings.HasPrefix "." prefix).
    + injection S as <-. discriminate.
  - intros e S. unfold os.Stat in S. unfold ListObjects, Walk.
    destruct (os.locate w (filepath.Join [root s; bucket])) as [p|];
      [|eexists; reflexivity].
    destruct (os.entry_at p (os.tree w)) as [e0|n]; [eexists; reflexivity|discriminate].
Qed.

Lemma ListObjects_of_no_directory_witness :
  ListObjects sample_server "b/dir/nested.txt" "" object_world = Ok [mkObject "." 5]
  /\ exists e',
      ListObjects sample_server "missing" "" object_world
      = Failed (Wrap "failed to list objects" (PathError "lstat" "/data/missing" e')).
Proof.
  destruct (ListObjects_of_no_directory sample_server "b/dir/nested.txt" "" object_world)
    as [H1 _].
  destruct (ListObjects_of_no_directory sample_server "missing" "" object_world)
    as [_ H2].
  split.
  - exact (H1 (os.mkFileInfo "nested.txt" 5 false) eq_refl eq_refl).
  - exact (H2 (PathError "stat" "/data/missing" ENOENT) eq_refl).
Defined.








(* ================================================================== *)
(** * Further properties: the key in the path of the object *)

(** Joining [Clean(key)] onto a path is joining [key], for a key that does
    not begin with a slash. *)
Lemma Clean_extend_Clean (X key : string) :
  X <> "" -> filepath.isRooted key = false ->
  filepath.Clean (X ++ "/" ++ filepath.Clean key) = filepath.Clean (X ++ "/" ++ key).
Proof.
  intros HX Hrel.
  assert (filepath.elems (X ++ "/" ++ filepath.Clean key)
          = filepath.elems (X ++ "/" ++ key)) as E.
  { rewrite !elems_feed, !isRooted_append by assumption.
    rewrite !Split_app, !feed_app, feed_Split_Clean. f_equal.
    rewrite (elems_feed key), Hrel.
    rewrite (@feed_cleaned false (clean_up (filepath.isRooted X))).
    - reflexivity.
    - intros. now apply clean_up_push.
    - discriminate.
    - constructor. }
  unfold filepath.Clean at 1 3. rewrite !isRooted_append by assumption.
  now rewrite E.
Qed.

Lemma Join_Clean_key (r b key : string) :
  filepath.Join [r; b] <> "" -> filepath.isRooted key = false ->
  filepath.Join [r; b; filepath.Clean key] = filepath.Join [r; b; key].
Proof.
  intros Hne Hrel.
  destruct (Join_shape [r; b]) as [[E _]|(X & HX & _ & Ek)]; [congruence|].
  change [r; b; filepath.Clean key] with ([r; b] ++ [filepath.Clean key]).
  change [r; b; key] with ([r; b] ++ [key]).
  rewrite !Ek. now apply Clean_extend_Clean.
Qed.

(** X16.  The key is cleaned with the path.  For a key that does not begin
    with a slash, under a bucket path that is not empty, the path of the
    object is the path of the object of [Clean(key)]: [PutObject],
    [GetObject] and [DeleteObject] do under [key] what they do under
    [Clean(key)], so that [a//b], [a/./b] and [a/x/../b] all name the
    object [a/b]. *)
Theorem key_is_cleaned :
  forall (s : S3Server) (bucket key : string),
    filepath.Join [root s; bucket] <> "" ->
    filepath.isRooted key = false ->
    (forall reader size w,
        PutObject s bucket key reader size w
        = PutObject s bucket (filepath.Clean key) reader size w)
    /\ (forall w, GetObject s bucket key w = GetObject s bucket (filepath.Clean key) w)
    /\ (forall w, DeleteObject s bucket key w
                  = DeleteObject s bucket (filepath.Clean key) w).
Proof.
  intros s bucket key Hne Hrel.
  pose proof (Join_Clean_key (root s) bucket key Hne Hrel) as E.
  unfold PutObject, GetObject, DeleteObject. rewrite E. repeat split.
Qed.

Lemma key_is_cleaned_witness :
  GetObject sample_server "b" "dir/./x/..//nested.txt" object_world
  = GetObject sample_server "b" "dir/nested.txt" object_world.
Proof.
  apply (proj1 (proj2 (key_is_cleaned sample_server "b" "dir/./x/..//nested.txt"
                         ltac:(discriminate) eq_refl))).
Defined.

(** Without [".."] a machine only goes down. *)
Lemma feed_goes_down up es : forall st,
  Forall (fun e => e <> "..") es -> exists more, feed up st es = more ++ st.
Proof.
  induction es as [|e es IH]; intros st H; [now exists []|].
  inversion H as [|? ? He Hes]; subst. rewrite feed_cons.
  unfold mstep. destruct ((e =? "") || (e =? ".")); [now apply IH|].
  apply String.eqb_neq in He. rewrite He.
  destruct (IH (e :: st) Hes) as [more ->].
  exists (more ++ [e]). now rewrite <- app_assoc.
Qed.

Lemma is_above_app p : forall rest, is_above p (p ++ rest) = true.
Proof.
  induction p as [|x p IH]; intros rest; [reflexivity|].
  simpl. now rewrite String.eqb_refl, IH.
Qed.

(** The place of the object of a key without [".."]: the place of the
    bucket, or below. *)
Lemma locate_confined s bucket key w p :
  os.locate w (filepath.Join [root s; bucket]) = Some p ->
  Forall (fun e => e <> "..") (strings.Split key) ->
  exists rest, os.locate w (filepath.Join [root s; bucket; key]) = Some (p ++ rest).
Proof.
  intros Hl Hk.
  destruct (Join_shape [root s; bucket]) as [[E _]|(X & HX & E & Ek)].
  - rewrite E in Hl. discriminate.
  - change [root s; bucket; key] with ([root s; bucket] ++ [key]).
    rewrite Ek, locate_Clean by (destruct X; [congruence|discriminate]).
    rewrite E, locate_Clean in Hl by exact HX.
    rewrite (locate_extend w X key p HX Hl).
    destruct (feed_goes_down (@tl string) _ (rev p) Hk) as [more ->].
    exists (rev more). now rewrite List.rev_app_distr, List.rev_involutive.
Qed.

(** X17.  A key without [".."] stays in the bucket.  When no element of the
    key is [".."], the path of the object names the directory of the bucket
    or a place below it, and neither [PutObject] nor [DeleteObject] under
    that key, whatever they return, changes a regular file that is not
    below the directory of the bucket. *)
Theorem key_without_dotdot_confined :
  forall (s : S3Server) (bucket key : string) (w : os.world) (p : list string),
    os.locate w (filepath.Join [root s; bucket]) = Some p ->
    Forall (fun e => e <> "..") (strings.Split key) ->
    (exists rest,
        os.locate w (filepath.Join [root s; bucket; key]) = Some (p ++ rest))
    /\ forall q d,
        os.entry_at q (os.tree w) = inr (os.File d) ->
        is_above p q = false ->
        (forall reader size w' e,
            PutObject s bucket key reader size w = (w', e) ->
            os.entry_at q (os.tree w') = inr (os.File d))
        /\ (forall w' e,
               DeleteObject s bucket key w = (w', e) ->
               os.entry_at q (os.tree w') = inr (os.File d)).
Proof.
  intros s bucket key w p Hl Hk.
  destruct (locate_confined s bucket key w p Hl Hk) as [rest Hlo].
  split; [eauto|]. intros q d Hq Hab.
  assert (os.locate w (filepath.Join [root s; bucket; key]) <> Some q) as Hne.
  { rewrite Hlo. intros [= <-]. rewrite is_above_app in Hab. discriminate. }
  split.
  - intros reader size w' e P.
    exact (proj2 (PutObject_elsewhere _ _ _ _ _ _ _ _ _ _ P Hne Hq)).
  - intros w' e D. unfold DeleteObject in D.
    destruct (os.Remove (filepath.Join [root s; bucket; key]) w) as [w1 o] eqn:Rm.
    assert (w' = w1) as -> by (destruct o; now injection D).
    exact (proj2 (Remove_elsewhere _ _ _ _ _ _ Rm Hne Hq)).
Qed.

Lemma key_without_dotdot_confined_witness :
  os.entry_at ["data"; "b"; "dir"; "nested.txt"]
              (os.tree (fst (PutObject sample_server "c" "b/dir/nested.txt"
                                       (NewReader []) 0 object_world)))
  = inr (os.File hello).
Proof.
  apply (proj1 (proj2 (key_without_dotdot_confined
                         sample_server "c" "b/dir/nested.txt" object_world
                         ["data"; "c"] eq_refl
                         ltac:(repeat constructor; discriminate))
                      ["data"; "b"; "dir"; "nested.txt"] hello eq_refl eq_refl)
               (NewReader []) 0%Z _ (snd (PutObject sample_server "c" "b/dir/nested.txt"
                                                    (NewReader []) 0 object_world))).
  apply surjective_pairing.
Defined.
